(** * The search core of the chess engine (engine.cpp), embedded in Rocq

    The development follows the functions of engine.cpp that make up the
    search: the static evaluator, the exchange evaluator, the ordering
    heuristics, the move scorer, the quiescence search and the principal
    variation search, the iterative-deepening driver and the legacy
    [alphaBeta] routine.  (The printing functions and [getBestMove], which
    only sets up the collaborators before it calls the driver, are left
    out.)  C++ [int] values are integers of [Z]: signed overflow is
    undefined behaviour in C++, so the embedding describes the executions
    in which no [int] overflows (material, piece-square and mate scores
    stay far below 2^31).

    The board, the move generator, the transposition table and the Zobrist
    hashing are collaborators whose code lives outside engine.cpp; they
    enter as interfaces (type classes), and the header constants as a class
    of their own. *)

From Stdlib Require Import ZArith List Lia Bool Sorted.
From stdpp Require Import base option gmap.
Import ListNotations.

Local Open Scope Z_scope.

(** ** Data model *)

Inductive Color := WHITE | BLACK.

(** The enumerators are listed in the order of the MVV-LVA matrix
    (pawn = 0 ... king = 5); [NONE] is the "no piece" enumerator. *)
Inductive PieceType := PAWN | KNIGHT | BISHOP | ROOK | QUEEN | KING | NONE.

Record Piece := mkPiece { getType : PieceType; getColor : Color }.

(** Modelled from the spec: the Position and Move structs of the missing
    header.  A square is a (row, col) pair, valid inside the 8x8 grid;
    the default-constructed [Position()] is the unset sentinel. *)
Record Position := mkPos { row : Z; col : Z }.

Definition noPosition : Position := mkPos (-1) (-1).

Definition isValid (p : Position) : bool :=
  (0 <=? row p) && (row p <? 8) && (0 <=? col p) && (col p <? 8).

(** [operator==] on positions. *)
Definition pos_eqb (p q : Position) : bool :=
  (row p =? row q) && (col p =? col q).

Record Move := mkMove { from : Position; to : Position; promotion : PieceType }.

(** [Move(Position(), Position())], the "no move yet" sentinel. *)
Definition noMove : Move := mkMove noPosition noPosition NONE.

(** The four-field comparison that engine.cpp writes out at every use. *)
Definition sameSquares (a b : Move) : bool :=
  (row (from a) =? row (from b)) && (col (from a) =? col (from b)) &&
  (row (to a) =? row (to b)) && (col (to a) =? col (to b)).

Definition color_eqb (a b : Color) : bool :=
  match a, b with
  | WHITE, WHITE | BLACK, BLACK => true
  | _, _ => false
  end.

Definition opposite (c : Color) : Color :=
  match c with WHITE => BLACK | BLACK => WHITE end.

Definition isNoneType (t : PieceType) : bool :=
  match t with NONE => true | _ => false end.

Definition isPawn (t : PieceType) : bool :=
  match t with PAWN => true | _ => false end.

Inductive NodeType := EXACT | ALPHA | BETA.

(** ** Collaborator interfaces *)

(** The Board class.  [getLegalMoves b pos] is [piece->getLegalMoves(board)]
    for the piece standing on [pos].  [makeMove] returns the position after
    the move, or [None] when the board refuses it; [unmakeMove] restores the
    position before the move, which the functional model gets by keeping the
    old board. *)
Class BoardOps (Board : Type) := {
  getPieceAt : Board -> Position -> option Piece;
  getSideToMove : Board -> Color;
  getEnPassantTarget : Board -> Position;
  generateLegalMoves : Board -> list Move;
  getLegalMoves : Board -> Position -> list Move;
  isInCheck : Board -> bool;
  isCheckmate : Board -> bool;
  isStalemate : Board -> bool;
  makeMove : Board -> Move -> option Board;
  updateHashKey : Z -> Move -> Board -> Z
}.

(** The transposition table.  [probe] yields the hit flag, the score and the
    table's move hint (the two reference parameters of the C++ method). *)
Class TableOps (TT : Type) := {
  probe : TT -> Z -> Z -> Z -> Z -> bool * Z * Move;
  store : TT -> Z -> Z -> Z -> NodeType -> Move -> TT
}.

(** The constants of the missing header. *)
Class EngineConsts := {
  PAWN_VALUE : Z;
  KNIGHT_VALUE : Z;
  BISHOP_VALUE : Z;
  ROOK_VALUE : Z;
  QUEEN_VALUE : Z;
  KING_VALUE : Z;
  MAX_PLY : Z
}.

(** ** Piece-square tables *)

Definition pawnTable : list Z :=
  [ 0;  0;  0;  0;  0;  0;  0;  0;
    50; 50; 50; 50; 50; 50; 50; 50;
    10; 10; 20; 30; 30; 20; 10; 10;
    5;  5; 10; 25; 25; 10;  5;  5;
    0;  0;  0; 20; 20;  0;  0;  0;
    5; -5;-10;  0;  0;-10; -5;  5;
    5; 10; 10;-20;-20; 10; 10;  5;
    0;  0;  0;  0;  0;  0;  0;  0 ].

Definition knightTable : list Z :=
  [ -50;-40;-30;-30;-30;-30;-40;-50;
    -40;-20;  0;  0;  0;  0;-20;-40;
    -30;  0; 10; 15; 15; 10;  0;-30;
    -30;  5; 15; 20; 20; 15;  5;-30;
    -30;  0; 15; 20; 20; 15;  0;-30;
    -30;  5; 10; 15; 15; 10;  5;-30;
    -40;-20;  0;  5;  5;  0;-20;-40;
    -50;-40;-30;-30;-30;-30;-40;-50 ].

Definition bishopTable : list Z :=
  [ -20;-10;-10;-10;-10;-10;-10;-20;
    -10;  0;  0;  0;  0;  0;  0;-10;
    -10;  0; 10; 10; 10; 10;  0;-10;
    -10;  5;  5; 10; 10;  5;  5;-10;
    -10;  0;  5; 10; 10;  5;  0;-10;
    -10;  5;  5;  5;  5;  5;  5;-10;
    -10;  0;  5;  0;  0;  5;  0;-10;
    -20;-10;-10;-10;-10;-10;-10;-20 ].

Definition rookTable : list Z :=
  [ 0;  0;  0;  0;  0;  0;  0;  0;
    5; 10; 10; 10; 10; 10; 10;  5;
    -5;  0;  0;  0;  0;  0;  0; -5;
    -5;  0;  0;  0;  0;  0;  0; -5;
    -5;  0;  0;  0;  0;  0;  0; -5;
    -5;  0;  0;  0;  0;  0;  0; -5;
    -5;  0;  0;  0;  0;  0;  0; -5;
    0;  0;  0;  5;  5;  0;  0;  0 ].

Definition queenTable : list Z :=
  [ -20;-10;-10; -5; -5;-10;-10;-20;
    -10;  0;  0;  0;  0;  0;  0;-10;
    -10;  0;  5;  5;  5;  5;  0;-10;
    -5;  0;  5;  5;  5;  5;  0; -5;
    0;  0;  5;  5;  5;  5;  0; -5;
    -10;  5;  5;  5;  5;  5;  0;-10;
    -10;  0;  5;  0;  0;  0;  0;-10;
    -20;-10;-10; -5; -5;-10;-10;-20 ].

Definition kingMiddleGameTable : list Z :=
  [ -30;-40;-40;-50;-50;-40;-40;-30;
    -30;-40;-40;-50;-50;-40;-40;-30;
    -30;-40;-40;-50;-50;-40;-40;-30;
    -30;-40;-40;-50;-50;-40;-40;-30;
    -20;-30;-30;-40;-40;-30;-30;-20;
    -10;-20;-20;-20;-20;-20;-20;-10;
    20; 20;  0;  0;  0;  0; 20; 20;
    20; 30; 10;  0;  0; 10; 30; 20 ].

Definition kingEndGameTable : list Z :=
  [ -50;-40;-30;-20;-20;-30;-40;-50;
    -30;-20;-10;  0;  0;-10;-20;-30;
    -30;-10; 20; 30; 30; 20;-10;-30;
    -30;-10; 30; 40; 40; 30;-10;-30;
    -30;-10; 30; 40; 40; 30;-10;-30;
    -30;-10; 20; 30; 30; 20;-10;-30;
    -30;-30;  0;  0;  0;  0;-30;-30;
    -50;-30;-30;-30;-30;-30;-30;-50 ].

(** [table[i]] for an index inside the table. *)
Definition at_index (table : list Z) (i : Z) : Z :=
  nth (Z.to_nat i) table 0.

(** The row and column ranges of the [for] loops, in scan order. *)
Definition range8 : list Z := [0; 1; 2; 3; 4; 5; 6; 7].

Definition allSquares : list Position :=
  flat_map (fun r => map (fun c => mkPos r c) range8) range8.

(** ** Static evaluation *)

Section Evaluation.
Context {Board : Type} `{BoardOps Board} `{EngineConsts}.

(** One iteration of the loop of [isEndgame]: the running piece count and
    the two queen flags. *)
Definition endgameStep (board : Board) (acc : Z * bool * bool) (pos : Position)
  : Z * bool * bool :=
  let '(pieceCount, whiteQueenPresent, blackQueenPresent) := acc in
  match getPieceAt board pos with
  | Some piece =>
      match getType piece with
      | KING | PAWN => acc
      | QUEEN =>
          match getColor piece with
          | WHITE => (pieceCount + 1, true, blackQueenPresent)
          | BLACK => (pieceCount + 1, whiteQueenPresent, true)
          end
      | _ => (pieceCount + 1, whiteQueenPresent, blackQueenPresent)
      end
  | None => acc
  end.

Definition isEndgame (board : Board) : bool :=
  let '(pieceCount, whiteQueenPresent, blackQueenPresent) :=
    fold_left (endgameStep board) allSquares (0, false, false) in
  (negb whiteQueenPresent && negb blackQueenPresent) || (pieceCount <=? 6).

(** The [switch] in the body of the evaluation loop: piece value and
    piece-square value of a piece of type [t] whose table index is [idx]. *)
Definition pieceTerm (isEndgamePhase : bool) (t : PieceType) (idx : Z) : Z :=
  match t with
  | PAWN => PAWN_VALUE + at_index pawnTable idx
  | KNIGHT => KNIGHT_VALUE + at_index knightTable idx
  | BISHOP => BISHOP_VALUE + at_index bishopTable idx
  | ROOK => ROOK_VALUE + at_index rookTable idx
  | QUEEN => QUEEN_VALUE + at_index queenTable idx
  | KING =>
      KING_VALUE + (if isEndgamePhase then at_index kingEndGameTable idx
                    else at_index kingMiddleGameTable idx)
  | NONE => 0 + 0
  end.

(** One iteration of the evaluation loop on the pair
    (whiteScore, blackScore). *)
Definition evalStep (isEndgamePhase : bool) (board : Board) (acc : Z * Z)
    (pos : Position) : Z * Z :=
  let '(whiteScore, blackScore) := acc in
  match getPieceAt board pos with
  | None => acc
  | Some piece =>
      let tableIndex := row pos * 8 + col pos in
      let blackTableIndex := (7 - row pos) * 8 + col pos in
      match getColor piece with
      | WHITE => (whiteScore + pieceTerm isEndgamePhase (getType piece) tableIndex,
                  blackScore)
      | BLACK => (whiteScore,
                  blackScore + pieceTerm isEndgamePhase (getType piece) blackTableIndex)
      end
  end.

Definition evaluatePosition (board : Board) : Z :=
  let isEndgamePhase := isEndgame board in
  let '(whiteScore, blackScore) :=
    fold_left (evalStep isEndgamePhase board) allSquares (0, 0) in
  if isCheckmate board then
    match getSideToMove board with
    | WHITE => -100000
    | BLACK => 100000
    end
  else if isStalemate board then 0
  else
    let score := whiteScore - blackScore in
    match getSideToMove board with
    | WHITE => score
    | BLACK => - score
    end.

(** [getPieceValue] *)
Definition getPieceValue (t : PieceType) : Z :=
  match t with
  | PAWN => PAWN_VALUE
  | KNIGHT => KNIGHT_VALUE
  | BISHOP => BISHOP_VALUE
  | ROOK => ROOK_VALUE
  | QUEEN => QUEEN_VALUE
  | KING => KING_VALUE
  | NONE => 0
  end.

End Evaluation.

(** ** Static exchange evaluation *)

Section Exchange.
Context {Board : Type} `{BoardOps Board} `{EngineConsts}.

(** One square of the double loop of [see]: the running least valuable
    attacker (square, value, type). *)
Definition attackerStep (board : Board) (square : Position) (side : Color)
    (acc : Position * Z * PieceType) (pos : Position) : Position * Z * PieceType :=
  let '(leastValuableAttacker, leastValuableAttackerValue, leastValuableAttackerType) := acc in
  match getPieceAt board pos with
  | Some piece =>
      if negb (color_eqb (getColor piece) side)
         && existsb (fun move => pos_eqb (to move) square) (getLegalMoves board pos)
      then
        let pieceValue := getPieceValue (getType piece) in
        if pieceValue <? leastValuableAttackerValue
        then (pos, pieceValue, getType piece)
        else acc
      else acc
  | None => acc
  end.

Definition leastAttacker (board : Board) (square : Position) (side : Color)
  : Position * Z * PieceType :=
  fold_left (attackerStep board square side) allSquares (noPosition, 100000, NONE).

(** [see] calls itself on the same board with the sides swapped; the
    fuel bounds the number of nested calls and [None] means that the
    bound was reached. *)
Fixpoint see (fuel : nat) (board : Board) (square : Position) (side : Color)
    (captureValue : Z) : option Z :=
  match fuel with
  | O => None
  | S fuel' =>
      let '(_, leastValuableAttackerValue, leastValuableAttackerType) :=
        leastAttacker board square side in
      if isNoneType leastValuableAttackerType then Some 0
      else
        match see fuel' board square (opposite side) leastValuableAttackerValue with
        | Some r => Some (Z.max 0 (captureValue - r))
        | None => None
        end
  end.

Definition seeCapture (fuel : nat) (board : Board) (move : Move) : option Z :=
  match getPieceAt board (to move) with
  | None => Some 0
  | Some capturedPiece =>
      match getPieceAt board (from move) with
      | None => Some 0
      | Some movingPiece =>
          let captureValue := getPieceValue (getType capturedPiece) in
          match see fuel board (to move) (getColor movingPiece)
                  (getPieceValue (getType movingPiece)) with
          | Some r => Some (captureValue - r)
          | None => None
          end
      end
  end.

(** The index-based part of [getDepthAdjustment], after the two early
    returns. *)
Definition lateMoveReduction (moveIndex : Z) : Z :=
  if moveIndex <? 3 then 0
  else
    let reduction := 0 in
    let reduction := if 3 <=? moveIndex then 1 else reduction in
    let reduction := if 6 <=? moveIndex then 2 else reduction in
    let reduction := if 12 <=? moveIndex then 3 else reduction in
    let reduction := Z.min reduction 2 in
    - reduction.

Definition getDepthAdjustment (fuel : nat) (move : Move) (board : Board)
    (isPVMove : bool) (moveIndex : Z) : option Z :=
  if isPVMove then Some 0
  else
    match getPieceAt board (to move) with
    | Some _ =>
        match seeCapture fuel board move with
        | Some s => if s <? 0 then Some (-1) else Some (lateMoveReduction moveIndex)
        | None => None
        end
    | None => Some (lateMoveReduction moveIndex)
    end.

End Exchange.

(** ** MVV-LVA *)

Definition mvvLvaScores : list (list Z) :=
  [ [105; 205; 305; 405; 505; 605];
    [104; 204; 304; 404; 504; 604];
    [103; 203; 303; 403; 503; 603];
    [102; 202; 302; 402; 502; 602];
    [101; 201; 301; 401; 501; 601];
    [100; 200; 300; 400; 500; 600] ].

(** [static_cast<int>] of a piece type. *)
Definition typeIndex (t : PieceType) : nat :=
  match t with
  | PAWN => 0 | KNIGHT => 1 | BISHOP => 2 | ROOK => 3 | QUEEN => 4 | KING => 5
  | NONE => 6
  end%nat.

Definition getMVVLVAScore (attacker victim : PieceType) : Z :=
  nth (typeIndex victim) (nth (typeIndex attacker) mvvLvaScores []) 0.

(** ** Ordering heuristics store *)

(** The history table [historyTable[2][64][64]], keyed by
    (colour index, from index, to index); a cell that was never written
    holds 0. *)
Definition histAt (h : gmap (Z * Z * Z) Z) (k : Z * Z * Z) : Z :=
  default 0 (h !! k).

Definition colorIndex (c : Color) : Z :=
  match c with WHITE => 0 | BLACK => 1 end.

Definition squareIndex (p : Position) : Z := row p * 8 + col p.

Definition historyKey (move : Move) (color : Color) : Z * Z * Z :=
  (colorIndex color, squareIndex (from move), squareIndex (to move)).

(** The triple loop [historyTable[c][from][to] /= 2]; C++ integer division
    truncates, which is [Z.quot]. *)
Definition halveHistory (h : gmap (Z * Z * Z) Z) : gmap (Z * Z * Z) Z :=
  (fun v => Z.quot v 2) <$> h.

(** The table after [historyTable[colorIdx][fromIdx][toIdx] += bonus].
    The product and the sum are those of [Z]; they are the [int] product
    and sum of the source as long as neither overflows, which holds for
    cells in [0, 10000] and [depth * depth <= 10000]. *)
Definition bumpHistory (h : gmap (Z * Z * Z) Z) (move : Move) (depth : Z)
    (color : Color) : gmap (Z * Z * Z) Z :=
  let bonus := depth * depth in
  <[historyKey move color := histAt h (historyKey move color) + bonus]> h.

Definition updateHistoryTable (h : gmap (Z * Z * Z) Z) (move : Move) (depth : Z)
    (color : Color) : gmap (Z * Z * Z) Z :=
  let h1 := bumpHistory h move depth color in
  if 10000 <? histAt h1 (historyKey move color) then halveHistory h1 else h1.

(** The engine object: the members that the search reads and writes.
    [curDepth] is the member [depth] that [getMoveScore] reads, [pvTable]
    the per-depth lines kept by [storePV], [gameBoard] is
    [game.getBoard()]. *)
Record Engine (Board TT : Type) := mkEngine {
  nodesSearched : Z;
  transpositionTable : TT;
  killerMoves : gmap Z (Move * Move);
  counterMoves : gmap (Z * Z * Z * Z) Move;
  historyTable : gmap (Z * Z * Z) Z;
  principalVariation : list Move;
  pvTable : gmap Z (list Move);
  curDepth : Z;
  gameBoard : Board
}.

Arguments mkEngine {Board TT}.
Arguments nodesSearched {Board TT}.
Arguments transpositionTable {Board TT}.
Arguments killerMoves {Board TT}.
Arguments counterMoves {Board TT}.
Arguments historyTable {Board TT}.
Arguments principalVariation {Board TT}.
Arguments pvTable {Board TT}.
Arguments curDepth {Board TT}.
Arguments gameBoard {Board TT}.

Section Heuristics.
Context {Board TT : Type} `{BoardOps Board} `{TableOps TT} `{EngineConsts}.

Definition withNodes (e : Engine Board TT) (n : Z) : Engine Board TT :=
  mkEngine n (transpositionTable e) (killerMoves e) (counterMoves e)
    (historyTable e) (principalVariation e) (pvTable e) (curDepth e) (gameBoard e).

Definition withTable (e : Engine Board TT) (t : TT) : Engine Board TT :=
  mkEngine (nodesSearched e) t (killerMoves e) (counterMoves e)
    (historyTable e) (principalVariation e) (pvTable e) (curDepth e) (gameBoard e).

Definition withKillers (e : Engine Board TT) (k : gmap Z (Move * Move))
  : Engine Board TT :=
  mkEngine (nodesSearched e) (transpositionTable e) k (counterMoves e)
    (historyTable e) (principalVariation e) (pvTable e) (curDepth e) (gameBoard e).

Definition withCounters (e : Engine Board TT) (c : gmap (Z * Z * Z * Z) Move)
  : Engine Board TT :=
  mkEngine (nodesSearched e) (transpositionTable e) (killerMoves e) c
    (historyTable e) (principalVariation e) (pvTable e) (curDepth e) (gameBoard e).

Definition withHistory (e : Engine Board TT) (h : gmap (Z * Z * Z) Z)
  : Engine Board TT :=
  mkEngine (nodesSearched e) (transpositionTable e) (killerMoves e) (counterMoves e)
    h (principalVariation e) (pvTable e) (curDepth e) (gameBoard e).

(** [killerMoves[ply]], both slots; fresh slots hold the sentinel. *)
Definition killersAt (e : Engine Board TT) (ply : Z) : Move * Move :=
  default (noMove, noMove) (killerMoves e !! ply).

Definition storeKillerMove (e : Engine Board TT) (move : Move) (ply : Z)
  : Engine Board TT :=
  if MAX_PLY <=? ply then e
  else
    let '(k0, k1) := killersAt e ply in
    if sameSquares k0 move then e
    else withKillers e (<[ply := (move, k0)]> (killerMoves e)).

Definition isKillerMove (e : Engine Board TT) (move : Move) (ply : Z) : bool :=
  if MAX_PLY <=? ply then false
  else
    let '(k0, k1) := killersAt e ply in
    sameSquares k0 move || sameSquares k1 move.

Definition counterKey (piece : Piece) (lastMove : Move) : Z * Z * Z * Z :=
  (Z.of_nat (typeIndex (getType piece)), colorIndex (getColor piece),
   squareIndex (from lastMove), squareIndex (to lastMove)).

Definition storeCounterMove (e : Engine Board TT) (lastMove counterMove : Move)
  : Engine Board TT :=
  if negb (isValid (from lastMove)) || negb (isValid (to lastMove)) then e
  else
    match getPieceAt (gameBoard e) (to lastMove) with
    | None => e
    | Some piece =>
        withCounters e (<[counterKey piece lastMove := counterMove]> (counterMoves e))
    end.

Definition getCounterMove (e : Engine Board TT) (lastMove : Move) : Move :=
  if negb (isValid (from lastMove)) || negb (isValid (to lastMove)) then noMove
  else
    match getPieceAt (gameBoard e) (to lastMove) with
    | None => noMove
    | Some piece => default noMove (counterMoves e !! counterKey piece lastMove)
    end.

Definition updateHistoryScore (e : Engine Board TT) (move : Move) (depth : Z)
    (color : Color) : Engine Board TT :=
  withHistory e (updateHistoryTable (historyTable e) move depth color).

Definition getHistoryScore (e : Engine Board TT) (move : Move) (color : Color) : Z :=
  histAt (historyTable e) (historyKey move color).

(** [isPVMove(move, pv, ply)]; the cast of a negative [ply] to [size_t]
    exceeds every vector size. *)
Definition isPVMove (move : Move) (pv : list Move) (ply : Z) : bool :=
  if (ply <? 0) || (Z.of_nat (length pv) <=? ply) then false
  else sameSquares (nth (Z.to_nat ply) pv noMove) move.

(** Modelled from the spec: the overload [isPVMove(move, d, ply)], absent
    from engine.cpp, tests the move against the line retained for depth
    [d] ("the PV move at this ply for any depth still retained"). *)
Definition isPVMoveAtDepth (e : Engine Board TT) (move : Move) (d ply : Z) : bool :=
  isPVMove move (default [] (pvTable e !! d)) ply.

(** The loop [for (d = depth; d >= 1; d--)] of [getMoveScore], started at
    [d = n]. *)
Fixpoint pvBand (e : Engine Board TT) (move : Move) (ply : Z) (n : nat) : option Z :=
  match n with
  | O => None
  | S n' =>
      let d := Z.of_nat n in
      if isPVMoveAtDepth e move d ply then Some (9000000 + d * 1000)
      else pvBand e move ply n'
  end.

Definition matchesTTMove (ttMove move : Move) : bool :=
  isValid (from ttMove) && isValid (to ttMove) && sameSquares ttMove move.

(** [getMoveScore]; [None] when the exchange evaluation has no result or
    the capture branch dereferences a missing moving piece. *)
Definition getMoveScore (fuel : nat) (e : Engine Board TT) (move : Move)
    (board : Board) (ttMove : Move) (pv : list Move) (ply : Z)
    (sideToMove : Color) (lastMove : Move) : option Z :=
  if matchesTTMove ttMove move then Some 10000000
  else
    match pvBand e move ply (Z.to_nat (curDepth e)) with
    | Some s => Some s
    | None =>
        let movingPiece := getPieceAt board (from move) in
        let capturedPiece := getPieceAt board (to move) in
        match capturedPiece with
        | Some victim =>
            match seeCapture fuel board move with
            | None => None
            | Some seeScore =>
                if 0 <? seeScore then Some (4000000 + seeScore)
                else
                  match movingPiece with
                  | Some attacker =>
                      Some (3000000 + getMVVLVAScore (getType attacker) (getType victim))
                  | None => None
                  end
            end
        | None =>
            let counter := getCounterMove e lastMove in
            if isValid (from lastMove) && isValid (to lastMove)
               && isValid (from counter) && isValid (to counter)
               && sameSquares counter move
            then Some 2500000
            else if isKillerMove e move ply then
              if sameSquares (fst (killersAt e ply)) move then Some 2000100
              else Some 2000000
            else Some (getHistoryScore e move sideToMove)
        end
    end.

End Heuristics.

(** ** The search monad

    A search call threads the engine object and may have no result: [None]
    stands for a call whose nested calls exceed the fuel, or that reads the
    type of a piece that is not there. *)

Definition Search (Board TT A : Type) : Type :=
  Engine Board TT -> option (A * Engine Board TT).

Definition ret {Board TT A : Type} (a : A) : Search Board TT A :=
  fun e => Some (a, e).

Definition bind {Board TT A B : Type} (c : Search Board TT A)
    (k : A -> Search Board TT B) : Search Board TT B :=
  fun e => match c e with
           | Some (a, e') => k a e'
           | None => None
           end.

Definition liftOption {Board TT A : Type} (o : option A) : Search Board TT A :=
  fun e => match o with
           | Some a => Some (a, e)
           | None => None
           end.

Definition gets {Board TT A : Type} (f : Engine Board TT -> A) : Search Board TT A :=
  fun e => Some (f e, e).

Definition modify {Board TT : Type} (f : Engine Board TT -> Engine Board TT)
  : Search Board TT unit :=
  fun e => Some (tt, f e).

Declare Scope search_scope.
Delimit Scope search_scope with search.
Notation "x <- c1 ;; c2" := (bind c1 (fun x => c2))
  (at level 100, c1 at next level, right associativity) : search_scope.
Notation "c1 ;; c2" := (bind c1 (fun _ => c2))
  (at level 100, right associativity) : search_scope.

(** [std::sort] with the comparator [a.first > b.first].  The order of
    moves with equal keys is left open by [std::sort]; the model keeps
    them in generation order. *)
Fixpoint insertScored (x : Z * Move) (l : list (Z * Move)) : list (Z * Move) :=
  match l with
  | [] => [x]
  | y :: l' => if fst x <? fst y then y :: insertScored x l' else x :: y :: l'
  end.

Definition sortScored (l : list (Z * Move)) : list (Z * Move) :=
  fold_right insertScored [] l.

Definition INT_MIN : Z := -2147483648.
Definition INT_MAX : Z := 2147483647.

(** ** Quiescence search *)

Section Quiescence.
Context {Board TT : Type} `{BoardOps Board} `{TableOps TT} `{EngineConsts}.
Local Open Scope search_scope.

(** The en-passant test [piece at from is a pawn && move.to == target];
    a legal move always has its piece, and without one the test is taken
    to fail.  (The source dereferences the piece unchecked, engine.cpp
    494: the model agrees with it on positions whose moves start on
    pieces, [movesFromPieces].) *)
Definition isEnPassant (board : Board) (move : Move) : bool :=
  match getPieceAt board (from move) with
  | Some piece => isPawn (getType piece) && pos_eqb (to move) (getEnPassantTarget board)
  | None => false
  end.

(** The filter of the first loop of [quiescenceSearch]. *)
Definition isCapturingMove (board : Board) (move : Move) : bool :=
  match getPieceAt board (to move) with
  | Some _ => true
  | None => isEnPassant board move
  end.

(** The scoring loop of [quiescenceSearch]: the list of (score, move)
    pairs, without the captures that the loop drops.  The moves come from
    the legal move list, so each has its moving piece; without one the
    type is taken to be [NONE].  (The source dereferences the piece
    unchecked, engine.cpp 505-510 and 521: the model agrees with it on
    positions whose moves start on pieces, [movesFromPieces].) *)
Fixpoint scoreCaptures (fuel : nat) (board : Board) (ply : Z) (moves : list Move)
  : option (list (Z * Move)) :=
  match moves with
  | [] => Some []
  | move :: rest =>
      let movingType :=
        match getPieceAt board (from move) with
        | Some p => getType p
        | None => NONE
        end in
      let this : option (option (Z * Move)) :=
        match getPieceAt board (to move) with
        | Some capturedPiece =>
            let moveScore := getMVVLVAScore movingType (getType capturedPiece) in
            match seeCapture fuel board move with
            | None => None
            | Some seeScore =>
                if seeScore <? 0 then
                  if (2 <? ply) && negb (isInCheck board) then Some None
                  else Some (Some (moveScore + seeScore, move))
                else Some (Some (moveScore, move))
            end
        | None =>
            if isEnPassant board move
            then Some (Some (getMVVLVAScore movingType PAWN, move))
            else Some (Some (0, move))
        end in
      match this, scoreCaptures fuel board ply rest with
      | Some (Some sm), Some l => Some (sm :: l)
      | Some None, Some l => Some l
      | _, _ => None
      end
  end.

(** The search loop of [quiescenceSearch]; [self] is the recursive call. *)
Fixpoint quiescenceLoop (self : Board -> Z -> Z -> Z -> Z -> Search Board TT Z)
    (board : Board) (beta hashKey ply : Z) (moves : list (Z * Move)) (alpha : Z)
  : Search Board TT Z :=
  match moves with
  | [] => ret alpha
  | (_, move) :: rest =>
      match makeMove board move with
      | None => quiescenceLoop self board beta hashKey ply rest alpha
      | Some board' =>
          let newHashKey := updateHashKey hashKey move board' in
          r <- self board' (- beta) (- alpha) newHashKey (ply + 1) ;;
          let score := - r in
          if beta <=? score then ret beta
          else
            let alpha := if alpha <? score then score else alpha in
            quiescenceLoop self board beta hashKey ply rest alpha
      end
  end.

Fixpoint quiescenceSearch (fuel : nat) (board : Board) (alpha beta hashKey ply : Z)
  : Search Board TT Z :=
  match fuel with
  | O => fun _ => None
  | S fuel' =>
      modify (fun e => withNodes e (nodesSearched e + 1)) ;;
      if MAX_PLY - 1 <=? ply then ret (evaluatePosition board)
      else
        let standPat := evaluatePosition board in
        if beta <=? standPat then ret beta
        else
          let alpha := if alpha <? standPat then standPat else alpha in
          let legalMoves := generateLegalMoves board in
          let capturingMoves := List.filter (isCapturingMove board) legalMoves in
          scoredMoves <- liftOption (scoreCaptures fuel board ply capturingMoves) ;;
          quiescenceLoop (quiescenceSearch fuel') board beta hashKey ply
            (sortScored scoredMoves) alpha
  end.

End Quiescence.

(** ** Principal variation search *)

(** The variables that the move loop of [pvSearch] carries from one
    iteration to the next: [alpha], [beta], [maxEval] or [minEval],
    [localBestMove], the [pv] out-parameter, [foundPV] and [nodeType]. *)
Record LoopVars := mkVars {
  v_alpha : Z;
  v_beta : Z;
  v_eval : Z;
  v_bestMove : Move;
  v_pv : list Move;
  v_foundPV : bool;
  v_nodeType : NodeType
}.

Section PVS.
Context {Board TT : Type} `{BoardOps Board} `{TableOps TT} `{EngineConsts}.
Local Open Scope search_scope.

(** A search call: board, depth, alpha, beta, maximizingPlayer, hashKey,
    ply, lastMove; the result pairs the returned score with the [pv]
    out-parameter. *)
Definition SearchFn : Type :=
  Board -> Z -> Z -> Z -> bool -> Z -> Z -> Move -> Search Board TT (Z * list Move).

(** The scoring loop of [pvSearch], with the early pruning of very bad
    captures. *)
Fixpoint scoreMoves (fuel : nat) (e : Engine Board TT) (board : Board) (depth : Z)
    (ttMove : Move) (ply : Z) (lastMove : Move) (moves : list Move)
  : option (list (Z * Move)) :=
  match moves with
  | [] => Some []
  | move :: rest =>
      match getMoveScore fuel e move board ttMove (principalVariation e) ply
              (getSideToMove board) lastMove with
      | None => None
      | Some moveScore =>
          let dropped : option bool :=
            if 3 <=? depth then
              match getPieceAt board (to move) with
              | Some _ =>
                  match seeCapture fuel board move with
                  | Some seeScore => Some (seeScore <? - PAWN_VALUE * 2)
                  | None => None
                  end
              | None => Some false
              end
            else Some false in
          match dropped, scoreMoves fuel e board depth ttMove ply lastMove rest with
          | Some true, Some l => Some l
          | Some false, Some l => Some ((moveScore, move) :: l)
          | _, _ => None
          end
      end
  end.

(** Extensions 3 (recapture) and 4 (pawn push), computed per move on top of
    the node's [extension]. *)
Definition moveExtensionOf (board : Board) (extension : Z) (lastMove move : Move) : Z :=
  let moveExtension := extension in
  let moveExtension :=
    if isValid (to lastMove) && pos_eqb (to move) (to lastMove)
    then Z.max moveExtension 1 else moveExtension in
  match getPieceAt board (from move) with
  | Some piece =>
      if isPawn (getType piece) then
        let destRow := match getSideToMove board with WHITE => 6 | BLACK => 1 end in
        if row (to move) =? destRow then Z.max moveExtension 1 else moveExtension
      else moveExtension
  | None => moveExtension
  end.

(** The recursive calls made for one move: a full window for the first
    move, a null window and possibly a full-window re-search afterwards.
    Every call passes the depth [depth - 1 + moveExtension].  The
    negations are those of [Z]; they are the [int] negations of the source
    for every value above [INT_MIN]. *)
Definition searchChild (self : SearchFn) (board' : Board) (depth moveExtension : Z)
    (alpha beta : Z) (childMaximizing : bool) (newHashKey ply : Z) (move : Move)
    (foundPV : bool) : Search Board TT (Z * list Move) :=
  if foundPV then
    r <- self board' (depth - 1 + moveExtension) (- alpha - 1) (- alpha)
           childMaximizing newHashKey (ply + 1) move ;;
    let eval := - fst r in
    if (alpha <? eval) && (eval <? beta) then
      r2 <- self board' (depth - 1 + moveExtension) (- beta) (- alpha)
              childMaximizing newHashKey (ply + 1) move ;;
      ret (- fst r2, snd r2)
    else ret (eval, snd r)
  else
    r <- self board' (depth - 1 + moveExtension) (- beta) (- alpha)
           childMaximizing newHashKey (ply + 1) move ;;
    ret (- fst r, snd r).

(** The bookkeeping on a cutoff by a move that lands on an empty square. *)
Definition recordCutoff (board : Board) (move : Move) (depth ply : Z) (lastMove : Move)
  : Search Board TT unit :=
  match getPieceAt board (to move) with
  | Some _ => ret tt
  | None =>
      modify (fun e =>
        let e := storeKillerMove e move ply in
        let e := updateHistoryScore e move depth (getSideToMove board) in
        if isValid (from lastMove) && isValid (to lastMove)
        then storeCounterMove e lastMove move
        else e)
  end.

(** The move loop of the maximizing branch; [i] is the loop index. *)
Fixpoint maxLoop (self : SearchFn) (fuel : nat) (board : Board)
    (depth hashKey ply : Z) (lastMove : Move) (extension : Z)
    (moves : list (Z * Move)) (i : Z) (v : LoopVars) : Search Board TT LoopVars :=
  match moves with
  | [] => ret v
  | (_, move) :: rest =>
      pvLine <- gets principalVariation ;;
      let isPV := isPVMove move pvLine ply in
      let moveExtension := moveExtensionOf board extension lastMove move in
      depthAdjustment <-
        liftOption (if negb (v_foundPV v) && (0 <? i)
                    then getDepthAdjustment fuel move board isPV i
                    else Some 0) ;;
      let newDepth := Z.max 0 (depth - 1 + moveExtension + depthAdjustment) in
      match makeMove board move with
      | None => maxLoop self fuel board depth hashKey ply lastMove extension rest (i + 1) v
      | Some board' =>
          let newHashKey := updateHashKey hashKey move board' in
          r <- searchChild self board' depth moveExtension (v_alpha v) (v_beta v)
                 false newHashKey ply move (v_foundPV v) ;;
          let eval := fst r in
          let childPV := snd r in
          let v :=
            if v_eval v <? eval
            then mkVars (v_alpha v) (v_beta v) eval move (move :: childPV) true
                   (v_nodeType v)
            else v in
          let alpha := Z.max (v_alpha v) eval in
          let v := mkVars alpha (v_beta v) (v_eval v) (v_bestMove v) (v_pv v)
                     (v_foundPV v) (v_nodeType v) in
          if v_beta v <=? alpha then
            recordCutoff board move depth ply lastMove ;;
            ret (mkVars (v_alpha v) (v_beta v) (v_eval v) (v_bestMove v) (v_pv v)
                   (v_foundPV v) BETA)
          else maxLoop self fuel board depth hashKey ply lastMove extension rest (i + 1) v
      end
  end.

(** The move loop of the minimizing branch. *)
Fixpoint minLoop (self : SearchFn) (board : Board)
    (depth hashKey ply : Z) (lastMove : Move) (extension : Z)
    (moves : list (Z * Move)) (v : LoopVars) : Search Board TT LoopVars :=
  match moves with
  | [] => ret v
  | (_, move) :: rest =>
      let moveExtension := moveExtensionOf board extension lastMove move in
      match makeMove board move with
      | None => minLoop self board depth hashKey ply lastMove extension rest v
      | Some board' =>
          let newHashKey := updateHashKey hashKey move board' in
          r <- searchChild self board' depth moveExtension (v_alpha v) (v_beta v)
                 true newHashKey ply move (v_foundPV v) ;;
          let eval := fst r in
          let childPV := snd r in
          let v :=
            if eval <? v_eval v
            then mkVars (v_alpha v) (v_beta v) eval move (move :: childPV) true
                   (v_nodeType v)
            else v in
          let beta := Z.min (v_beta v) eval in
          let v := mkVars (v_alpha v) beta (v_eval v) (v_bestMove v) (v_pv v)
                     (v_foundPV v) (v_nodeType v) in
          if beta <=? v_alpha v then
            recordCutoff board move depth ply lastMove ;;
            ret (mkVars (v_alpha v) (v_beta v) (v_eval v) (v_bestMove v) (v_pv v)
                   (v_foundPV v) ALPHA)
          else minLoop self board depth hashKey ply lastMove extension rest v
      end
  end.

(** The test [if (eval > originalAlpha && eval < beta) nodeType = EXACT]
    that follows either loop, on the values the variables hold there. *)
Definition finalNodeType (originalAlpha beta eval : Z) (nodeType : NodeType) : NodeType :=
  if (originalAlpha <? eval) && (eval <? beta) then EXACT else nodeType.

(** The tail of either branch: classify, store, return. *)
Definition storeResult (hashKey depth originalAlpha : Z) (v : LoopVars)
  : Search Board TT (Z * list Move) :=
  let nodeType := finalNodeType originalAlpha (v_beta v) (v_eval v) (v_nodeType v) in
  modify (fun e =>
    withTable e (store (transpositionTable e) hashKey depth (v_eval v) nodeType
                   (v_bestMove v))) ;;
  ret (v_eval v, v_pv v).

(** The body of [pvSearch]; [self] is [pvSearch] itself, called for the
    children. *)
Definition pvSearchNode (self : SearchFn) (fuel : nat) : SearchFn :=
  fun board depth alpha beta maximizingPlayer hashKey ply lastMove =>
  modify (fun e => withNodes e (nodesSearched e + 1)) ;;
  let originalAlpha := alpha in
  table <- gets transpositionTable ;;
  let probed := if 0 <? ply then probe table hashKey depth alpha beta
                else (false, 0, noMove) in
  let ttMove := snd probed in
  if fst (fst probed) then ret (snd (fst probed), [])
  else if MAX_PLY - 1 <=? ply then ret (evaluatePosition board, [])
  else if depth <=? 0 then
    r <- quiescenceSearch fuel board alpha beta hashKey ply ;;
    ret (r, [])
  else
    let extension := if isInCheck board then 1 else 0 in
    if isCheckmate board || isStalemate board then ret (evaluatePosition board, [])
    else
      let legalMoves := generateLegalMoves board in
      match legalMoves with
      | [] =>
          if isInCheck board
          then ret (if maximizingPlayer then -100000 + ply else 100000 - ply, [])
          else ret (0, [])
      | firstMove :: _ =>
          let extension :=
            if (Z.of_nat (length legalMoves) =? 1) && (2 <=? depth)
            then Z.max extension 1 else extension in
          e <- gets (fun e => e) ;;
          scoredMoves <-
            liftOption (scoreMoves fuel e board depth ttMove ply lastMove legalMoves) ;;
          let scoredMoves := sortScored scoredMoves in
          let start := mkVars alpha beta
                         (if maximizingPlayer then INT_MIN else INT_MAX)
                         firstMove [] false ALPHA in
          v <- (if maximizingPlayer
                then maxLoop self fuel board depth hashKey ply lastMove extension
                       scoredMoves 0 start
                else minLoop self board depth hashKey ply lastMove extension
                       scoredMoves start) ;;
          storeResult hashKey depth originalAlpha v
      end.

Fixpoint pvSearch (fuel : nat) : SearchFn :=
  match fuel with
  | O => fun _ _ _ _ _ _ _ _ _ => None
  | S fuel' => pvSearchNode (pvSearch fuel') fuel
  end.

End PVS.

(** ** A concrete board: positions given with their legal moves

    To run the engine on a position, the collaborators need an
    implementation.  A [GameNode] is a position written out as the Board
    class presents it to the engine: the pieces on their squares, the side
    to move, the en-passant target, the check, checkmate and stalemate
    flags, the legal moves of the side to move, each with the position it
    leads to (where the examples need it), and the per-piece move lists
    that [piece->getLegalMoves] reports. *)

Unset Elimination Schemes.

Inductive GameNode := mkNode {
  pieces : list (Position * Piece);
  sideToMove : Color;
  enPassantTarget : Position;
  inCheck : bool;
  checkmate : bool;
  stalemate : bool;
  legalMoves : list (Move * option GameNode);
  pieceMoves : list (Position * list Move)
}.

Set Elimination Schemes.

Definition nodePieceAt (b : GameNode) (pos : Position) : option Piece :=
  match find (fun entry => pos_eqb (fst entry) pos) (pieces b) with
  | Some entry => Some (snd entry)
  | None => None
  end.

Definition nodeMakeMove (b : GameNode) (move : Move) : option GameNode :=
  match find (fun entry => sameSquares (fst entry) move) (legalMoves b) with
  | Some entry => snd entry
  | None => None
  end.

Definition nodePieceMoves (b : GameNode) (pos : Position) : list Move :=
  match find (fun entry => pos_eqb (fst entry) pos) (pieceMoves b) with
  | Some entry => snd entry
  | None => List.filter (fun move => pos_eqb (from move) pos) (map fst (legalMoves b))
  end.

#[export] Instance GameNodeOps : BoardOps GameNode := {
  getPieceAt := nodePieceAt;
  getSideToMove := sideToMove;
  getEnPassantTarget := enPassantTarget;
  generateLegalMoves := fun b => map fst (legalMoves b);
  getLegalMoves := nodePieceMoves;
  isInCheck := inCheck;
  isCheckmate := checkmate;
  isStalemate := stalemate;
  makeMove := nodeMakeMove;
  updateHashKey := fun h move _ =>
    Z.lxor (h * 4099) (squareIndex (from move) * 64 + squareIndex (to move) + 1)
}.

(** A transposition table that holds nothing on probing and keeps the
    entries it is given, newest first. *)
Definition StoreLog : Type := list (Z * Z * Z * NodeType * Move).

#[export] Instance StoreLogOps : TableOps StoreLog := {
  probe := fun _ _ _ _ _ => (false, 0, noMove);
  store := fun t hashKey depth score nodeType move =>
    (hashKey, depth, score, nodeType, move) :: t
}.

(** The customary header values: pawn 100, knight 320, bishop 330, rook
    500, queen 900, king 20000, and 64 plies. *)
#[export] Instance usualConsts : EngineConsts := {|
  PAWN_VALUE := 100;
  KNIGHT_VALUE := 320;
  BISHOP_VALUE := 330;
  ROOK_VALUE := 500;
  QUEEN_VALUE := 900;
  KING_VALUE := 20000;
  MAX_PLY := 64
|}.

Definition sq (r c : Z) : Position := mkPos r c.

Definition mv (r1 c1 r2 c2 : Z) : Move := mkMove (sq r1 c1) (sq r2 c2) NONE.

(** A fresh engine whose game board is [b]. *)
Definition freshEngine (b : GameNode) : Engine GameNode StoreLog :=
  mkEngine 0 [] ∅ ∅ ∅ [] ∅ 0 b.

(** ** Example data: a history table *)

(** Three cells of White's history: the move (0,1)->(0,2) at the ceiling
    10000, and two quiet moves with scores 3 and 2. *)
Definition crowdedHistory : gmap (Z * Z * Z) Z :=
  <[(0, 1, 2) := 10000]> (<[(0, 8, 16) := 3]> (<[(0, 9, 17) := 2]> ∅)).

Definition spreadHistory : gmap (Z * Z * Z) Z :=
  <[(0, 1, 2) := 10000]> (<[(0, 8, 16) := 10]> (<[(0, 9, 17) := 4]> ∅)).

(** ** The colour-flipped mirror of a position *)

Definition flipPiece (p : Piece) : Piece :=
  mkPiece (getType p) (opposite (getColor p)).

Definition mirrorSquare (pos : Position) : Position :=
  mkPos (7 - row pos) (col pos).

(** [b'] is the colour-flipped mirror of [b]: every piece changes colour
    and moves to the vertically mirrored square, the other side is to move,
    and the collaborators' terminal flags agree (a mated or stalemated side
    stays so in the mirror). *)
Definition colorFlipped {Board : Type} `{BoardOps Board} (b b' : Board) : Prop :=
  (forall pos, getPieceAt b' pos = option_map flipPiece (getPieceAt b (mirrorSquare pos)))
  /\ getSideToMove b' = opposite (getSideToMove b)
  /\ isCheckmate b' = isCheckmate b
  /\ isStalemate b' = isStalemate b.

(** The accumulators of the two evaluation loops with the colours
    exchanged. *)
Definition swapPair (acc : Z * Z) : Z * Z := (snd acc, fst acc).

Definition swapFlags (acc : Z * bool * bool) : Z * bool * bool :=
  (fst (fst acc), snd acc, snd (fst acc)).

(** White: king (7,4), queen (7,3).  Black: king (0,4).  White to move.
    Only the squares, the side to move and the flags matter to the
    evaluator. *)
Definition queenUp : GameNode :=
  mkNode [(sq 7 4, mkPiece KING WHITE); (sq 7 3, mkPiece QUEEN WHITE);
          (sq 0 4, mkPiece KING BLACK)]
    WHITE noPosition false false false [] [].

(** The mirror of [queenUp]: black king (0,4) and queen (0,3), white king
    (7,4), Black to move. *)
Definition queenUpFlipped : GameNode :=
  mkNode [(sq 0 4, mkPiece KING BLACK); (sq 0 3, mkPiece QUEEN BLACK);
          (sq 7 4, mkPiece KING WHITE)]
    BLACK noPosition false false false [] [].

(** ** Boards for the exchange evaluator and the move scorer *)

(** The chess rule that the per-piece move lists of a board obey: no move
    of a piece lands on a square held by a piece of its own colour. *)
Definition noOwnCapture {Board : Type} `{BoardOps Board} (board : Board) : Prop :=
  forall pos p m q,
    getPieceAt board pos = Some p ->
    In m (getLegalMoves board pos) ->
    getPieceAt board (to m) = Some q ->
    getColor q <> getColor p.

(** [hangingQueen] after the pawn has taken the queen: white king (7,6)
    and pawn (3,4), black king (0,6), Black to move with five king moves
    and nothing to capture. *)
Definition queenTaken : GameNode :=
  mkNode [(sq 7 6, mkPiece KING WHITE); (sq 3 4, mkPiece PAWN WHITE);
          (sq 0 6, mkPiece KING BLACK)]
    BLACK noPosition false false false
    [(mv 0 6 0 5, None); (mv 0 6 0 7, None); (mv 0 6 1 5, None);
     (mv 0 6 1 6, None); (mv 0 6 1 7, None)]
    [].

(** White: king (7,6), pawn (4,3).  Black: king (0,6), queen (3,4), which
    nothing defends.  White to move and not in check; the pawn can take the
    queen or step forward, the king has four squares ((6,7) is on the
    queen's diagonal). *)
Definition hangingQueen : GameNode :=
  mkNode [(sq 7 6, mkPiece KING WHITE); (sq 4 3, mkPiece PAWN WHITE);
          (sq 0 6, mkPiece KING BLACK); (sq 3 4, mkPiece QUEEN BLACK)]
    WHITE noPosition false false false
    [(mv 4 3 3 4, Some queenTaken); (mv 4 3 3 3, None);
     (mv 7 6 7 5, None); (mv 7 6 7 7, None); (mv 7 6 6 5, None);
     (mv 7 6 6 6, None)]
    [].

(** White: king (7,4), rook (7,3).  Black: king (0,4), rook (0,3).  The
    d-file between the rooks is empty, so either rook can move to (4,3).
    White to move.  The per-piece lists give the moves of every piece,
    of the side to move or not, as [see] asks for them. *)
Definition contestedFile : GameNode :=
  mkNode [(sq 7 4, mkPiece KING WHITE); (sq 7 3, mkPiece ROOK WHITE);
          (sq 0 4, mkPiece KING BLACK); (sq 0 3, mkPiece ROOK BLACK)]
    WHITE noPosition false false false
    [(mv 7 3 6 3, None); (mv 7 3 5 3, None); (mv 7 3 4 3, None); (mv 7 3 3 3, None);
     (mv 7 3 2 3, None); (mv 7 3 1 3, None); (mv 7 3 0 3, None);
     (mv 7 3 7 2, None); (mv 7 3 7 1, None); (mv 7 3 7 0, None);
     (mv 7 4 6 4, None); (mv 7 4 6 5, None); (mv 7 4 7 5, None)]
    [(sq 7 3, [mv 7 3 6 3; mv 7 3 5 3; mv 7 3 4 3; mv 7 3 3 3; mv 7 3 2 3;
               mv 7 3 1 3; mv 7 3 0 3; mv 7 3 7 2; mv 7 3 7 1; mv 7 3 7 0]);
     (sq 0 3, [mv 0 3 1 3; mv 0 3 2 3; mv 0 3 3 3; mv 0 3 4 3; mv 0 3 5 3;
               mv 0 3 6 3; mv 0 3 7 3; mv 0 3 0 2; mv 0 3 0 1; mv 0 3 0 0]);
     (sq 7 4, [mv 7 4 6 4; mv 7 4 6 5; mv 7 4 7 5]);
     (sq 0 4, [mv 0 4 1 4; mv 0 4 1 5; mv 0 4 0 5])].

(** A check of [noOwnCapture] on a written-out position: every listed move
    of a piece ends on an empty square or on a piece of the other colour. *)
Definition landsOnOther (b : GameNode) (pos : Position) (move : Move) : bool :=
  match nodePieceAt b pos, nodePieceAt b (to move) with
  | Some p, Some q => negb (color_eqb (getColor q) (getColor p))
  | _, _ => true
  end.

Definition obeysRule (b : GameNode) : bool :=
  forallb (fun entry => forallb (landsOnOther b (fst entry)) (snd entry)) (pieceMoves b)
  && forallb (fun move => landsOnOther b (from move) move) (map fst (legalMoves b)).

(** [noOwnCapture] on a position and on every position reached from it by
    at most [n] moves that the board accepts. *)
Fixpoint ruleDownTo {Board : Type} `{BoardOps Board} (n : nat) (board : Board) : Prop :=
  noOwnCapture board
  /\ match n with
     | O => True
     | S n' => forall move board', makeMove board move = Some board' -> ruleDownTo n' board'
     end.

(** The same on a written-out position, as a check. *)
Fixpoint obeysRuleDownTo (n : nat) (b : GameNode) : bool :=
  obeysRule b
  && match n with
     | O => true
     | S n' =>
         forallb (fun entry => match snd entry with
                               | Some b' => obeysRuleDownTo n' b'
                               | None => true
                               end) (legalMoves b)
     end.

(** ** Positions for the principal variation search *)

(** The pieces after [move]: a piece on the destination square is taken
    off, the moving piece changes square. *)
Definition piecesAfter (ps : list (Position * Piece)) (move : Move)
  : list (Position * Piece) :=
  map (fun entry => if pos_eqb (fst entry) (from move) then (to move, snd entry)
                    else entry)
      (List.filter (fun entry => negb (pos_eqb (fst entry) (to move))) ps).

(** A position in which the side to move has no capture and is neither in
    check nor mated nor stalemated, with its legal moves listed without
    their successors: a leaf of the examples. *)
Definition quietNode (ps : list (Position * Piece)) (side : Color) (moves : list Move)
  : GameNode :=
  mkNode ps side noPosition false false false (map (fun m => (m, None)) moves) [].

(** *** A choice for Black

    White: king (2,1).  Black: king (0,0), pawn (2,7).  Black to move has
    two legal moves, the king step (0,0)->(0,1) and the pawn step
    (2,7)->(3,7); White's king then has five, respectively six, quiet
    moves. *)
Definition blackChoicePieces : list (Position * Piece) :=
  [(sq 0 0, mkPiece KING BLACK); (sq 2 7, mkPiece PAWN BLACK);
   (sq 2 1, mkPiece KING WHITE)].

Definition afterKingStep : GameNode :=
  quietNode (piecesAfter blackChoicePieces (mv 0 0 0 1)) WHITE
    [mv 2 1 2 0; mv 2 1 3 0; mv 2 1 3 1; mv 2 1 3 2; mv 2 1 2 2].

Definition afterPawnStep : GameNode :=
  quietNode (piecesAfter blackChoicePieces (mv 2 7 3 7)) WHITE
    [mv 2 1 2 0; mv 2 1 3 0; mv 2 1 3 1; mv 2 1 3 2; mv 2 1 2 2; mv 2 1 1 2].

Definition blackChoice : GameNode :=
  mkNode blackChoicePieces BLACK noPosition false false false
    [(mv 0 0 0 1, Some afterKingStep); (mv 2 7 3 7, Some afterPawnStep)] [].

(** *** A back-rank mate

    White: king (7,6), pawns (6,5), (6,6), (6,7).  Black: king (0,6), rook
    (7,4), which has just arrived from (0,4) and gives check along the
    back rank.  White to move is checkmated. *)
Definition backRankMated : GameNode :=
  mkNode [(sq 7 6, mkPiece KING WHITE); (sq 6 5, mkPiece PAWN WHITE);
          (sq 6 6, mkPiece PAWN WHITE); (sq 6 7, mkPiece PAWN WHITE);
          (sq 0 6, mkPiece KING BLACK); (sq 7 4, mkPiece ROOK BLACK)]
    WHITE noPosition true true false [] [].

(** The same with colours exchanged and the board mirrored: Black to move
    is checkmated by the white rook on (0,4). *)
Definition backRankMatedBlack : GameNode :=
  mkNode [(sq 0 6, mkPiece KING BLACK); (sq 1 5, mkPiece PAWN BLACK);
          (sq 1 6, mkPiece PAWN BLACK); (sq 1 7, mkPiece PAWN BLACK);
          (sq 7 6, mkPiece KING WHITE); (sq 0 4, mkPiece ROOK WHITE)]
    BLACK noPosition true true false [] [].

(** A king without a move that is not in check: White king (7,0), Black
    king (5,1) and queen (6,2) (which guards (6,0), (6,1) and (7,1)
    together with the king); White to move is stalemated. *)
Definition stalemated : GameNode :=
  mkNode [(sq 7 0, mkPiece KING WHITE); (sq 5 1, mkPiece KING BLACK);
          (sq 6 2, mkPiece QUEEN BLACK)]
    WHITE noPosition false false true [] [].

(** *** Mate in one

    White: king (7,6), rook (7,0).  Black: king (0,6), pawns (1,5), (1,6),
    (1,7).  White to move; the rook move (7,0)->(0,0) mates on the back
    rank.  White has 17 legal moves: 12 of the rook, 5 of the king. *)
Definition mateInOnePieces : list (Position * Piece) :=
  [(sq 7 6, mkPiece KING WHITE); (sq 7 0, mkPiece ROOK WHITE);
   (sq 0 6, mkPiece KING BLACK); (sq 1 5, mkPiece PAWN BLACK);
   (sq 1 6, mkPiece PAWN BLACK); (sq 1 7, mkPiece PAWN BLACK)].

Definition mateInOneMoves : list Move :=
  [mv 7 0 0 0; mv 7 0 1 0; mv 7 0 2 0; mv 7 0 3 0; mv 7 0 4 0; mv 7 0 5 0; mv 7 0 6 0;
   mv 7 0 7 1; mv 7 0 7 2; mv 7 0 7 3; mv 7 0 7 4; mv 7 0 7 5;
   mv 7 6 7 5; mv 7 6 7 7; mv 7 6 6 5; mv 7 6 6 6; mv 7 6 6 7].

(** Black's moves after a white move that does not mate: six pawn steps and
    two king steps, none of them a capture. *)
Definition mateInOneReplies : list Move :=
  [mv 1 5 2 5; mv 1 5 3 5; mv 1 6 2 6; mv 1 6 3 6; mv 1 7 2 7; mv 1 7 3 7;
   mv 0 6 0 5; mv 0 6 0 7].

Definition afterWhiteMove (move : Move) : GameNode :=
  if sameSquares move (mv 7 0 0 0)
  then mkNode (piecesAfter mateInOnePieces move) BLACK noPosition true true false [] []
  else quietNode (piecesAfter mateInOnePieces move) BLACK mateInOneReplies.

Definition mateInOne : GameNode :=
  mkNode mateInOnePieces WHITE noPosition false false false
    (map (fun m => (m, Some (afterWhiteMove m))) mateInOneMoves) [].

(** *** Five quiet moves

    White: king (7,0), pawn (6,7).  Black: king (0,7).  White to move has
    five legal moves, all quiet: three king steps and two pawn steps.
    After each, Black's king has three steps; the positions after those
    are leaves. *)
Definition fiveMovesPieces : list (Position * Piece) :=
  [(sq 7 0, mkPiece KING WHITE); (sq 6 7, mkPiece PAWN WHITE);
   (sq 0 7, mkPiece KING BLACK)].

Definition fiveMovesList : list Move :=
  [mv 7 0 6 0; mv 7 0 7 1; mv 7 0 6 1; mv 6 7 5 7; mv 6 7 4 7].

Definition fiveMovesReplies : list Move :=
  [mv 0 7 0 6; mv 0 7 1 6; mv 0 7 1 7].

Definition afterReply (ps : list (Position * Piece)) (reply : Move) : GameNode :=
  quietNode (piecesAfter ps reply) WHITE [].

Definition afterFirstMove (move : Move) : GameNode :=
  mkNode (piecesAfter fiveMovesPieces move) BLACK noPosition false false false
    (map (fun r => (r, Some (afterReply (piecesAfter fiveMovesPieces move) r)))
         fiveMovesReplies) [].

Definition fiveMoves : GameNode :=
  mkNode fiveMovesPieces WHITE noPosition false false false
    (map (fun m => (m, Some (afterFirstMove m))) fiveMovesList) [].

(** The (hashKey, depth) columns of the stored entries, oldest first. *)
Definition storedDepths (t : StoreLog) : list (Z * Z) :=
  rev (map (fun entry => (fst (fst (fst (fst entry))), snd (fst (fst (fst entry))))) t).

(** What a run returns, without the engine tables: score, line, node
    count, stored entries (newest first). *)
Definition runSummary (r : option (Z * list Move * Engine GameNode StoreLog))
  : option (Z * list Move * Z * StoreLog) :=
  match r with
  | Some (score, line, e) => Some (score, line, nodesSearched e, transpositionTable e)
  | None => None
  end.

(** ** Reference searches

    Modelled from the spec: "a full-width, unpruned minimax search of the
    same position to the same depth".  The successors of a position are
    the positions after its legal moves; at depth 0, and where there is no
    move, the score is the static evaluation.  [minimax] scores from
    White's side with a maximizing and a minimizing player, [negamax]
    from the side to move. *)

Section Reference.
Context {Board : Type} `{BoardOps Board} `{EngineConsts}.

Definition successors (board : Board) : list Board :=
  flat_map (fun move => match makeMove board move with
                        | Some board' => [board']
                        | None => []
                        end) (generateLegalMoves board).

(** The static score seen from White's side. *)
Definition whiteView (board : Board) : Z :=
  if isCheckmate board then
    match getSideToMove board with WHITE => -100000 | BLACK => 100000 end
  else
    match getSideToMove board with
    | WHITE => evaluatePosition board
    | BLACK => - evaluatePosition board
    end.

Fixpoint minimax (depth : nat) (board : Board) (maximizingPlayer : bool) : Z :=
  match depth with
  | O => whiteView board
  | S depth' =>
      match map (fun b => minimax depth' b (negb maximizingPlayer)) (successors board) with
      | [] => whiteView board
      | x :: xs => fold_left (if maximizingPlayer then Z.max else Z.min) xs x
      end
  end.

Fixpoint negamax (depth : nat) (board : Board) : Z :=
  match depth with
  | O => evaluatePosition board
  | S depth' =>
      match map (fun b => - negamax depth' b) (successors board) with
      | [] => evaluatePosition board
      | x :: xs => fold_left Z.max xs x
      end
  end.

End Reference.

(** ** The value of a position for a one-ply search

    Modelled from the spec: quiescence "stabilizes leaf evaluations"; its
    value without any window is the stand-pat score or the best negated
    value of a capture that the search tries, the static evaluation at the
    ply ceiling.  [quiesceBest] runs over the same scored capture list as
    the search loop and never stops early. *)

Section LeafValue.
Context {Board : Type} `{BoardOps Board} `{EngineConsts}.

Fixpoint quiesceBest (self : Board -> Z -> option Z) (board : Board) (ply : Z)
    (moves : list (Z * Move)) (best : Z) : option Z :=
  match moves with
  | [] => Some best
  | (_, move) :: rest =>
      match makeMove board move with
      | None => quiesceBest self board ply rest best
      | Some board' =>
          match self board' (ply + 1) with
          | Some q => quiesceBest self board ply rest (Z.max best (- q))
          | None => None
          end
      end
  end.

Fixpoint quiesceValue (fuel : nat) (board : Board) (ply : Z) : option Z :=
  match fuel with
  | O => None
  | S fuel' =>
      if MAX_PLY - 1 <=? ply then Some (evaluatePosition board)
      else
        match scoreCaptures fuel board ply
                (List.filter (isCapturingMove board) (generateLegalMoves board)) with
        | Some scored =>
            quiesceBest (quiesceValue fuel') board ply (sortScored scored)
              (evaluatePosition board)
        | None => None
        end
  end.

(** [v] is the best that the side to move can reach in one move: the
    largest negated leaf value over the legal moves that the board
    accepts. *)
Definition bestReplyValue (fuel : nat) (board : Board) (ply : Z) (v : Z) : Prop :=
  (exists move board' q,
      In move (generateLegalMoves board)
      /\ makeMove board move = Some board'
      /\ quiesceValue fuel board' (ply + 1) = Some q
      /\ v = - q)
  /\ (forall move board' q,
         In move (generateLegalMoves board) ->
         makeMove board move = Some board' ->
         quiesceValue fuel board' (ply + 1) = Some q ->
         - q <= v).

(** A search result [v] for the window (alpha, beta) against the true
    value [q]: exact inside the window, a bound on the right side of it
    outside. *)
Definition approximates (q alpha beta v : Z) : Prop :=
  (q <= alpha -> q <= v <= alpha)
  /\ (beta <= q -> beta <= v <= q)
  /\ (alpha < q < beta -> v = q).

End LeafValue.

(** A transposition table that answers no probe, as on the first search of
    a game. *)
Definition tableSilent {Board TT : Type} `{TableOps TT} (e : Engine Board TT) : Prop :=
  forall hashKey depth alpha beta,
    fst (fst (probe (transpositionTable e) hashKey depth alpha beta)) = false.

(** The two states of the loop variables in a maximizing loop whose scores
    stay inside the window: before the first move has been searched, and
    after, when [alpha] and [maxEval] are the same score. *)
Definition loopPhase (alpha0 beta : Z) (v : LoopVars) : Prop :=
  v_beta v = beta
  /\ ((v_foundPV v = false /\ v_eval v = INT_MIN /\ v_alpha v = alpha0)
      \/ (v_foundPV v = true /\ v_eval v = v_alpha v /\ alpha0 < v_alpha v < beta)).

(** *** A defended queen

    White: king (7,6), pawn (4,3).  Black: king (0,6), queen (3,4), pawn
    (2,5) behind her.  White to move takes the queen with the pawn; Black
    can then take the pawn back with (2,5)x(3,4), which leaves White the
    bare king. *)
Definition defendedQueenPieces : list (Position * Piece) :=
  [(sq 7 6, mkPiece KING WHITE); (sq 4 3, mkPiece PAWN WHITE);
   (sq 0 6, mkPiece KING BLACK); (sq 3 4, mkPiece QUEEN BLACK);
   (sq 2 5, mkPiece PAWN BLACK)].

Definition pawnTakenBack : GameNode :=
  quietNode (piecesAfter (piecesAfter defendedQueenPieces (mv 4 3 3 4)) (mv 2 5 3 4))
    WHITE [mv 7 6 7 5; mv 7 6 7 7; mv 7 6 6 5; mv 7 6 6 6; mv 7 6 6 7].

Definition defendedQueenTaken : GameNode :=
  mkNode (piecesAfter defendedQueenPieces (mv 4 3 3 4)) BLACK noPosition
    false false false
    [(mv 2 5 3 4, Some pawnTakenBack); (mv 2 5 3 5, None);
     (mv 0 6 0 5, None); (mv 0 6 0 7, None); (mv 0 6 1 5, None);
     (mv 0 6 1 6, None); (mv 0 6 1 7, None)]
    [].

Definition defendedQueen : GameNode :=
  mkNode defendedQueenPieces WHITE noPosition false false false
    [(mv 4 3 3 4, Some defendedQueenTaken); (mv 4 3 3 3, None);
     (mv 7 6 7 5, None); (mv 7 6 7 7, None); (mv 7 6 6 5, None);
     (mv 7 6 6 6, None)]
    [].

(** ** Further example data *)

(** [queenUp] with Black to move: the same pieces, the other side. *)
Definition queenUpBlackToMove : GameNode :=
  mkNode [(sq 7 4, mkPiece KING WHITE); (sq 7 3, mkPiece QUEEN WHITE);
          (sq 0 4, mkPiece KING BLACK)]
    BLACK noPosition false false false [] [].

(** ** Playable lines and lawful positions *)

(** A line of moves that can be played from [board]: each move is a legal
    move of the position it is played in, and the board accepts it. *)
Fixpoint legalLine {Board : Type} `{BoardOps Board} (board : Board) (line : list Move)
  : Prop :=
  match line with
  | [] => True
  | move :: rest =>
      In move (generateLegalMoves board)
      /\ exists board', makeMove board move = Some board' /\ legalLine board' rest
  end.

(** Every legal move starts on a square that holds a piece. *)
Definition movesFromPieces {Board : Type} `{BoardOps Board} (board : Board) : Prop :=
  forall move, In move (generateLegalMoves board) ->
               exists p, getPieceAt board (from move) = Some p.

(** [noOwnCapture] and [movesFromPieces] on a position and on every
    position reached from it by at most [n] moves that the board accepts. *)
Fixpoint lawfulDownTo {Board : Type} `{BoardOps Board} (n : nat) (board : Board) : Prop :=
  noOwnCapture board
  /\ movesFromPieces board
  /\ match n with
     | O => True
     | S n' => forall move board', makeMove board move = Some board' ->
                                   lawfulDownTo n' board'
     end.

(** The same on a written-out position, as a check. *)
Definition startsOnPiece (b : GameNode) (move : Move) : bool :=
  match nodePieceAt b (from move) with
  | Some _ => true
  | None => false
  end.

Fixpoint obeysLawDownTo (n : nat) (b : GameNode) : bool :=
  obeysRule b
  && forallb (startsOnPiece b) (map fst (legalMoves b))
  && match n with
     | O => true
     | S n' =>
         forallb (fun entry => match snd entry with
                               | Some b' => obeysLawDownTo n' b'
                               | None => true
                               end) (legalMoves b)
     end.

(** What a search call leaves alone in the engine: the game board, the
    principal variation, the per-depth lines and the depth member; the
    node counter never goes down. *)
Definition searchFrame {Board TT : Type} (e e' : Engine Board TT) : Prop :=
  gameBoard e' = gameBoard e
  /\ principalVariation e' = principalVariation e
  /\ pvTable e' = pvTable e
  /\ curDepth e' = curDepth e
  /\ nodesSearched e <= nodesSearched e'.

(** Every history score lies in [0, 10000]. *)
Definition historyBounded {Board TT : Type} (e : Engine Board TT) : Prop :=
  forall k, 0 <= histAt (historyTable e) k <= 10000.

(** ** The iterative-deepening driver *)

(** The members that [iterativeDeepeningSearch] writes at the start of
    every iteration and that engine.cpp reads nowhere. *)
Record IterationLog := mkLog {
  nodesPrevious : Z;
  previousBestMove : Move;
  previousScore : Z
}.

Section Driver.
Context {Board TT : Type} `{BoardOps Board} `{TableOps TT} `{EngineConsts}.
Local Open Scope search_scope.

Definition withPV (e : Engine Board TT) (pv : list Move) : Engine Board TT :=
  mkEngine (nodesSearched e) (transpositionTable e) (killerMoves e) (counterMoves e)
    (historyTable e) pv (pvTable e) (curDepth e) (gameBoard e).

(** Modelled from the spec: [storePV(depth, pv)], whose body is not in
    engine.cpp, "store[s] the PV indexed by depth". *)
Definition storePV (e : Engine Board TT) (depth : Z) (pv : list Move)
  : Engine Board TT :=
  mkEngine (nodesSearched e) (transpositionTable e) (killerMoves e) (counterMoves e)
    (historyTable e) (principalVariation e) (<[depth := pv]> (pvTable e)) (curDepth e)
    (gameBoard e).

(** The [for] loop of [iterativeDeepeningSearch], for the depths still to
    come; [bestMove] and [bestScore] are its two local variables.  [alpha]
    and [beta] are the names that the call of [pvSearch] reads: the
    function declares neither, so they are members of the engine that the
    search leaves alone.  The copy [previousPV] of the last line is made
    and not used, and the progress lines go to the console; neither is
    part of the model. *)
Fixpoint deepen (fuel : nat) (board : Board) (alpha beta hashKey : Z) (depths : list Z)
    (bestMove : Move) (bestScore : Z) (log : IterationLog)
  : Search Board TT (Move * IterationLog) :=
  match depths with
  | [] => ret (bestMove, log)
  | depth :: rest =>
      nodes <- gets nodesSearched ;;
      let log := mkLog nodes bestMove bestScore in
      let maximizingPlayer := color_eqb (getSideToMove board) WHITE in
      r <- pvSearch fuel board depth alpha beta maximizingPlayer hashKey 0 noMove ;;
      let score := fst r in
      let pv := snd r in
      match pv with
      | [] => deepen fuel board alpha beta hashKey rest bestMove bestScore log
      | first :: _ =>
          modify (fun e => storePV (withPV e pv) depth pv) ;;
          deepen fuel board alpha beta hashKey rest first score log
      end
  end.

(** The depths 1, 2, ..., [maxDepth] of the loop. *)
Definition depthsUpTo (maxDepth : Z) : list Z :=
  map Z.of_nat (seq 1 (Z.to_nat maxDepth)).

Definition iterativeDeepeningSearch (fuel : nat) (board : Board) (maxDepth hashKey : Z)
    (alpha beta : Z) (log : IterationLog) : Search Board TT (Move * IterationLog) :=
  modify (fun e => withPV e []) ;;
  deepen fuel board alpha beta hashKey (depthsUpTo maxDepth) noMove 0 log.

End Driver.

(** The driver's result without the engine tables: the move, the line kept
    as principal variation, the node count. *)
Definition driverSummary
    (r : option (Move * IterationLog * Engine GameNode StoreLog))
  : option (Move * list Move * Z) :=
  match r with
  | Some (move, _, e) => Some (move, principalVariation e, nodesSearched e)
  | None => None
  end.

(** ** The legacy alpha-beta routine *)

(** [playMove b move] is the copy [tempBoard] after
    [tempBoard.makeMove(move)], the one-argument call whose result
    [alphaBeta] does not look at. *)
Class LegacyBoardOps (Board : Type) := {
  playMove : Board -> Move -> Board
}.

Section Legacy.
Context {Board TT : Type} `{BoardOps Board} `{LegacyBoardOps Board} `{TableOps TT}
  `{EngineConsts}.
Local Open Scope search_scope.

(** The move loop of the maximizing branch of [alphaBeta]: every move is
    played on a copy and searched with the window as it stands; the hash
    key is updated with the board before the move.  ([v_foundPV] has no
    part in this routine.) *)
Fixpoint legacyMaxLoop (self : SearchFn) (board : Board) (depth hashKey ply : Z)
    (lastMove : Move) (moves : list (Z * Move)) (v : LoopVars)
  : Search Board TT LoopVars :=
  match moves with
  | [] => ret v
  | (_, move) :: rest =>
      let tempBoard := playMove board move in
      let newHashKey := updateHashKey hashKey move board in
      r <- self tempBoard (depth - 1) (v_alpha v) (v_beta v) false newHashKey
             (ply + 1) move ;;
      let eval := fst r in
      let childPV := snd r in
      let v :=
        if v_eval v <? eval
        then mkVars (v_alpha v) (v_beta v) eval move (move :: childPV) (v_foundPV v)
               (v_nodeType v)
        else v in
      let alpha := Z.max (v_alpha v) eval in
      let v := mkVars alpha (v_beta v) (v_eval v) (v_bestMove v) (v_pv v)
                 (v_foundPV v) (v_nodeType v) in
      if v_beta v <=? alpha then
        recordCutoff board move depth ply lastMove ;;
        ret (mkVars (v_alpha v) (v_beta v) (v_eval v) (v_bestMove v) (v_pv v)
               (v_foundPV v) BETA)
      else legacyMaxLoop self board depth hashKey ply lastMove rest v
  end.

(** The move loop of the minimizing branch of [alphaBeta]. *)
Fixpoint legacyMinLoop (self : SearchFn) (board : Board) (depth hashKey ply : Z)
    (lastMove : Move) (moves : list (Z * Move)) (v : LoopVars)
  : Search Board TT LoopVars :=
  match moves with
  | [] => ret v
  | (_, move) :: rest =>
      let tempBoard := playMove board move in
      let newHashKey := updateHashKey hashKey move board in
      r <- self tempBoard (depth - 1) (v_alpha v) (v_beta v) true newHashKey
             (ply + 1) move ;;
      let eval := fst r in
      let childPV := snd r in
      let v :=
        if eval <? v_eval v
        then mkVars (v_alpha v) (v_beta v) eval move (move :: childPV) (v_foundPV v)
               (v_nodeType v)
        else v in
      let beta := Z.min (v_beta v) eval in
      let v := mkVars (v_alpha v) beta (v_eval v) (v_bestMove v) (v_pv v)
                 (v_foundPV v) (v_nodeType v) in
      if beta <=? v_alpha v then
        recordCutoff board move depth ply lastMove ;;
        ret (mkVars (v_alpha v) (v_beta v) (v_eval v) (v_bestMove v) (v_pv v)
               (v_foundPV v) ALPHA)
      else legacyMinLoop self board depth hashKey ply lastMove rest v
  end.

(** The body of [alphaBeta]; [self] is [alphaBeta] itself.  There is no
    ply ceiling and no extension, and the quiescence search is entered at
    depth 0 exactly. *)
Definition alphaBetaNode (self : SearchFn) (fuel : nat) : SearchFn :=
  fun board depth alpha beta maximizingPlayer hashKey ply lastMove =>
  modify (fun e => withNodes e (nodesSearched e + 1)) ;;
  let originalAlpha := alpha in
  table <- gets transpositionTable ;;
  let probed := if 0 <? ply then probe table hashKey depth alpha beta
                else (false, 0, noMove) in
  let ttMove := snd probed in
  if fst (fst probed) then ret (snd (fst probed), [])
  else if depth =? 0 then
    r <- quiescenceSearch fuel board alpha beta hashKey ply ;;
    ret (r, [])
  else if isCheckmate board || isStalemate board then ret (evaluatePosition board, [])
  else
    let legalMoves := generateLegalMoves board in
    match legalMoves with
    | [] =>
        if isInCheck board
        then ret (if maximizingPlayer then -100000 + ply else 100000 - ply, [])
        else ret (0, [])
    | firstMove :: _ =>
        e <- gets (fun e => e) ;;
        scoredMoves <-
          liftOption (scoreMoves fuel e board depth ttMove ply lastMove legalMoves) ;;
        let scoredMoves := sortScored scoredMoves in
        let start := mkVars alpha beta
                       (if maximizingPlayer then INT_MIN else INT_MAX)
                       firstMove [] false ALPHA in
        v <- (if maximizingPlayer
              then legacyMaxLoop self board depth hashKey ply lastMove scoredMoves start
              else legacyMinLoop self board depth hashKey ply lastMove scoredMoves
                     start) ;;
        storeResult hashKey depth originalAlpha v
    end.

Fixpoint alphaBeta (fuel : nat) : SearchFn :=
  match fuel with
  | O => fun _ _ _ _ _ _ _ _ _ => None
  | S fuel' => alphaBetaNode (alphaBeta fuel') fuel
  end.

(** *** [alphaBeta] without its window

    The recursion of [alphaBeta] itself (engine.cpp 989-1190) with the
    window, the cutoffs and the tables taken out: the same leaf (the
    quiescence value of the position, not negated), the same terminal
    scores, the same copy of the board, the same flag passed on toggled,
    and the largest or the smallest child value over every move that the
    scoring loop keeps.  It is the yardstick for the pruning of the
    routine, and not the minimax value of the position for White: the leaf
    value is the mover's and no level negates it, so on [fiveMoves] at
    depth 1 it is -100 where [minimax] gives 125.  [keptMoves] are the
    legal moves that the scoring loop does not drop; [bestOf] runs over
    them without stopping early. *)

Fixpoint keptMoves (fuel : nat) (board : Board) (depth : Z) (moves : list Move)
  : option (list Move) :=
  match moves with
  | [] => Some []
  | move :: rest =>
      let dropped : option bool :=
        if 3 <=? depth then
          match getPieceAt board (to move) with
          | Some _ =>
              match seeCapture fuel board move with
              | Some seeScore => Some (seeScore <? - PAWN_VALUE * 2)
              | None => None
              end
          | None => Some false
          end
        else Some false in
      match dropped, keptMoves fuel board depth rest with
      | Some true, Some l => Some l
      | Some false, Some l => Some (move :: l)
      | _, _ => None
      end
  end.

Fixpoint bestOf (pick : Z -> Z -> Z) (value : Move -> option Z) (moves : list Move)
    (best : Z) : option Z :=
  match moves with
  | [] => Some best
  | move :: rest =>
      match value move with
      | Some c => bestOf pick value rest (pick best c)
      | None => None
      end
  end.

Fixpoint alphaBetaUnpruned (fuel : nat) (depth : nat) (board : Board) (maximizingPlayer : bool)
    (ply : Z) : option Z :=
  match fuel with
  | O => None
  | S fuel' =>
      match depth with
      | O => quiesceValue fuel board ply
      | S depth' =>
          if isCheckmate board || isStalemate board then Some (evaluatePosition board)
          else
            match generateLegalMoves board with
            | [] =>
                Some (if isInCheck board
                      then (if maximizingPlayer then -100000 + ply else 100000 - ply)
                      else 0)
            | legalMoves =>
                match keptMoves fuel board (Z.of_nat depth) legalMoves with
                | None => None
                | Some moves =>
                    bestOf (if maximizingPlayer then Z.max else Z.min)
                      (fun move => alphaBetaUnpruned fuel' depth' (playMove board move)
                                     (negb maximizingPlayer) (ply + 1))
                      moves
                      (if maximizingPlayer then INT_MIN else INT_MAX)
                end
            end
      end
  end.

End Legacy.

(** On a written-out position the copy is the position after the move, and
    the position itself when the board refuses the move. *)
#[export] Instance GameNodeLegacy : LegacyBoardOps GameNode := {
  playMove := fun b move => default b (nodeMakeMove b move)
}.

(** The positions that [alphaBeta] visits from [board] within [depth]
    moves: each obeys [noOwnCapture] and has its legal moves start on
    occupied squares, and so does every position that the quiescence
    search reaches from it ([lawfulDownTo]). *)
Fixpoint legacyLawful {Board : Type} `{BoardOps Board} `{LegacyBoardOps Board}
    (reach depth : nat) (board : Board) : Prop :=
  lawfulDownTo reach board
  /\ match depth with
     | O => True
     | S depth' =>
         forall move, In move (generateLegalMoves board) ->
                      legacyLawful reach depth' (playMove board move)
     end.

(** The same on a written-out position, as a check. *)
Fixpoint obeysLegacyLaw (reach depth : nat) (b : GameNode) : bool :=
  obeysLawDownTo reach b
  && match depth with
     | O => true
     | S depth' =>
         forallb (fun move => obeysLegacyLaw reach depth' (playMove b move))
           (map fst (legalMoves b))
     end.

(* ===================================================================== *)
(** * Theorems *)
(* ===================================================================== *)

(** ** History table *)

Lemma histAt_halveHistory (h : gmap (Z * Z * Z) Z) (k : Z * Z * Z) :
  histAt (halveHistory h) k = Z.quot (histAt h k) 2.
Proof.
  unfold histAt, halveHistory.
  rewrite lookup_fmap.
  destruct (h !! k) as [v|]; reflexivity.
Qed.

Lemma updateHistoryTable_triggered (h : gmap (Z * Z * Z) Z) move depth color :
  10000 < histAt (bumpHistory h move depth color) (historyKey move color) ->
  updateHistoryTable h move depth color
  = halveHistory (bumpHistory h move depth color).
Proof.
  intros Hgt. unfold updateHistoryTable.
  destruct (Z.ltb_spec 10000 (histAt (bumpHistory h move depth color)
                                (historyKey move color))) as [_|Hle].
  - reflexivity.
  - lia.
Qed.

Lemma quot2_monotone (a b : Z) : b <= a -> Z.quot b 2 <= Z.quot a 2.
Proof. intros Hle. apply Z.quot_le_mono; lia. Qed.

Lemma quot2_strict (a b : Z) : 0 <= b -> b + 2 <= a -> Z.quot b 2 < Z.quot a 2.
Proof.
  intros Hb Hab.
  rewrite !Z.quot_div_nonneg by lia.
  pose proof (Z.div_mod a 2 ltac:(lia)) as Ha.
  pose proof (Z.div_mod b 2 ltac:(lia)) as Hb'.
  pose proof (Z.mod_pos_bound a 2 ltac:(lia)).
  pose proof (Z.mod_pos_bound b 2 ltac:(lia)).
  lia.
Qed.

(** C8, as the code has it: when the increment of a cell pushes it above
    10000 and the table is halved, two cells that were in strict order just
    before the halving are never swapped (the larger one is at least the
    smaller one afterwards), and the order stays strict whenever the
    smaller one is not negative and the larger one exceeded it by 2 or
    more. *)
Theorem halving_keeps_order (h : gmap (Z * Z * Z) Z) (move : Move) (depth : Z)
    (color : Color) (k1 k2 : Z * Z * Z) :
  10000 < histAt (bumpHistory h move depth color) (historyKey move color) ->
  histAt (bumpHistory h move depth color) k2
    < histAt (bumpHistory h move depth color) k1 ->
  histAt (updateHistoryTable h move depth color) k2
    <= histAt (updateHistoryTable h move depth color) k1
  /\ (0 <= histAt (bumpHistory h move depth color) k2 ->
      histAt (bumpHistory h move depth color) k2 + 2
        <= histAt (bumpHistory h move depth color) k1 ->
      histAt (updateHistoryTable h move depth color) k2
        < histAt (updateHistoryTable h move depth color) k1).
Proof.
  intros Htrig Hlt.
  rewrite (updateHistoryTable_triggered _ _ _ _ Htrig), !histAt_halveHistory.
  split.
  - apply quot2_monotone. lia.
  - intros Hnonneg Hgap. now apply quot2_strict.
Qed.

Lemma halving_keeps_order_witness :
  histAt (updateHistoryTable spreadHistory (mv 0 1 0 2) 1 WHITE) (0, 9, 17)
    <= histAt (updateHistoryTable spreadHistory (mv 0 1 0 2) 1 WHITE) (0, 8, 16)
  /\ (0 <= histAt (bumpHistory spreadHistory (mv 0 1 0 2) 1 WHITE) (0, 9, 17) ->
      histAt (bumpHistory spreadHistory (mv 0 1 0 2) 1 WHITE) (0, 9, 17) + 2
        <= histAt (bumpHistory spreadHistory (mv 0 1 0 2) 1 WHITE) (0, 8, 16) ->
      histAt (updateHistoryTable spreadHistory (mv 0 1 0 2) 1 WHITE) (0, 9, 17)
        < histAt (updateHistoryTable spreadHistory (mv 0 1 0 2) 1 WHITE) (0, 8, 16)).
Proof.
  apply (halving_keeps_order spreadHistory (mv 0 1 0 2) 1 WHITE (0, 8, 16) (0, 9, 17)).
  - vm_compute. reflexivity.
  - vm_compute. reflexivity.
Defined.

(** C8 as stated fails: on [crowdedHistory] the cutoff move (0,1)->(0,2)
    at depth 1 raises its cell to 10001 and triggers the halving; the cells
    3 and 2 are distinct, nonzero and in strict order just before the
    halving, and both hold 1 after it. *)
Lemma halving_collapses_neighbours :
  histAt (bumpHistory crowdedHistory (mv 0 1 0 2) 1 WHITE)
    (historyKey (mv 0 1 0 2) WHITE) = 10001
  /\ histAt (bumpHistory crowdedHistory (mv 0 1 0 2) 1 WHITE) (0, 8, 16) = 3
  /\ histAt (bumpHistory crowdedHistory (mv 0 1 0 2) 1 WHITE) (0, 9, 17) = 2
  /\ histAt (updateHistoryTable crowdedHistory (mv 0 1 0 2) 1 WHITE) (0, 8, 16) = 1
  /\ histAt (updateHistoryTable crowdedHistory (mv 0 1 0 2) 1 WHITE) (0, 9, 17) = 1
  /\ ~ (histAt (updateHistoryTable crowdedHistory (mv 0 1 0 2) 1 WHITE) (0, 9, 17)
        < histAt (updateHistoryTable crowdedHistory (mv 0 1 0 2) 1 WHITE) (0, 8, 16)).
Proof.
  repeat split; try (vm_compute; reflexivity).
  vm_compute. discriminate.
Qed.

(** ** Static evaluation and the colour-flipped mirror *)

Section MirrorFacts.
Context {Board : Type} `{BoardOps Board} `{EngineConsts}.

(** A loop whose iterations commute gives the same result on every
    rearrangement of the list it scans. *)
Lemma fold_left_rearranged {A B : Type} (f : A -> B -> A) :
  (forall a x y, f (f a x) y = f (f a y) x) ->
  forall l l', Permutation l l' -> forall a, fold_left f l a = fold_left f l' a.
Proof.
  intros Hcomm l l' Hperm.
  induction Hperm as [|x l l' _ IH|x y l|l l' l'' _ IH1 _ IH2]; intros a; simpl.
  - reflexivity.
  - apply IH.
  - now rewrite Hcomm.
  - now rewrite IH1.
Qed.

Lemma mirrored_squares : Permutation (map mirrorSquare allSquares) allSquares.
Proof.
  change (map mirrorSquare allSquares)
    with (flat_map (fun r => map (fun c => mkPos r c) range8) (rev range8)).
  unfold allSquares.
  apply Permutation_flat_map, Permutation_sym, Permutation_rev.
Qed.

Lemma evalStep_commutes (phase : bool) (board : Board) acc p q :
  evalStep phase board (evalStep phase board acc p) q
  = evalStep phase board (evalStep phase board acc q) p.
Proof.
  destruct acc as [w k]. unfold evalStep.
  destruct (getPieceAt board p) as [[tp [|]]|], (getPieceAt board q) as [[tq [|]]|];
    simpl; f_equal; lia.
Qed.

Lemma endgameStep_commutes (board : Board) acc p q :
  endgameStep board (endgameStep board acc p) q
  = endgameStep board (endgameStep board acc q) p.
Proof.
  destruct acc as [[n wq] bq]. unfold endgameStep.
  destruct (getPieceAt board p) as [[[] []]|], (getPieceAt board q) as [[[] []]|];
    simpl; repeat f_equal; lia.
Qed.

Lemma swapPair_involutive acc : swapPair (swapPair acc) = acc.
Proof. now destruct acc. Qed.

Lemma swapFlags_involutive acc : swapFlags (swapFlags acc) = acc.
Proof. now destruct acc as [[n wq] bq]. Qed.

Lemma evalStep_flipped (phase : bool) (b b' : Board) acc pos :
  colorFlipped b b' ->
  evalStep phase b' acc pos
  = swapPair (evalStep phase b (swapPair acc) (mirrorSquare pos)).
Proof.
  intros [Hpieces _]. destruct acc as [w k].
  unfold evalStep, swapPair. rewrite Hpieces. simpl.
  destruct (getPieceAt b (mirrorSquare pos)) as [[t [|]]|]; simpl; try reflexivity.
  (* a black piece of [b] is white in the mirror: its index is mirrored twice *)
  replace ((7 - (7 - row pos)) * 8 + col pos) with (row pos * 8 + col pos) by lia.
  reflexivity.
Qed.

Lemma endgameStep_flipped (b b' : Board) acc pos :
  colorFlipped b b' ->
  endgameStep b' acc pos
  = swapFlags (endgameStep b (swapFlags acc) (mirrorSquare pos)).
Proof.
  intros [Hpieces _]. destruct acc as [[n wq] bq].
  unfold endgameStep, swapFlags. rewrite Hpieces. simpl.
  destruct (getPieceAt b (mirrorSquare pos)) as [[[] []]|]; reflexivity.
Qed.

Lemma evalFold_flipped (phase : bool) (b b' : Board) :
  colorFlipped b b' ->
  forall l acc,
    fold_left (evalStep phase b') l acc
    = swapPair (fold_left (evalStep phase b) (map mirrorSquare l) (swapPair acc)).
Proof.
  intros Hflip l. induction l as [|pos l IH]; intros acc; simpl.
  - now destruct acc.
  - rewrite IH, (evalStep_flipped phase b b' acc pos Hflip).
    now rewrite swapPair_involutive.
Qed.

Lemma endgameFold_flipped (b b' : Board) :
  colorFlipped b b' ->
  forall l acc,
    fold_left (endgameStep b') l acc
    = swapFlags (fold_left (endgameStep b) (map mirrorSquare l) (swapFlags acc)).
Proof.
  intros Hflip l. induction l as [|pos l IH]; intros acc; simpl.
  - now destruct acc as [[n wq] bq].
  - rewrite IH, (endgameStep_flipped b b' acc pos Hflip).
    now rewrite swapFlags_involutive.
Qed.

Lemma isEndgame_flipped (b b' : Board) :
  colorFlipped b b' -> isEndgame b' = isEndgame b.
Proof.
  intros Hflip. unfold isEndgame.
  rewrite (endgameFold_flipped b b' Hflip).
  rewrite (fold_left_rearranged _ (endgameStep_commutes b) _ _ mirrored_squares).
  change (swapFlags (0, false, false)) with (0, false, false).
  destruct (fold_left (endgameStep b) allSquares (0, false, false)) as [[n wq] bq].
  simpl. now rewrite (andb_comm (negb bq)).
Qed.

(** The white and black totals change places in the mirror. *)
Lemma totals_flipped (b b' : Board) :
  colorFlipped b b' ->
  fold_left (evalStep (isEndgame b') b') allSquares (0, 0)
  = swapPair (fold_left (evalStep (isEndgame b) b) allSquares (0, 0)).
Proof.
  intros Hflip.
  rewrite (isEndgame_flipped b b' Hflip), (evalFold_flipped _ b b' Hflip).
  now rewrite (fold_left_rearranged _ (evalStep_commutes _ b) _ _ mirrored_squares).
Qed.

(** C9, as the code has it: the evaluation is relative to the side to
    move, and the mirror swaps that side too, so a position that is not a
    checkmate and its colour-flipped mirror get the same score (it is the
    white-minus-black balance that changes sign). *)
Theorem evaluatePosition_flipped (b b' : Board) :
  colorFlipped b b' ->
  isCheckmate b = false ->
  evaluatePosition b' = evaluatePosition b.
Proof.
  intros Hflip Hnomate.
  pose proof (totals_flipped b b' Hflip) as Htotals.
  destruct Hflip as (_ & Hside & Hmate & Hstale).
  unfold evaluatePosition.
  rewrite Htotals, Hmate, Hstale, Hside, Hnomate.
  destruct (fold_left (evalStep (isEndgame b) b) allSquares (0, 0)) as [w k].
  simpl.
  destruct (isStalemate b); [reflexivity|].
  destruct (getSideToMove b); simpl; lia.
Qed.

(** On a checkmate the evaluator answers with the fixed scores -100000 and
    100000, which do change sign in the mirror. *)
Lemma evaluatePosition_flipped_mate (b b' : Board) :
  colorFlipped b b' ->
  isCheckmate b = true ->
  evaluatePosition b' = - evaluatePosition b.
Proof.
  intros (_ & Hside & Hmate & _) Hismate.
  unfold evaluatePosition.
  rewrite Hmate, Hside, Hismate.
  destruct (fold_left (evalStep (isEndgame b') b') allSquares (0, 0)) as [w' k'].
  destruct (fold_left (evalStep (isEndgame b) b) allSquares (0, 0)) as [w k].
  now destruct (getSideToMove b).
Qed.

End MirrorFacts.

Lemma queenUp_flipped : colorFlipped queenUp queenUpFlipped.
Proof.
  repeat split.
  intros [r c].
  cbv [getPieceAt GameNodeOps nodePieceAt mirrorSquare pos_eqb find pieces
       queenUp queenUpFlipped fst snd row col sq].
  repeat match goal with
         | |- context [Z.eqb ?x ?y] => destruct (Z.eqb_spec x y)
         end; simpl; try reflexivity; lia.
Qed.

Lemma evaluatePosition_flipped_witness :
  evaluatePosition queenUpFlipped = evaluatePosition queenUp.
Proof.
  apply (evaluatePosition_flipped queenUp queenUpFlipped).
  - exact queenUp_flipped.
  - reflexivity.
Defined.

(** C9 as stated fails: [queenUp] scores 895 for White to move (the queen,
    900, and -5 for her square), and its mirror scores 895 again for Black
    to move, not -895. *)
Lemma mirror_score_not_negated :
  colorFlipped queenUp queenUpFlipped
  /\ evaluatePosition queenUp = 895
  /\ evaluatePosition queenUpFlipped = 895
  /\ evaluatePosition queenUpFlipped <> - evaluatePosition queenUp.
Proof.
  split; [exact queenUp_flipped|].
  split; [vm_compute; reflexivity|].
  split; [vm_compute; reflexivity|].
  vm_compute. discriminate.
Qed.

(** ** Static exchange evaluation: when the recursion ends *)

Lemma pos_eqb_eq (p q : Position) : pos_eqb p q = true -> p = q.
Proof.
  destruct p as [r c], q as [r' c']. unfold pos_eqb. simpl.
  intros Heq. apply andb_prop in Heq as [Hr Hc].
  apply Z.eqb_eq in Hr, Hc. now subst.
Qed.

Lemma fold_left_unchanged {A B : Type} (f : A -> B -> A) (l : list B) (a : A) :
  (forall x, f a x = a) -> fold_left f l a = a.
Proof.
  intros Hsame. induction l as [|x l IH]; simpl.
  - reflexivity.
  - now rewrite Hsame.
Qed.

Lemma color_eqb_false_opposite (c d : Color) :
  color_eqb c (opposite d) = false -> c = d.
Proof. destruct c, d; simpl; intros Hne; try reflexivity; discriminate. Qed.

Section ExchangeFacts.
Context {Board : Type} `{BoardOps Board} `{EngineConsts}.

Lemma see_step (board : Board) square side captureValue fuel :
  see (S fuel) board square side captureValue
  = let '(_, leastValue, leastType) := leastAttacker board square side in
    if isNoneType leastType then Some 0
    else match see fuel board square (opposite side) leastValue with
         | Some r => Some (Z.max 0 (captureValue - r))
         | None => None
         end.
Proof. reflexivity. Qed.

(** A square held by a piece has no attacker of that piece's colour. *)
Lemma attackerStep_own_colour (board : Board) square q acc pos :
  noOwnCapture board ->
  getPieceAt board square = Some q ->
  attackerStep board square (opposite (getColor q)) acc pos = acc.
Proof.
  intros Hrule Hocc. unfold attackerStep.
  destruct acc as [[lva lvaValue] lvaType].
  destruct (getPieceAt board pos) as [p|] eqn:Hp; [|reflexivity].
  destruct (color_eqb (getColor p) (opposite (getColor q))) eqn:Hcol; [reflexivity|].
  destruct (existsb (fun move => pos_eqb (to move) square) (getLegalMoves board pos))
    eqn:Hatt; [|reflexivity].
  exfalso.
  apply existsb_exists in Hatt as (m & Hin & Hto).
  apply pos_eqb_eq in Hto. subst square.
  apply (Hrule pos p m q Hp Hin Hocc).
  symmetry. now apply color_eqb_false_opposite.
Qed.

Lemma leastAttacker_own_colour (board : Board) square q :
  noOwnCapture board ->
  getPieceAt board square = Some q ->
  leastAttacker board square (opposite (getColor q)) = (noPosition, 100000, NONE).
Proof.
  intros Hrule Hocc. unfold leastAttacker.
  apply fold_left_unchanged. intros pos.
  now apply attackerStep_own_colour.
Qed.

(** The level that looks for an attacker of the occupant's own colour
    finds none and returns 0. *)
Lemma see_own_colour (board : Board) square q fuel captureValue :
  noOwnCapture board ->
  getPieceAt board square = Some q ->
  see (S fuel) board square (opposite (getColor q)) captureValue = Some 0.
Proof.
  intros Hrule Hocc. rewrite see_step.
  now rewrite (leastAttacker_own_colour board square q Hrule Hocc).
Qed.

Lemma see_occupied (board : Board) square q fuel side captureValue :
  noOwnCapture board ->
  getPieceAt board square = Some q ->
  exists r, see (S (S fuel)) board square side captureValue = Some r /\ 0 <= r.
Proof.
  intros Hrule Hocc.
  destruct (color_eqb side (opposite (getColor q))) eqn:Hside.
  - assert (side = opposite (getColor q)) as ->
      by (destruct side, (getColor q); simpl in *; congruence).
    exists 0. split; [now apply see_own_colour|lia].
  - apply color_eqb_false_opposite in Hside. subst side.
    rewrite see_step.
    destruct (leastAttacker board square (getColor q)) as [[lva lvaValue] lvaType].
    destruct (isNoneType lvaType).
    + exists 0. split; [reflexivity|lia].
    + rewrite (see_own_colour board square q fuel lvaValue Hrule Hocc).
      eexists. split; [reflexivity|lia].
Qed.

Lemma seeCapture_returns (board : Board) fuel move :
  noOwnCapture board ->
  exists r, seeCapture (S (S fuel)) board move = Some r.
Proof.
  intros Hrule. unfold seeCapture.
  destruct (getPieceAt board (to move)) as [victim|] eqn:Hvictim; [|now exists 0].
  destruct (getPieceAt board (from move)) as [mover|]; [|now exists 0].
  destruct (see_occupied board (to move) victim fuel (getColor mover)
              (getPieceValue (getType mover)) Hrule Hvictim) as (r & -> & _).
  now eexists.
Qed.

(** C4, as the code has it: on a board whose move lists obey the chess
    rule [noOwnCapture], [see] on an occupied target square returns within
    two nested calls, the last of which finds no attacker and returns 0; so
    [seeCapture] returns a value for every move.  The board is an input
    only: both functions return a number and nothing else. *)
Theorem see_returns_on_occupied_square (board : Board) (fuel : nat) :
  noOwnCapture board ->
  (2 <= fuel)%nat ->
  (forall square side captureValue q,
      getPieceAt board square = Some q ->
      exists r, see fuel board square side captureValue = Some r /\ 0 <= r)
  /\ (forall move, exists r, seeCapture fuel board move = Some r).
Proof.
  intros Hrule Hfuel.
  destruct fuel as [|[|fuel]]; try lia.
  split.
  - intros square side captureValue q Hocc. now apply (see_occupied board square q).
  - intros move. now apply seeCapture_returns.
Qed.


End ExchangeFacts.

Lemma obeysRule_sound (b : GameNode) : obeysRule b = true -> noOwnCapture b.
Proof.
  unfold obeysRule. intros Hcheck. apply andb_prop in Hcheck as [Hlists Hlegal].
  rewrite forallb_forall in Hlists, Hlegal.
  assert (Hok : forall pos p m q,
             landsOnOther b pos m = true ->
             getPieceAt b pos = Some p -> getPieceAt b (to m) = Some q ->
             getColor q <> getColor p).
  { intros pos p m q Hlands Hp Hq. unfold landsOnOther in Hlands.
    simpl in Hp, Hq. rewrite Hp, Hq in Hlands.
    destruct (getColor q), (getColor p); simpl in Hlands; congruence. }
  intros pos p m q Hp Hin Hq.
  apply (Hok pos p m q); try assumption.
  simpl in Hin. unfold nodePieceMoves in Hin.
  destruct (find (fun entry => pos_eqb (fst entry) pos) (pieceMoves b))
    as [entry|] eqn:Hfind.
  - apply find_some in Hfind as [Hentry Hpos].
    apply pos_eqb_eq in Hpos. subst pos.
    specialize (Hlists entry Hentry). rewrite forallb_forall in Hlists.
    now apply Hlists.
  - apply filter_In in Hin as [Hlisted Hpos].
    apply pos_eqb_eq in Hpos. subst pos.
    now apply Hlegal.
Qed.

Lemma hangingQueen_rule : noOwnCapture hangingQueen.
Proof. apply obeysRule_sound. vm_compute. reflexivity. Qed.

Lemma see_returns_on_occupied_square_witness :
  (forall square side captureValue q,
      getPieceAt hangingQueen square = Some q ->
      exists r, see 2 hangingQueen square side captureValue = Some r /\ 0 <= r)
  /\ (forall move, exists r, seeCapture 2 hangingQueen move = Some r).
Proof.
  apply (see_returns_on_occupied_square hangingQueen 2).
  - exact hangingQueen_rule.
  - lia.
Defined.

Lemma see_contested_square_loops :
  forall fuel side captureValue,
    see fuel contestedFile (sq 4 3) side captureValue = None.
Proof.
  assert (HW : leastAttacker contestedFile (sq 4 3) WHITE = (sq 0 3, 500, ROOK))
    by (vm_compute; reflexivity).
  assert (HB : leastAttacker contestedFile (sq 4 3) BLACK = (sq 7 3, 500, ROOK))
    by (vm_compute; reflexivity).
  induction fuel as [|fuel IH]; intros side captureValue; [reflexivity|].
  rewrite see_step. destruct side; rewrite ?HW, ?HB; cbn [isNoneType opposite];
    now rewrite IH.
Qed.

Lemma contestedFile_rule : noOwnCapture contestedFile.
Proof. apply obeysRule_sound. vm_compute. reflexivity. Qed.

(** C4 as stated fails: [contestedFile] obeys the chess rule, both rooks
    can move to the empty square (4,3), each level of [see] finds the other
    side's rook as the least valuable attacker, and no amount of fuel lets
    the recursion return a value. *)
Lemma see_contested_square_never_returns :
  noOwnCapture contestedFile
  /\ leastAttacker contestedFile (sq 4 3) WHITE = (sq 0 3, 500, ROOK)
  /\ leastAttacker contestedFile (sq 4 3) BLACK = (sq 7 3, 500, ROOK)
  /\ ~ (exists fuel side captureValue r,
          see fuel contestedFile (sq 4 3) side captureValue = Some r).
Proof.
  split; [exact contestedFile_rule|].
  split; [vm_compute; reflexivity|].
  split; [vm_compute; reflexivity|].
  intros (fuel & side & captureValue & r & Hrun).
  rewrite see_contested_square_loops in Hrun. discriminate.
Qed.

(** ** Move scorer: the capture bands *)

Section ScorerFacts.
Context {Board TT : Type} `{BoardOps Board} `{TableOps TT} `{EngineConsts}.

(** The test of the code is [seeScore > 0]: a capture that is neither the
    table move nor a PV move scores 4,000,000 plus the exchange value when
    that value is strictly positive, and 3,000,000 plus the MVV-LVA entry
    when it is zero or negative. *)
Lemma capture_bands (fuel : nat) (e : Engine Board TT) (move : Move)
    (board : Board) (ttMove : Move) (pv : list Move) (ply : Z) (sideToMove : Color)
    (lastMove : Move) (victim attacker : Piece) (seeScore : Z) :
  matchesTTMove ttMove move = false ->
  pvBand e move ply (Z.to_nat (curDepth e)) = None ->
  getPieceAt board (to move) = Some victim ->
  getPieceAt board (from move) = Some attacker ->
  seeCapture fuel board move = Some seeScore ->
  (0 < seeScore ->
   getMoveScore fuel e move board ttMove pv ply sideToMove lastMove
   = Some (4000000 + seeScore))
  /\ (seeScore <= 0 ->
      getMoveScore fuel e move board ttMove pv ply sideToMove lastMove
      = Some (3000000 + getMVVLVAScore (getType attacker) (getType victim))).
Proof.
  intros Htt Hpv Hvictim Hattacker Hsee.
  unfold getMoveScore. rewrite Htt, Hpv, Hvictim, Hattacker, Hsee.
  split; intros Hsign.
  - destruct (Z.ltb_spec 0 seeScore); [reflexivity|lia].
  - destruct (Z.ltb_spec 0 seeScore); [lia|reflexivity].
Qed.


End ScorerFacts.

Lemma capture_bands_witness :
  (0 < 900 ->
   getMoveScore 2 (freshEngine hangingQueen) (mv 4 3 3 4) hangingQueen noMove []
     0 WHITE noMove
   = Some (4000000 + 900))
  /\ (900 <= 0 ->
      getMoveScore 2 (freshEngine hangingQueen) (mv 4 3 3 4) hangingQueen noMove []
        0 WHITE noMove
      = Some (3000000 + getMVVLVAScore (getType (mkPiece PAWN WHITE))
                          (getType (mkPiece QUEEN BLACK)))).
Proof.
  apply (capture_bands 2 (freshEngine hangingQueen) (mv 4 3 3 4) hangingQueen noMove
           [] 0 WHITE noMove (mkPiece QUEEN BLACK) (mkPiece PAWN WHITE) 900);
    reflexivity.
Defined.


(** ** Quiescence search: the window and the node count *)

Section QuiescenceFacts.
Context {Board TT : Type} `{BoardOps Board} `{TableOps TT} `{EngineConsts}.

(** The search loop returns [beta] on a cutoff and otherwise the running
    [alpha], which only grows and stays below [beta]. *)
Lemma quiescenceLoop_within_window self (board : Board) beta hashKey ply moves :
  forall alpha (e : Engine Board TT) v e',
    alpha <= beta ->
    quiescenceLoop self board beta hashKey ply moves alpha e = Some (v, e') ->
    alpha <= v <= beta.
Proof.
  induction moves as [|[s move] rest IH]; intros alpha e v e' Hwin Hrun; simpl in Hrun.
  - injection Hrun as <- _. lia.
  - destruct (makeMove board move) as [board'|].
    + unfold bind in Hrun.
      destruct (self board' (- beta) (- alpha) (updateHashKey hashKey move board')
                  (ply + 1) e) as [[r e1]|]; [|discriminate].
      destruct (Z.leb_spec beta (- r)).
      * injection Hrun as <- _. lia.
      * apply IH in Hrun; destruct (Z.ltb_spec alpha (- r)); lia.
    + now apply IH in Hrun.
Qed.

Lemma quiescenceSearch_step fuel (board : Board) alpha beta hashKey ply
    (e : Engine Board TT) :
  quiescenceSearch (S fuel) board alpha beta hashKey ply e
  = let e1 := withNodes e (nodesSearched e + 1) in
    if MAX_PLY - 1 <=? ply then Some (evaluatePosition board, e1)
    else
      let standPat := evaluatePosition board in
      if beta <=? standPat then Some (beta, e1)
      else
        match scoreCaptures (S fuel) board ply
                (List.filter (isCapturingMove board) (generateLegalMoves board)) with
        | Some scoredMoves =>
            quiescenceLoop (quiescenceSearch fuel) board beta hashKey ply
              (sortScored scoredMoves) (if alpha <? standPat then standPat else alpha) e1
        | None => None
        end.
Proof.
  cbn [quiescenceSearch]. unfold bind, modify, ret, liftOption.
  destruct (MAX_PLY - 1 <=? ply); [reflexivity|].
  destruct (beta <=? evaluatePosition board); [reflexivity|].
  cbv zeta.
  now destruct (scoreCaptures (S fuel) board ply _).
Qed.

Lemma quiescence_value_in_window fuel (board : Board) alpha beta hashKey ply
    (e : Engine Board TT) v e' :
  ply < MAX_PLY - 1 ->
  alpha < beta ->
  quiescenceSearch fuel board alpha beta hashKey ply e = Some (v, e') ->
  alpha <= v <= beta.
Proof.
  intros Hply Hwin Hrun.
  destruct fuel as [|fuel]; [discriminate|].
  rewrite quiescenceSearch_step in Hrun. cbv zeta in Hrun.
  destruct (Z.leb_spec (MAX_PLY - 1) ply); [lia|].
  destruct (Z.leb_spec beta (evaluatePosition board)).
  - injection Hrun as <- _. lia.
  - destruct (scoreCaptures (S fuel) board ply _) as [scored|]; [|discriminate].
    apply quiescenceLoop_within_window in Hrun;
      destruct (Z.ltb_spec alpha (evaluatePosition board)); lia.
Qed.

(** *** The search returns *)

Lemma scoreCaptures_returns fuel (board : Board) ply moves :
  noOwnCapture board ->
  (2 <= fuel)%nat ->
  exists scored, scoreCaptures fuel board ply moves = Some scored.
Proof.
  intros Hrule Hfuel.
  induction moves as [|move rest [scored IH]]; simpl.
  - now eexists.
  - rewrite IH.
    destruct (getPieceAt board (to move)) as [victim|].
    + destruct fuel as [|[|fuel]]; try lia.
      destruct (seeCapture_returns board fuel move Hrule) as [r ->].
      destruct (r <? 0); [destruct ((2 <? ply) && negb (isInCheck board))|];
        now eexists.
    + destruct (isEnPassant board move); now eexists.
Qed.

Lemma quiescenceLoop_returns self (board : Board) beta hashKey ply moves :
  (forall move board' a b h (e : Engine Board TT),
      makeMove board move = Some board' ->
      exists r e', self board' a b h (ply + 1) e = Some (r, e')) ->
  forall alpha e, exists v e',
    quiescenceLoop self board beta hashKey ply moves alpha e = Some (v, e').
Proof.
  intros Hself.
  induction moves as [|[s move] rest IH]; intros alpha e; simpl.
  - unfold ret. now do 2 eexists.
  - destruct (makeMove board move) as [board'|] eqn:Hmade; [|apply IH].
    unfold bind.
    destruct (Hself move board' (- beta) (- alpha)
                (updateHashKey hashKey move board') e Hmade)
      as (r & e1 & ->).
    destruct (beta <=? - r); [unfold ret; now do 2 eexists|apply IH].
Qed.

Lemma quiescenceSearch_returns fuel :
  forall (board : Board) alpha beta hashKey ply (e : Engine Board TT),
    ruleDownTo fuel board ->
    (Z.to_nat (MAX_PLY - 1 - ply) + 1 <= fuel)%nat ->
    exists v e', quiescenceSearch fuel board alpha beta hashKey ply e = Some (v, e').
Proof.
  induction fuel as [|fuel IH]; intros board alpha beta hashKey ply e Hrule Hfuel;
    [lia|].
  rewrite quiescenceSearch_step. cbv zeta.
  destruct (Z.leb_spec (MAX_PLY - 1) ply); [now do 2 eexists|].
  destruct (beta <=? evaluatePosition board); [now do 2 eexists|].
  destruct Hrule as [Hhere Hbelow].
  destruct (scoreCaptures_returns (S fuel) board ply
              (List.filter (isCapturingMove board) (generateLegalMoves board)) Hhere)
    as [scored ->]; [lia|].
  apply quiescenceLoop_returns.
  intros move board' a b h e1 Hmade.
  apply IH; [now apply (Hbelow move)|lia].
Qed.

(** C10, as the code has it: below the ply ceiling a quiescence call with
    [alpha < beta] returns a value between [alpha] and [beta]; and it does
    return, on boards that obey [noOwnCapture], once the fuel covers the
    plies left below the ceiling. *)
Theorem quiescence_within_window fuel (board : Board) alpha beta hashKey ply
    (e : Engine Board TT) :
  ply < MAX_PLY - 1 ->
  alpha < beta ->
  (forall v e',
      quiescenceSearch fuel board alpha beta hashKey ply e = Some (v, e') ->
      alpha <= v <= beta)
  /\ (ruleDownTo fuel board ->
      (Z.to_nat (MAX_PLY - 1 - ply) + 1 <= fuel)%nat ->
      exists v e',
        quiescenceSearch fuel board alpha beta hashKey ply e = Some (v, e')
        /\ alpha <= v <= beta).
Proof.
  intros Hply Hwin. split.
  - intros v e'. now apply quiescence_value_in_window.
  - intros Hrule Hfuel.
    destruct (quiescenceSearch_returns fuel board alpha beta hashKey ply e Hrule Hfuel)
      as (v & e' & Hrun).
    exists v, e'. split; [assumption|].
    now apply (quiescence_value_in_window fuel board alpha beta hashKey ply e v e').
Qed.

End QuiescenceFacts.

Lemma obeysRuleDownTo_sound (n : nat) :
  forall b : GameNode, obeysRuleDownTo n b = true -> ruleDownTo n b.
Proof.
  induction n as [|n IH]; intros b Hcheck; simpl in Hcheck;
    apply andb_prop in Hcheck as [Hhere Hbelow];
    (split; [now apply obeysRule_sound|]); [exact I|].
  intros move b' Hmade. simpl in Hmade. unfold nodeMakeMove in Hmade.
  destruct (find (fun entry => sameSquares (fst entry) move) (legalMoves b))
    as [entry|] eqn:Hfind; [|discriminate].
  apply find_some in Hfind as [Hentry _].
  rewrite forallb_forall in Hbelow. specialize (Hbelow entry Hentry).
  rewrite Hmade in Hbelow. now apply IH.
Qed.

(** Positions whose moves start on pieces as well: the stronger condition
    gives the weaker one. *)

Section LawfulFacts.
Context {Board : Type} `{BoardOps Board}.

Lemma lawfulDownTo_rule (n : nat) :
  forall board : Board, lawfulDownTo n board -> ruleDownTo n board.
Proof.
  induction n as [|n IH]; intros board (Hrule & Hfrom & Hbelow);
    (split; [exact Hrule|]); [exact I|].
  intros move board' Hmade. apply IH. now apply (Hbelow move).
Qed.

End LawfulFacts.

Lemma obeysLawDownTo_sound (n : nat) :
  forall b : GameNode, obeysLawDownTo n b = true -> lawfulDownTo n b.
Proof.
  assert (Hhere : forall k b, obeysLawDownTo k b = true ->
                              noOwnCapture b /\ movesFromPieces b).
  { intros k b Hcheck.
    assert (Hboth : obeysRule b && forallb (startsOnPiece b) (map fst (legalMoves b))
                    = true)
      by (destruct k; simpl in Hcheck; now apply andb_prop in Hcheck as [Hboth _]).
    apply andb_prop in Hboth as [Hrule Hfrom].
    split; [now apply obeysRule_sound|].
    intros move Hin. rewrite forallb_forall in Hfrom.
    specialize (Hfrom move Hin). unfold startsOnPiece in Hfrom.
    cbn [getPieceAt GameNodeOps].
    destruct (nodePieceAt b (from move)) as [p|]; [now exists p|discriminate]. }
  induction n as [|n IH]; intros b Hcheck;
    destruct (Hhere _ b Hcheck) as [Hrule Hfrom];
    (split; [exact Hrule|split; [exact Hfrom|]]); [exact I|].
  simpl in Hcheck. apply andb_prop in Hcheck as [_ Hbelow].
  intros move b' Hmade. simpl in Hmade. unfold nodeMakeMove in Hmade.
  destruct (find (fun entry => sameSquares (fst entry) move) (legalMoves b))
    as [entry|] eqn:Hfind; [|discriminate].
  apply find_some in Hfind as [Hentry _].
  rewrite forallb_forall in Hbelow. specialize (Hbelow entry Hentry).
  rewrite Hmade in Hbelow. now apply IH.
Qed.

Lemma hangingQueen_lawful : lawfulDownTo 64 hangingQueen.
Proof. apply obeysLawDownTo_sound. vm_compute. reflexivity. Qed.

Lemma hangingQueen_rule_all_the_way : ruleDownTo 64 hangingQueen.
Proof. apply obeysRuleDownTo_sound. vm_compute. reflexivity. Qed.

Lemma quiescence_within_window_witness :
  exists v e',
    quiescenceSearch 64 hangingQueen (-100000) 100000 0 0 (freshEngine hangingQueen)
    = Some (v, e')
    /\ -100000 <= v <= 100000.
Proof.
  apply (quiescence_within_window 64 hangingQueen (-100000) 100000 0 0
           (freshEngine hangingQueen)).
  - reflexivity.
  - reflexivity.
  - exact hangingQueen_rule_all_the_way.
  - vm_compute. apply le_n.
Defined.

(** C10 as stated fails at the ply ceiling: with [MAX_PLY = 64] the call at
    ply 63 returns the static evaluation 895 of [queenUp], outside the
    window (0, 100) it was given. *)
Lemma quiescence_ceiling_leaves_window :
  exists e',
    quiescenceSearch 1 queenUp 0 100 0 63 (freshEngine queenUp) = Some (895, e')
    /\ 0 < 100
    /\ ~ (0 <= 895 <= 100).
Proof.
  eexists. split; [vm_compute; reflexivity|]. split; lia.
Qed.

(** C5 on the code.  First level: [hangingQueen] is searched with the
    window (1000, 2000).  White is not in check, the stand-pat score is
    -785, and -785 + 900 (the queen) + 200 = 315 is below alpha = 1000, so
    the capture of the queen is one that delta pruning skips.  The search
    makes the capture all the same: it visits two nodes, the root and the
    position after the capture.

    Nested level: [defendedQueen] is searched with the window (-2000, -400).
    The position after pawn takes queen is entered with the window
    (400, 875); Black is not in check there, the stand-pat score is -35, and
    -35 + 100 (the pawn) + 200 = 265 is below alpha = 400, so the recapture
    is one that delta pruning skips.  The search makes it: the run visits
    three nodes, and the call on the middle position alone visits two. *)
Theorem quiescence_searches_capture_below_delta :
  (isInCheck hangingQueen = false
   /\ evaluatePosition hangingQueen = -785
   /\ evaluatePosition hangingQueen + getPieceValue QUEEN + 200 <= 1000
   /\ List.filter (isCapturingMove hangingQueen) (generateLegalMoves hangingQueen)
      = [mv 4 3 3 4]
   /\ exists e',
        quiescenceSearch 3 hangingQueen 1000 2000 0 1 (freshEngine hangingQueen)
        = Some (1000, e')
        /\ nodesSearched e' = 2)
  /\ (isInCheck defendedQueenTaken = false
      /\ evaluatePosition defendedQueen = -875
      /\ evaluatePosition defendedQueenTaken = -35
      /\ evaluatePosition defendedQueenTaken + getPieceValue PAWN + 200 <= 400
      /\ List.filter (isCapturingMove defendedQueenTaken)
           (generateLegalMoves defendedQueenTaken) = [mv 2 5 3 4]
      /\ (exists e',
             quiescenceSearch 3 defendedQueenTaken 400 875
               (updateHashKey 0 (mv 4 3 3 4) defendedQueenTaken) 2
               (freshEngine defendedQueen)
             = Some (400, e')
             /\ nodesSearched e' = 2)
      /\ exists e',
           quiescenceSearch 4 defendedQueen (-2000) (-400) 0 1
             (freshEngine defendedQueen)
           = Some (-400, e')
           /\ nodesSearched e' = 3).
Proof.
  split.
  - repeat split; try (vm_compute; reflexivity).
    + vm_compute. discriminate.
    + eexists. split; vm_compute; reflexivity.
  - repeat split; try (vm_compute; reflexivity).
    + vm_compute. discriminate.
    + eexists. split; vm_compute; reflexivity.
    + eexists. split; vm_compute; reflexivity.
Qed.

(** ** Principal variation search on the example positions *)

(** C1 on the code: [blackChoice], Black (the minimizing player) to move,
    depth 1, window (-1000000, 1000000).  The static scores after the two
    moves are -85 and -60 for White to move.  Minimax gives -85 (Black
    plays the king step), which is 85 from Black's side; [pvSearch] returns
    60 with the pawn step as its line: its minimizing branch negates the
    score of the child, as its maximizing branch does, and goes on to keep
    the smallest.  The legacy [alphaBeta], which does not negate, returns
    -85 with the king step on the same position. *)
Theorem pvSearch_minimizing_differs_from_minimax :
  runSummary (pvSearch 4 blackChoice 1 (-1000000) 1000000 false 0 0 noMove
                (freshEngine blackChoice))
  = Some (60, [mv 2 7 3 7], 7, [(0, 1, 60, ALPHA, mv 2 7 3 7)])
  /\ minimax 1 blackChoice false = -85
  /\ negamax 1 blackChoice = 85
  /\ map evaluatePosition (successors blackChoice) = [-85; -60]
  /\ option_map fst (alphaBeta 4 blackChoice 1 (-1000000) 1000000 false 0 0 noMove
                       (freshEngine blackChoice))
     = Some (-85, [mv 0 0 0 1]).
Proof.
  do 4 (split; [vm_compute; reflexivity|]).
  vm_compute. reflexivity.
Qed.

(** C2 on the code: a checkmated side to move at ply 3 with remaining
    depth 2 gets -100000 (White, maximizing) or 100000 (Black, minimizing)
    from the early return through [evaluatePosition], with no ply offset
    (the claim has -99997 and 99997); a stalemate gets 0.  At the root of
    [mateInOne] with depth 1 the mating rook move is valued -100000 and the
    search returns the king step (7,6)->(6,5) with score 205, not the
    mating move with 99999. *)
Theorem pvSearch_mate_scores_without_ply :
  runSummary (pvSearch 4 backRankMated 2 (-1000000) 1000000 true 77 3 (mv 0 4 7 4)
                (freshEngine backRankMated))
  = Some (-100000, [], 1, [])
  /\ runSummary (pvSearch 4 backRankMatedBlack 2 (-1000000) 1000000 false 77 3
                   (mv 7 4 0 4) (freshEngine backRankMatedBlack))
     = Some (100000, [], 1, [])
  /\ runSummary (pvSearch 4 stalemated 2 (-1000000) 1000000 true 77 3 (mv 5 2 6 2)
                   (freshEngine stalemated))
     = Some (0, [], 1, [])
  /\ isCheckmate (afterWhiteMove (mv 7 0 0 0)) = true
  /\ runSummary (pvSearch 4 (afterWhiteMove (mv 7 0 0 0)) 0 (-1000000) 1000000 false
                   (updateHashKey 0 (mv 7 0 0 0) (afterWhiteMove (mv 7 0 0 0))) 1
                   (mv 7 0 0 0) (freshEngine mateInOne))
     = Some (100000, [], 2, [])
  /\ runSummary (pvSearch 4 mateInOne 1 (-1000000) 1000000 true 0 0 noMove
                   (freshEngine mateInOne))
     = Some (205, [mv 7 6 6 5], 39, [(0, 1, 205, EXACT, mv 7 6 6 5)]).
Proof. repeat split; vm_compute; reflexivity. Qed.

(** C3 on the code: [fiveMoves] is searched to depth 2.  None of the five
    moves is a PV move or a capture, none is extended, and
    [getDepthAdjustment] answers -1 for the moves at index 3 and 4; yet
    every one of the five positions after White's move is searched, and
    stored, with depth 1 = depth - 1, the late ones like the first three. *)
Theorem pvSearch_late_moves_at_full_depth :
  map (fun m => moveExtensionOf fiveMoves 0 noMove m) fiveMovesList = [0; 0; 0; 0; 0]
  /\ getDepthAdjustment 4 (mv 6 7 5 7) fiveMoves false 3 = Some (-1)
  /\ getDepthAdjustment 4 (mv 6 7 4 7) fiveMoves false 4 = Some (-1)
  /\ map (fun m => updateHashKey 0 m (afterFirstMove m)) fiveMovesList
     = [3633; 3642; 3634; 3568; 3560]
  /\ option_map (fun r => storedDepths (snd r))
       (runSummary (pvSearch 4 fiveMoves 2 (-1000000) 1000000 true 0 0 noMove
                      (freshEngine fiveMoves)))
     = Some [(3633, 1); (3642, 1); (3634, 1); (3568, 1); (3560, 1); (0, 2)].
Proof. repeat split; vm_compute; reflexivity. Qed.

(** C7 on the code: at the minimizing node [blackChoice], entered with the
    window (-1000000, 1000000), the final score 60 lies strictly inside
    the window and the entry is stored as ALPHA, not EXACT; at the
    maximizing node [mateInOne] the score 205 inside the same window is
    stored as EXACT. *)
Theorem minimizing_node_stored_as_alpha :
  option_map (fun r => (fst (fst (fst r)), snd r))
    (runSummary (pvSearch 4 blackChoice 1 (-1000000) 1000000 false 0 0 noMove
                   (freshEngine blackChoice)))
  = Some (60, [(0, 1, 60, ALPHA, mv 2 7 3 7)])
  /\ -1000000 < 60 < 1000000
  /\ option_map (fun r => (fst (fst (fst r)), snd r))
       (runSummary (pvSearch 4 mateInOne 1 (-1000000) 1000000 true 0 0 noMove
                      (freshEngine mateInOne)))
     = Some (205, [(0, 1, 205, EXACT, mv 7 6 6 5)]).
Proof.
  split; [vm_compute; reflexivity|].
  split; [lia|].
  vm_compute; reflexivity.
Qed.

(** ** The stored node type, in general *)

Section ClassificationFacts.
Context {Board TT : Type} `{BoardOps Board} `{TableOps TT} `{EngineConsts}.

(** In the minimizing loop [beta] is lowered to every score that
    [minEval] is lowered to, so [minEval < beta] never holds after it, and
    the node type never leaves ALPHA. *)
Lemma minLoop_beta_below_eval (self : SearchFn) (board : Board) depth hashKey ply
    lastMove extension moves :
  forall (v : LoopVars) (e : Engine Board TT) v' e',
    v_beta v <= v_eval v ->
    v_nodeType v = ALPHA ->
    minLoop self board depth hashKey ply lastMove extension moves v e = Some (v', e') ->
    v_beta v' <= v_eval v' /\ v_nodeType v' = ALPHA.
Proof.
  induction moves as [|[s move] rest IH]; intros v e v' e' Hle Htype Hrun;
    simpl in Hrun.
  - injection Hrun as <- _. now split.
  - destruct (makeMove board move) as [board'|]; [|now apply IH in Hrun].
    unfold bind in Hrun.
    destruct (searchChild self board' depth _ (v_alpha v) (v_beta v) true _ ply move
                (v_foundPV v) e) as [[[eval childPV] e1]|]; [|discriminate].
    cbn [fst snd] in Hrun.
    destruct (Z.ltb_spec eval (v_eval v)) as [Hbetter|Hworse];
      cbn [v_alpha v_beta v_eval v_bestMove v_pv v_foundPV v_nodeType] in Hrun.
    + destruct (Z.min (v_beta v) eval <=? v_alpha v).
      * destruct (recordCutoff board move depth ply lastMove e1) as [[u e2]|];
          [|discriminate].
        injection Hrun as <- _. simpl. split; [lia|reflexivity].
      * apply IH in Hrun; [assumption|simpl; lia|assumption].
    + destruct (Z.min (v_beta v) eval <=? v_alpha v).
      * destruct (recordCutoff board move depth ply lastMove e1) as [[u e2]|];
          [|discriminate].
        injection Hrun as <- _. simpl. split; [lia|reflexivity].
      * apply IH in Hrun; [assumption|simpl; lia|assumption].
Qed.

Lemma minimizing_node_type (self : SearchFn) (board : Board) depth hashKey ply
    lastMove extension moves alpha beta firstMove (e : Engine Board TT) v' e' :
  beta <= INT_MAX ->
  minLoop self board depth hashKey ply lastMove extension moves
    (mkVars alpha beta INT_MAX firstMove [] false ALPHA) e = Some (v', e') ->
  finalNodeType alpha (v_beta v') (v_eval v') (v_nodeType v') = ALPHA.
Proof.
  intros Hbeta Hrun.
  apply minLoop_beta_below_eval in Hrun as [Hle ->]; [|assumption|reflexivity].
  unfold finalNodeType.
  destruct (Z.ltb_spec (v_eval v') (v_beta v')); [lia|].
  now rewrite andb_false_r.
Qed.



End ClassificationFacts.

(** ** Quiescence search against its window-free value *)

Section LeafFacts.
Context {Board TT : Type} `{BoardOps Board} `{TableOps TT} `{EngineConsts}.

Lemma quiesceBest_at_least (self : Board -> Z -> option Z) (board : Board) ply moves :
  forall best m, quiesceBest self board ply moves best = Some m -> best <= m.
Proof.
  induction moves as [|[s move] rest IH]; intros best m Hrun; simpl in Hrun.
  - injection Hrun as <-. lia.
  - destruct (makeMove board move) as [board'|]; [|now apply IH].
    destruct (self board' (ply + 1)) as [q|]; [|discriminate].
    apply IH in Hrun. lia.
Qed.

Lemma quiesceValue_step fuel (board : Board) ply :
  quiesceValue (S fuel) board ply
  = if MAX_PLY - 1 <=? ply then Some (evaluatePosition board)
    else
      match scoreCaptures (S fuel) board ply
              (List.filter (isCapturingMove board) (generateLegalMoves board)) with
      | Some scored =>
          quiesceBest (quiesceValue fuel) board ply (sortScored scored)
            (evaluatePosition board)
      | None => None
      end.
Proof. reflexivity. Qed.

(** The search loop against the reference loop: [alpha0] is the alpha the
    node was entered with, [alpha] the running one, [best] the running
    reference value. *)
Lemma quiescenceLoop_approximates
    (search : Board -> Z -> Z -> Z -> Z -> Search Board TT Z)
    (value : Board -> Z -> option Z) (board : Board) beta hashKey ply alpha0 :
  (forall board' a b h (e : Engine Board TT) r e' q,
      a < b ->
      search board' a b h (ply + 1) e = Some (r, e') ->
      value board' (ply + 1) = Some q ->
      approximates q a b r) ->
  forall moves alpha best e v e' m,
    alpha = Z.max alpha0 best ->
    alpha < beta ->
    quiescenceLoop search board beta hashKey ply moves alpha e = Some (v, e') ->
    quiesceBest value board ply moves best = Some m ->
    approximates m alpha0 beta v.
Proof.
  intros Hchild.
  induction moves as [|[s move] rest IH];
    intros alpha best e v e' m Halpha Hwin Hrun Href; simpl in Hrun, Href.
  - injection Hrun as <- _. injection Href as <-. unfold approximates. lia.
  - destruct (makeMove board move) as [board'|];
      [|now apply (IH alpha best e v e' m)].
    unfold bind in Hrun.
    destruct (search board' (- beta) (- alpha) _ (ply + 1) e) as [[r e1]|] eqn:Hcall;
      [|discriminate].
    destruct (value board' (ply + 1)) as [q|] eqn:Hq; [|discriminate].
    assert (Happrox : approximates q (- beta) (- alpha) r)
      by (eapply Hchild; [|exact Hcall|exact Hq]; lia).
    destruct Happrox as (Hlow & Hhigh & Hexact).
    destruct (Z.leb_spec beta (- r)) as [Hcut|Hnocut].
    + injection Hrun as <- _.
      apply quiesceBest_at_least in Href.
      unfold approximates. lia.
    + destruct (Z.ltb_spec alpha (- r)) as [Hraise|Hkeep].
      * apply (IH (- r) (Z.max best (- q)) e1 v e' m); try assumption; lia.
      * apply (IH alpha (Z.max best (- q)) e1 v e' m); try assumption; lia.
Qed.

Lemma quiescence_approximates fuel :
  forall (board : Board) alpha beta hashKey ply (e : Engine Board TT) v e' q,
    alpha < beta ->
    quiescenceSearch fuel board alpha beta hashKey ply e = Some (v, e') ->
    quiesceValue fuel board ply = Some q ->
    approximates q alpha beta v.
Proof.
  induction fuel as [|fuel IH]; intros board alpha beta hashKey ply e v e' q Hwin Hrun Href;
    [discriminate|].
  rewrite quiescenceSearch_step in Hrun. rewrite quiesceValue_step in Href.
  cbv zeta in Hrun.
  destruct (MAX_PLY - 1 <=? ply).
  - injection Hrun as <- _. injection Href as <-. unfold approximates. lia.
  - destruct (scoreCaptures (S fuel) board ply _) as [scored|]; [|discriminate].
    destruct (Z.leb_spec beta (evaluatePosition board)) as [Hcut|Hnocut].
    + injection Hrun as <- _.
      apply quiesceBest_at_least in Href. unfold approximates. lia.
    + eapply (quiescenceLoop_approximates (quiescenceSearch fuel) (quiesceValue fuel)
                board beta hashKey ply alpha);
        [ | | | exact Hrun | exact Href ].
      * intros board' a b h e0 r e0' q0 Hab Hcall Hq0.
        now apply (IH board' a b h (ply + 1) e0 r e0' q0).
      * destruct (Z.ltb_spec alpha (evaluatePosition board)); lia.
      * destruct (Z.ltb_spec alpha (evaluatePosition board)); lia.
Qed.

End LeafFacts.

(** ** One ply of principal variation search for the maximizing player *)

Section OnePlyFacts.
Context {Board TT : Type} `{BoardOps Board} `{TableOps TT} `{EngineConsts}.

Lemma quiesceBest_returns (self : Board -> Z -> option Z) (board : Board) ply moves :
  (forall move board', makeMove board move = Some board' ->
                       exists q, self board' (ply + 1) = Some q) ->
  forall best, exists m, quiesceBest self board ply moves best = Some m.
Proof.
  intros Hself.
  induction moves as [|[s move] rest IH]; intros best; simpl.
  - now eexists.
  - destruct (makeMove board move) as [board'|] eqn:Hmade; [|apply IH].
    destruct (Hself move board' Hmade) as [q ->]. apply IH.
Qed.

Lemma quiesceValue_returns fuel :
  forall (board : Board) ply,
    ruleDownTo fuel board ->
    (Z.to_nat (MAX_PLY - 1 - ply) + 1 <= fuel)%nat ->
    exists q, quiesceValue fuel board ply = Some q.
Proof.
  induction fuel as [|fuel IH]; intros board ply Hrule Hfuel; [lia|].
  rewrite quiesceValue_step.
  destruct (Z.leb_spec (MAX_PLY - 1) ply); [now eexists|].
  destruct Hrule as [Hhere Hbelow].
  destruct (scoreCaptures_returns (S fuel) board ply
              (List.filter (isCapturingMove board) (generateLegalMoves board)) Hhere)
    as [scored ->]; [lia|].
  apply quiesceBest_returns.
  intros move board' Hmade.
  apply IH; [now apply (Hbelow move)|lia].
Qed.

(** Quiescence search leaves the transposition table alone. *)
Lemma quiescenceLoop_table
    (search : Board -> Z -> Z -> Z -> Z -> Search Board TT Z)
    (board : Board) beta hashKey ply moves :
  (forall board' a b h p (e : Engine Board TT) r e',
      search board' a b h p e = Some (r, e') ->
      transpositionTable e' = transpositionTable e) ->
  forall alpha e v e',
    quiescenceLoop search board beta hashKey ply moves alpha e = Some (v, e') ->
    transpositionTable e' = transpositionTable e.
Proof.
  intros Hsearch.
  induction moves as [|[s move] rest IH]; intros alpha e v e' Hrun; simpl in Hrun.
  - now injection Hrun as _ <-.
  - destruct (makeMove board move) as [board'|]; [|now apply IH in Hrun].
    unfold bind in Hrun.
    destruct (search board' (- beta) (- alpha) _ (ply + 1) e) as [[r e1]|] eqn:Hcall;
      [|discriminate].
    apply Hsearch in Hcall.
    destruct (beta <=? - r).
    + injection Hrun as _ <-. assumption.
    + apply IH in Hrun. congruence.
Qed.

Lemma quiescenceSearch_table fuel :
  forall (board : Board) alpha beta hashKey ply (e : Engine Board TT) v e',
    quiescenceSearch fuel board alpha beta hashKey ply e = Some (v, e') ->
    transpositionTable e' = transpositionTable e.
Proof.
  induction fuel as [|fuel IH]; intros board alpha beta hashKey ply e v e' Hrun;
    [discriminate|].
  rewrite quiescenceSearch_step in Hrun. cbv zeta in Hrun.
  destruct (MAX_PLY - 1 <=? ply); [now injection Hrun as _ <-|].
  destruct (beta <=? evaluatePosition board); [now injection Hrun as _ <-|].
  destruct (scoreCaptures (S fuel) board ply _) as [scored|]; [|discriminate].
  apply (quiescenceLoop_table (quiescenceSearch fuel)) in Hrun; [assumption|].
  intros board' a b h p e0 r e0' Hcall. now apply IH in Hcall.
Qed.

(** A call with no depth left, on a silent table: the static evaluation at
    the ply ceiling, the quiescence search below it. *)
Lemma pvSearch_leaf fuel (board : Board) depth alpha beta maximizingPlayer hashKey ply
    lastMove (e : Engine Board TT) :
  depth <= 0 ->
  tableSilent e ->
  pvSearch (S fuel) board depth alpha beta maximizingPlayer hashKey ply lastMove e
  = if MAX_PLY - 1 <=? ply
    then Some (evaluatePosition board, [], withNodes e (nodesSearched e + 1))
    else
      match quiescenceSearch (S fuel) board alpha beta hashKey ply
              (withNodes e (nodesSearched e + 1)) with
      | Some (r, e') => Some (r, [], e')
      | None => None
      end.
Proof.
  intros Hdepth Hsilent.
  cbn [pvSearch]. unfold pvSearchNode, bind, modify, gets, ret.
  cbn [transpositionTable withNodes].
  assert (Hmiss : fst (fst (if 0 <? ply
                            then probe (transpositionTable e) hashKey depth alpha beta
                            else (false, 0, noMove))) = false)
    by (destruct (0 <? ply); [apply Hsilent|reflexivity]).
  rewrite Hmiss.
  destruct (MAX_PLY - 1 <=? ply); [reflexivity|].
  destruct (Z.leb_spec depth 0); [|lia].
  reflexivity.
Qed.

Lemma leaf_approximates fuel (board : Board) depth alpha beta maximizingPlayer hashKey
    ply lastMove (e : Engine Board TT) r line e' q :
  depth <= 0 ->
  alpha < beta ->
  tableSilent e ->
  pvSearch (S fuel) board depth alpha beta maximizingPlayer hashKey ply lastMove e
  = Some (r, line, e') ->
  quiesceValue (S fuel) board ply = Some q ->
  approximates q alpha beta r /\ tableSilent e'.
Proof.
  intros Hdepth Hwin Hsilent Hrun Href.
  rewrite (pvSearch_leaf fuel board depth alpha beta maximizingPlayer hashKey ply
             lastMove e Hdepth Hsilent) in Hrun.
  destruct (MAX_PLY - 1 <=? ply) eqn:Hceil.
  - injection Hrun as <- _ <-.
    rewrite quiesceValue_step, Hceil in Href. injection Href as <-.
    split; [unfold approximates; lia|exact Hsilent].
  - destruct (quiescenceSearch (S fuel) board alpha beta hashKey ply _)
      as [[r0 e0]|] eqn:Hq; [|discriminate].
    injection Hrun as <- _ <-.
    split.
    + eapply quiescence_approximates; [exact Hwin|exact Hq|exact Href].
    + apply quiescenceSearch_table in Hq.
      unfold tableSilent in *. rewrite Hq. exact Hsilent.
Qed.

Lemma leaf_returns fuel (board : Board) depth alpha beta maximizingPlayer hashKey
    ply lastMove (e : Engine Board TT) :
  depth <= 0 ->
  tableSilent e ->
  ruleDownTo (S fuel) board ->
  (Z.to_nat (MAX_PLY - 1 - ply) + 1 <= S fuel)%nat ->
  exists r line e',
    pvSearch (S fuel) board depth alpha beta maximizingPlayer hashKey ply lastMove e
    = Some (r, line, e').
Proof.
  intros Hdepth Hsilent Hrule Hfuel.
  rewrite (pvSearch_leaf fuel board depth alpha beta maximizingPlayer hashKey ply
             lastMove e Hdepth Hsilent).
  destruct (MAX_PLY - 1 <=? ply); [now do 3 eexists|].
  destruct (quiescenceSearch_returns (S fuel) board alpha beta hashKey ply
              (withNodes e (nodesSearched e + 1)) Hrule Hfuel) as (r & e' & ->).
  now do 3 eexists.
Qed.

End OnePlyFacts.

Section OnePlyLoop.
Context {Board TT : Type} `{BoardOps Board} `{TableOps TT} `{EngineConsts}.

Lemma getDepthAdjustment_returns fuel move (board : Board) isPV moveIndex :
  noOwnCapture board ->
  exists adjustment,
    getDepthAdjustment (S (S fuel)) move board isPV moveIndex = Some adjustment.
Proof.
  intros Hrule. unfold getDepthAdjustment.
  destruct isPV; [now eexists|].
  destruct (getPieceAt board (to move)); [|now eexists].
  destruct (seeCapture_returns board fuel move Hrule) as [s ->].
  destruct (s <? 0); now eexists.
Qed.

Lemma maxLoop_step (self : SearchFn) fuel (board : Board) depth hashKey ply lastMove
    extension s move rest i v (e : Engine Board TT) :
  maxLoop self fuel board depth hashKey ply lastMove extension ((s, move) :: rest) i v e
  = match (if negb (v_foundPV v) && (0 <? i)
           then getDepthAdjustment fuel move board
                  (isPVMove move (principalVariation e) ply) i
           else Some 0) with
    | None => None
    | Some _ =>
        match makeMove board move with
        | None =>
            maxLoop self fuel board depth hashKey ply lastMove extension rest (i + 1) v e
        | Some board' =>
            match searchChild self board' depth
                    (moveExtensionOf board extension lastMove move)
                    (v_alpha v) (v_beta v) false (updateHashKey hashKey move board')
                    ply move (v_foundPV v) e with
            | None => None
            | Some (r, e1) =>
                let v1 := if v_eval v <? fst r
                          then mkVars (v_alpha v) (v_beta v) (fst r) move
                                 (move :: snd r) true (v_nodeType v)
                          else v in
                let v2 := mkVars (Z.max (v_alpha v1) (fst r)) (v_beta v1) (v_eval v1)
                            (v_bestMove v1) (v_pv v1) (v_foundPV v1) (v_nodeType v1) in
                if v_beta v2 <=? Z.max (v_alpha v1) (fst r) then
                  match recordCutoff board move depth ply lastMove e1 with
                  | Some (_, e2) =>
                      Some (mkVars (v_alpha v2) (v_beta v2) (v_eval v2) (v_bestMove v2)
                              (v_pv v2) (v_foundPV v2) BETA, e2)
                  | None => None
                  end
                else
                  maxLoop self fuel board depth hashKey ply lastMove extension rest
                    (i + 1) v2 e1
            end
        end
    end.
Proof.
  cbn [maxLoop]. unfold bind, gets, liftOption, ret.
  destruct (if negb (v_foundPV v) && (0 <? i) then _ else _); [|reflexivity].
  destruct (makeMove board move); [|reflexivity].
  destruct (searchChild _ _ _ _ _ _ _ _ _ _ _ e) as [[r e1]|]; [|reflexivity].
  cbv zeta.
  destruct (_ <=? _); [|reflexivity].
  now destruct (recordCutoff board move depth ply lastMove e1) as [[u e2]|].
Qed.


Lemma searchChild_first (self : SearchFn) (board' : Board) depth ext alpha beta
    childMax newHashKey ply move (e : Engine Board TT) :
  searchChild self board' depth ext alpha beta childMax newHashKey ply move false e
  = match self board' (depth - 1 + ext) (- beta) (- alpha) childMax newHashKey
            (ply + 1) move e with
    | Some (r, e') => Some ((- fst r, snd r), e')
    | None => None
    end.
Proof.
  unfold searchChild, bind, ret.
  now destruct (self board' _ _ _ _ _ _ _ e) as [[r e']|].
Qed.

Lemma searchChild_later (self : SearchFn) (board' : Board) depth ext alpha beta
    childMax newHashKey ply move (e : Engine Board TT) :
  searchChild self board' depth ext alpha beta childMax newHashKey ply move true e
  = match self board' (depth - 1 + ext) (- alpha - 1) (- alpha) childMax newHashKey
            (ply + 1) move e with
    | Some (r, e') =>
        if (alpha <? - fst r) && (- fst r <? beta) then
          match self board' (depth - 1 + ext) (- beta) (- alpha) childMax newHashKey
                  (ply + 1) move e' with
          | Some (r2, e2) => Some ((- fst r2, snd r2), e2)
          | None => None
          end
        else Some ((- fst r, snd r), e')
    | None => None
    end.
Proof.
  unfold searchChild, bind, ret.
  destruct (self board' _ (- alpha - 1) _ _ _ _ _ e) as [[r e']|]; [|reflexivity].
  destruct ((alpha <? - fst r) && (- fst r <? beta)); [|reflexivity].
  now destruct (self board' _ (- beta) _ _ _ _ _ e') as [[r2 e2]|].
Qed.

(** The maximizing loop at depth 1 without extensions, on a silent table
    and with every leaf value strictly inside the window: it runs to the
    end and [maxEval] ends as the reference maximum. *)
Lemma maxLoop_one_ply (self : SearchFn) (value : Board -> Z -> option Z) fuel
    (board : Board) hashKey ply lastMove alpha0 beta :
  noOwnCapture board ->
  INT_MIN <= alpha0 ->
  alpha0 < beta ->
  (forall move board' q a b h (e : Engine Board TT),
      makeMove board move = Some board' ->
      value board' (ply + 1) = Some q ->
      a < b ->
      tableSilent e ->
      exists r line e',
        self board' 0 a b false h (ply + 1) move e = Some (r, line, e')
        /\ approximates q a b r /\ tableSilent e') ->
  forall moves i v e m,
    (forall sm, In sm moves -> moveExtensionOf board 0 lastMove (snd sm) = 0) ->
    (forall sm board' q,
        In sm moves -> makeMove board (snd sm) = Some board' ->
        value board' (ply + 1) = Some q -> alpha0 < - q < beta) ->
    tableSilent e ->
    loopPhase alpha0 beta v ->
    quiesceBest value board ply moves (v_eval v) = Some m ->
    exists v' e',
      maxLoop self (S (S fuel)) board 1 hashKey ply lastMove 0 moves i v e
      = Some (v', e')
      /\ v_eval v' = m /\ loopPhase alpha0 beta v' /\ tableSilent e'.
Proof.
  intros Hrule Hmin Hwin Hself.
  induction moves as [|[s move] rest IH]; intros i v e m Hext Hval Hsilent Hphase Href.
  - simpl in Href. injection Href as <-. exists v, e.
    split; [reflexivity|]. split; [reflexivity|]. now split.
  - rewrite maxLoop_step.
    assert (Hadj : exists a,
               (if negb (v_foundPV v) && (0 <? i)
                then getDepthAdjustment (S (S fuel)) move board
                       (isPVMove move (principalVariation e) ply) i
                else Some 0) = Some a).
    { destruct (negb (v_foundPV v) && (0 <? i)); [|now eexists].
      now apply getDepthAdjustment_returns. }
    destruct Hadj as [a ->].
    simpl in Href.
    assert (Hext' : forall sm, In sm rest ->
                               moveExtensionOf board 0 lastMove (snd sm) = 0)
      by (intros sm Hin; apply Hext; now right).
    assert (Hval' : forall sm board' q,
               In sm rest -> makeMove board (snd sm) = Some board' ->
               value board' (ply + 1) = Some q -> alpha0 < - q < beta)
      by (intros sm board' q Hin; apply Hval; now right).
    destruct (makeMove board move) as [board'|] eqn:Hmade;
      [|now apply IH].
    destruct (value board' (ply + 1)) as [q|] eqn:Hq; [|discriminate].
    pose proof (Hval (s, move) board' q (or_introl eq_refl) Hmade Hq) as Hinside.
    pose proof (Hext (s, move) (or_introl eq_refl)) as Hnoext.
    cbn [snd] in Hnoext, Hinside. rewrite Hnoext.
    destruct Hphase as [Hbeta [(Hfound & Heval & Halpha)|(Hfound & Heval & Halpha)]].
    + (* the first move that is searched: full window *)
      rewrite Hfound, searchChild_first. change (1 - 1 + 0) with 0.
      destruct (Hself move board' q (- v_beta v) (- v_alpha v)
                  (updateHashKey hashKey move board') e Hmade Hq ltac:(lia) Hsilent)
        as (r & line & e1 & -> & (_ & _ & Hexact) & Hsilent1).
      cbn [fst snd]. rewrite Hexact by lia.
      destruct (Z.ltb_spec (v_eval v) (- q)); [|lia].
      cbn [v_alpha v_beta v_eval v_bestMove v_pv v_foundPV v_nodeType].
      destruct (Z.leb_spec (v_beta v) (Z.max (v_alpha v) (- q))); [lia|].
      apply IH; try assumption.
      * unfold loopPhase. simpl. split; [assumption|]. right. lia.
      * simpl. rewrite Heval in Href. now rewrite Z.max_r in Href by lia.
    + (* a later move: null window, then possibly the full window *)
      rewrite Hfound, searchChild_later. change (1 - 1 + 0) with 0.
      destruct (Hself move board' q (- v_alpha v - 1) (- v_alpha v)
                  (updateHashKey hashKey move board') e Hmade Hq ltac:(lia) Hsilent)
        as (r & line & e1 & -> & (Hlow & Hhigh & _) & Hsilent1).
      cbn [fst snd].
      destruct (Z.le_gt_cases (- v_alpha v) q) as [Hnotbetter|Hbetter].
      * (* the move does not beat the best so far *)
        specialize (Hhigh Hnotbetter).
        destruct (Z.ltb_spec (v_alpha v) (- r)); [lia|]. cbn [andb fst snd].
        destruct (Z.ltb_spec (v_eval v) (- r)); [lia|].
        cbn [v_alpha v_beta v_eval v_bestMove v_pv v_foundPV v_nodeType].
        destruct (Z.leb_spec (v_beta v) (Z.max (v_alpha v) (- r))); [lia|].
        apply IH; try assumption.
        -- unfold loopPhase. simpl. split; [assumption|]. right.
           split; [assumption|lia].
        -- simpl. now rewrite Z.max_l in Href by lia.
      * (* the move beats it: the full window gives its value *)
        specialize (Hlow ltac:(lia)).
        destruct (Z.ltb_spec (v_alpha v) (- r)); [|lia].
        destruct (Z.ltb_spec (- r) (v_beta v)); [|lia]. cbn [andb].
        destruct (Hself move board' q (- v_beta v) (- v_alpha v)
                    (updateHashKey hashKey move board') e1 Hmade Hq ltac:(lia) Hsilent1)
          as (r2 & line2 & e2 & -> & (_ & _ & Hexact) & Hsilent2).
        cbn [fst snd]. rewrite Hexact by lia.
        destruct (Z.ltb_spec (v_eval v) (- q)); [|lia].
        cbn [v_alpha v_beta v_eval v_bestMove v_pv v_foundPV v_nodeType].
        destruct (Z.leb_spec (v_beta v) (Z.max (v_alpha v) (- q))); [lia|].
        apply IH; try assumption.
        -- unfold loopPhase. simpl. split; [assumption|]. right. lia.
        -- simpl. now rewrite Z.max_r in Href by lia.
Qed.

End OnePlyLoop.

Section OnePlyNode.
Context {Board TT : Type} `{BoardOps Board} `{TableOps TT} `{EngineConsts}.

Lemma insertScored_In (x y : Z * Move) (l : list (Z * Move)) :
  In y (insertScored x l) <-> y = x \/ In y l.
Proof.
  induction l as [|z l IH]; simpl.
  - intuition.
  - destruct (fst x <? fst z); simpl; rewrite ?IH; intuition.
Qed.

Lemma sortScored_In (y : Z * Move) (l : list (Z * Move)) :
  In y (sortScored l) <-> In y l.
Proof.
  induction l as [|x l IH]; simpl.
  - reflexivity.
  - rewrite insertScored_In, IH. intuition.
Qed.

Lemma getMoveScore_returns fuel (e : Engine Board TT) move (board : Board) ttMove pv
    ply sideToMove lastMove p :
  noOwnCapture board ->
  getPieceAt board (from move) = Some p ->
  exists s,
    getMoveScore (S (S fuel)) e move board ttMove pv ply sideToMove lastMove = Some s.
Proof.
  intros Hrule Hfrom. unfold getMoveScore.
  destruct (matchesTTMove ttMove move); [now eexists|].
  destruct (pvBand e move ply _); [now eexists|].
  rewrite Hfrom.
  destruct (getPieceAt board (to move)).
  - destruct (seeCapture_returns board fuel move Hrule) as [s ->].
    destruct (0 <? s); now eexists.
  - destruct (_ && _); [now eexists|].
    destruct (isKillerMove e move ply); [|now eexists].
    destruct (sameSquares _ move); now eexists.
Qed.

(** Below depth 3 the scoring loop keeps every move. *)
Lemma scoreMoves_shallow fuel (e : Engine Board TT) (board : Board) depth ttMove ply
    lastMove moves :
  depth < 3 ->
  noOwnCapture board ->
  (forall move, In move moves -> exists p, getPieceAt board (from move) = Some p) ->
  exists scored,
    scoreMoves (S (S fuel)) e board depth ttMove ply lastMove moves = Some scored
    /\ map snd scored = moves.
Proof.
  intros Hdepth Hrule.
  induction moves as [|move rest IH]; intros Hfrom; simpl.
  - now exists [].
  - destruct (Hfrom move (or_introl eq_refl)) as [p Hp].
    destruct (getMoveScore_returns fuel e move board ttMove (principalVariation e) ply
                (getSideToMove board) lastMove p Hrule Hp) as [s ->].
    destruct IH as (scored & -> & Hmoves); [intros m Hin; apply Hfrom; now right|].
    destruct (Z.leb_spec 3 depth); [lia|].
    exists ((s, move) :: scored). simpl. now rewrite Hmoves.
Qed.

(** What the reference loop returns: the starting value or the negated
    value of one of the moves, and at least each of them. *)
Lemma quiesceBest_is_maximum (value : Board -> Z -> option Z) (board : Board) ply moves :
  forall best m,
    quiesceBest value board ply moves best = Some m ->
    (m = best
     \/ exists sm board' q,
          In sm moves /\ makeMove board (snd sm) = Some board'
          /\ value board' (ply + 1) = Some q /\ m = - q)
    /\ (forall sm board' q,
           In sm moves -> makeMove board (snd sm) = Some board' ->
           value board' (ply + 1) = Some q -> - q <= m).
Proof.
  induction moves as [|[s move] rest IH]; intros best m Hrun; simpl in Hrun.
  - injection Hrun as <-. split; [now left|]. intros sm board' q [].
  - destruct (makeMove board move) as [board'|] eqn:Hmade.
    + destruct (value board' (ply + 1)) as [q|] eqn:Hq; [|discriminate].
      pose proof (quiesceBest_at_least _ _ _ _ _ _ Hrun) as Hge.
      destruct (IH _ _ Hrun) as [Hwhich Hall]. split.
      * destruct Hwhich as [->|(sm & b' & q' & Hin & Hm & Hv & ->)].
        -- destruct (Z.max_spec best (- q)) as [[_ ->]|[_ ->]].
           ++ right. exists (s, move), board', q. simpl. now auto.
           ++ now left.
        -- right. exists sm, b', q'. simpl. now auto.
      * intros sm b' q' [<-|Hin] Hm Hv.
        -- simpl in Hm. rewrite Hmade in Hm. injection Hm as <-.
           rewrite Hq in Hv. injection Hv as <-. lia.
        -- now apply (Hall sm b' q').
    + destruct (IH _ _ Hrun) as [Hwhich Hall]. split.
      * destruct Hwhich as [->|(sm & b' & q' & Hin & Hm & Hv & ->)]; [now left|].
        right. exists sm, b', q'. simpl. now auto.
      * intros sm b' q' [<-|Hin] Hm Hv.
        -- simpl in Hm. congruence.
        -- now apply (Hall sm b' q').
Qed.


(** The maximizing branch, one ply: a maximizing node searched to depth 1,
    not in check and with no move extended, on a transposition table that
    answers no probe, with a window of machine integers that can be negated
    and that holds every leaf value strictly inside, on positions whose
    moves start on pieces.  [pvSearch] returns, and its score is the
    full-width value of the one ply: the largest negated leaf value over
    the legal moves, the leaf value being the window-free quiescence value
    of the position after the move.  The null windows and the move order
    change nothing in it. *)
Lemma pvSearch_one_ply_maximizing (fuel : nat) (board : Board) (alpha beta : Z)
    (hashKey ply : Z) (lastMove : Move) (e : Engine Board TT) :
  ply < MAX_PLY - 1 ->
  isInCheck board = false ->
  isCheckmate board = false ->
  isStalemate board = false ->
  INT_MIN < alpha ->
  beta <= INT_MAX ->
  alpha < beta ->
  tableSilent e ->
  lawfulDownTo (S (S fuel)) board ->
  (Z.to_nat (MAX_PLY - 1 - ply) + 1 <= S fuel)%nat ->
  (forall move, In move (generateLegalMoves board) ->
                moveExtensionOf board 0 lastMove move = 0) ->
  (exists move board',
      In move (generateLegalMoves board) /\ makeMove board move = Some board') ->
  (forall move board' q,
      In move (generateLegalMoves board) ->
      makeMove board move = Some board' ->
      quiesceValue (S fuel) board' (ply + 1) = Some q ->
      alpha < - q < beta) ->
  exists v line e',
    pvSearch (S (S fuel)) board 1 alpha beta true hashKey ply lastMove e
    = Some (v, line, e')
    /\ bestReplyValue (S fuel) board ply v.
Proof.
  intros Hply Hcheck Hmate Hstale Hlowest Hhighest Hwin Hsilent Hlaw Hfuel Hext
    (goodMove & goodBoard & Hgood & Hgoodmade) Hinside.
  assert (Hmin : INT_MIN <= alpha) by lia.
  assert (Hfrom : forall move, In move (generateLegalMoves board) ->
                               exists p, getPieceAt board (from move) = Some p)
    by apply Hlaw.
  destruct (lawfulDownTo_rule _ board Hlaw) as [Hrule Hbelow].
  (* the reference maximum over the ordered moves *)
  destruct (scoreMoves_shallow fuel (withNodes e (nodesSearched e + 1)) board 1
              (snd (if 0 <? ply
                    then probe (transpositionTable e) hashKey 1 alpha beta
                    else (false, 0, noMove)))
              ply lastMove (generateLegalMoves board) ltac:(lia) Hrule Hfrom)
    as (scored & Hscored & Hmoves).
  assert (Hlisted : forall sm, In sm (sortScored scored) ->
                               In (snd sm) (generateLegalMoves board)).
  { intros sm Hin. apply (proj1 (sortScored_In sm scored)) in Hin.
    rewrite <- Hmoves. now apply in_map. }
  assert (Hordered : forall move, In move (generateLegalMoves board) ->
                                  exists sm, In sm (sortScored scored) /\ snd sm = move).
  { intros move Hin. rewrite <- Hmoves in Hin. apply in_map_iff in Hin as (sm & <- & Hin).
    exists sm. split; [now apply (proj2 (sortScored_In sm scored))|reflexivity]. }
  assert (Hvalue : forall move board', makeMove board move = Some board' ->
                     exists q, quiesceValue (S fuel) board' (ply + 1) = Some q).
  { intros move board' Hmade. apply quiesceValue_returns; [now apply (Hbelow move)|lia]. }
  destruct (quiesceBest_returns (quiesceValue (S fuel)) board ply (sortScored scored)
              Hvalue INT_MIN) as [m Href].
  (* the loop *)
  destruct (maxLoop_one_ply (pvSearch (S fuel)) (quiesceValue (S fuel)) fuel board
              hashKey ply lastMove alpha beta Hrule Hmin Hwin) with
      (moves := sortScored scored) (i := 0)
      (v := mkVars alpha beta INT_MIN
              (hd noMove (generateLegalMoves board)) [] false ALPHA)
      (e := withNodes e (nodesSearched e + 1)) (m := m)
    as (v' & e' & Hloop & Hresult & _ & _).
  { intros move board' q a b h e0 Hmade Hq Hab Hsilent0.
    destruct (leaf_returns fuel board' 0 a b false h (ply + 1) move e0
                ltac:(lia) Hsilent0 (Hbelow move board' Hmade) ltac:(lia))
      as (r & line & e1 & Hrun).
    exists r, line, e1. split; [exact Hrun|].
    now apply (leaf_approximates fuel board' 0 a b false h (ply + 1) move e0 r line e1 q). }
  { intros sm Hin. apply Hext. now apply Hlisted. }
  { intros sm board' q Hin. apply Hinside. now apply Hlisted. }
  { exact Hsilent. }
  { unfold loopPhase. simpl. split; [reflexivity|]. left. now repeat split. }
  { exact Href. }
  (* the node *)
  exists (v_eval v'), (v_pv v'),
    (withTable e'
       (store (transpositionTable e') hashKey 1 (v_eval v')
          (finalNodeType alpha (v_beta v') (v_eval v') (v_nodeType v'))
          (v_bestMove v'))).
  split.
  - change (pvSearch (S (S fuel)))
      with (pvSearchNode (pvSearch (S fuel)) (S (S fuel)) : SearchFn).
    unfold pvSearchNode, bind, modify, gets, ret, liftOption.
    cbn [transpositionTable withNodes].
    assert (Hmiss : fst (fst (if 0 <? ply
                              then probe (transpositionTable e) hashKey 1 alpha beta
                              else (false, 0, noMove))) = false)
      by (destruct (0 <? ply); [apply Hsilent|reflexivity]).
    rewrite Hmiss.
    destruct (Z.leb_spec (MAX_PLY - 1) ply); [lia|].
    change (1 <=? 0) with false. cbv iota.
    rewrite Hcheck, Hmate, Hstale. cbn [orb].
    destruct (generateLegalMoves board) as [|firstMove others] eqn:Hlegal;
      [destruct Hgood|].
    change (2 <=? 1) with false. rewrite andb_false_r.
    rewrite Hscored. cbn [hd] in Hloop. rewrite Hloop.
    unfold storeResult, bind, modify, ret. reflexivity.
  - rewrite Hresult.
    destruct (quiesceBest_is_maximum (quiesceValue (S fuel)) board ply
                (sortScored scored) INT_MIN m Href) as [Hwhich Hall].
    destruct (Hordered goodMove Hgood) as (goodEntry & HgoodIn & HgoodSnd).
    destruct (Hvalue goodMove goodBoard Hgoodmade) as [goodValue HgoodValue].
    assert (Hlarge : alpha < m).
    { pose proof (Hinside goodMove goodBoard goodValue Hgood Hgoodmade HgoodValue).
      pose proof (Hall goodEntry goodBoard goodValue HgoodIn
                    ltac:(now rewrite HgoodSnd) HgoodValue).
      lia. }
    split.
    + destruct Hwhich as [->|(sm & board' & q & Hin & Hmade & Hq & ->)]; [lia|].
      exists (snd sm), board', q. repeat split; try assumption. now apply Hlisted.
    + intros move board' q Hin Hmade Hq.
      destruct (Hordered move Hin) as (sm & HsmIn & <-).
      now apply (Hall sm board' q).
Qed.

End OnePlyNode.

(** The hypotheses of the one-ply lemma on [mateInOne]. *)

Lemma freshEngine_silent (b : GameNode) : tableSilent (freshEngine b).
Proof. intros hashKey depth alpha beta. reflexivity. Qed.

Lemma mateInOne_lawful : lawfulDownTo 65 mateInOne.
Proof. apply obeysLawDownTo_sound. vm_compute. reflexivity. Qed.

Lemma mateInOne_not_extended :
  forall move, In move (generateLegalMoves mateInOne) ->
               moveExtensionOf mateInOne 0 noMove move = 0.
Proof.
  intros move Hin. simpl in Hin.
  repeat (destruct Hin as [<-|Hin]; [vm_compute; reflexivity|]).
  contradiction.
Qed.

Lemma mateInOne_inside_window :
  forall move board' q,
    In move (generateLegalMoves mateInOne) ->
    makeMove mateInOne move = Some board' ->
    quiesceValue 64 board' (0 + 1) = Some q ->
    -1000000 < - q < 1000000.
Proof.
  intros move board' q Hin Hmade Hq. simpl in Hin.
  repeat (destruct Hin as [<-|Hin];
          [vm_compute in Hmade; injection Hmade as <-;
           vm_compute in Hq; injection Hq as <-; lia|]).
  contradiction.
Qed.

Lemma pvSearch_one_ply_maximizing_witness :
  exists v line e',
    pvSearch 65 mateInOne 1 (-1000000) 1000000 true 0 0 noMove (freshEngine mateInOne)
    = Some (v, line, e')
    /\ bestReplyValue 64 mateInOne 0 v.
Proof.
  apply (pvSearch_one_ply_maximizing 63 mateInOne (-1000000) 1000000 0 0 noMove
           (freshEngine mateInOne)).
  - reflexivity.
  - reflexivity.
  - reflexivity.
  - reflexivity.
  - reflexivity.
  - vm_compute. discriminate.
  - reflexivity.
  - exact (freshEngine_silent mateInOne).
  - exact mateInOne_lawful.
  - vm_compute. apply le_n.
  - exact mateInOne_not_extended.
  - exists (mv 7 0 0 0), (afterWhiteMove (mv 7 0 0 0)).
    split; [left; reflexivity|reflexivity].
  - exact mateInOne_inside_window.
Defined.

(** ** Terminal nodes and child depths, in general *)

Section NodeFacts.
Context {Board TT : Type} `{BoardOps Board} `{TableOps TT} `{EngineConsts}.




(** Every recursive call made for a move gets the depth
    [depth - 1 + moveExtension]: a [self] that gives up at any other depth
    serves as well. *)
Lemma searchChild_depth (self : SearchFn) (board' : Board) depth moveExtension alpha
    beta childMaximizing newHashKey ply move foundPV (e : Engine Board TT) :
  searchChild self board' depth moveExtension alpha beta childMaximizing newHashKey
    ply move foundPV e
  = searchChild
      (fun b d a bt mx h p m e0 =>
         if d =? depth - 1 + moveExtension then self b d a bt mx h p m e0 else None)
      board' depth moveExtension alpha beta childMaximizing newHashKey ply move
      foundPV e.
Proof.
  destruct foundPV; rewrite ?searchChild_first, ?searchChild_later;
    now rewrite Z.eqb_refl.
Qed.

(** The index table of [getDepthAdjustment]: nothing below index 3, one
    ply from index 3, two plies from index 6 on (the three plies from
    index 12 are capped at two). *)
Lemma lateMoveReduction_table (moveIndex : Z) :
  lateMoveReduction moveIndex
  = if moveIndex <? 3 then 0 else if moveIndex <? 6 then -1 else -2.
Proof.
  unfold lateMoveReduction.
  destruct (Z.ltb_spec moveIndex 3); [reflexivity|].
  destruct (Z.leb_spec 3 moveIndex); [|lia].
  destruct (Z.ltb_spec moveIndex 6), (Z.leb_spec 6 moveIndex); try lia;
    destruct (Z.leb_spec 12 moveIndex); try lia; reflexivity.
Qed.

End NodeFacts.

(* ===================================================================== *)
(** * Further properties of the ordering tables *)
(* ===================================================================== *)

Lemma sameSquares_refl (m : Move) : sameSquares m m = true.
Proof. unfold sameSquares. now rewrite !Z.eqb_refl. Qed.

Lemma sameSquares_spec (a b : Move) :
  sameSquares a b = true <-> from a = from b /\ to a = to b.
Proof.
  destruct a as [[r1 c1] [r2 c2] pa], b as [[r3 c3] [r4 c4] pb].
  unfold sameSquares. cbn [from to row col].
  rewrite !andb_true_iff, !Z.eqb_eq. split.
  - intros [[[-> ->] ->] ->]. now split.
  - intros [Hfrom Hto]. injection Hfrom as -> ->. injection Hto as -> ->. auto.
Qed.

Lemma sameSquares_sym (a b : Move) : sameSquares a b = sameSquares b a.
Proof.
  unfold sameSquares.
  now rewrite (Z.eqb_sym (row (from a))), (Z.eqb_sym (col (from a))),
    (Z.eqb_sym (row (to a))), (Z.eqb_sym (col (to a))).
Qed.

Lemma sameSquares_trans (a b c : Move) :
  sameSquares a b = true -> sameSquares b c = true -> sameSquares a c = true.
Proof.
  rewrite !sameSquares_spec. intros [-> ->] [-> ->]. now split.
Qed.

(** Inside the board, the index [row * 8 + col] names one square only. *)
Lemma squareIndex_injective (p q : Position) :
  isValid p = true -> isValid q = true -> squareIndex p = squareIndex q -> p = q.
Proof.
  destruct p as [r c], q as [r' c']. unfold isValid, squareIndex. cbn [row col].
  rewrite !andb_true_iff, !Z.leb_le, !Z.ltb_lt.
  intros [[[? ?] ?] ?] [[[? ?] ?] ?] Heq.
  assert (r = r') by lia. assert (c = c') by lia. now subst.
Qed.

Section TableFacts.
Context {Board TT : Type} `{BoardOps Board} `{TableOps TT} `{EngineConsts}.

(** *** Killer moves *)

Lemma killersAt_store (e : Engine Board TT) move ply :
  ply < MAX_PLY ->
  killersAt (storeKillerMove e move ply) ply
  = if sameSquares (fst (killersAt e ply)) move then killersAt e ply
    else (move, fst (killersAt e ply)).
Proof.
  intros Hply. unfold storeKillerMove.
  destruct (Z.leb_spec MAX_PLY ply); [lia|].
  destruct (killersAt e ply) as [k0 k1] eqn:Hslots. cbn [fst].
  destruct (sameSquares k0 move); [exact Hslots|].
  unfold killersAt, withKillers. cbn [killerMoves].
  now rewrite lookup_insert_eq.
Qed.

(** X1.  A move stored as a killer at a ply below [MAX_PLY] is recognised
    as a killer at that ply afterwards, whatever the slots held before. *)
Theorem killer_store_then_lookup (e : Engine Board TT) (move : Move) (ply : Z) :
  ply < MAX_PLY ->
  isKillerMove (storeKillerMove e move ply) move ply = true.
Proof.
  intros Hply. unfold isKillerMove.
  destruct (Z.leb_spec MAX_PLY ply); [lia|].
  rewrite (killersAt_store e move ply Hply).
  destruct (sameSquares (fst (killersAt e ply)) move) eqn:Hsame.
  - destruct (killersAt e ply) as [k0 k1]. cbn [fst] in Hsame. now rewrite Hsame.
  - now rewrite sameSquares_refl.
Qed.

(** X2.  The two slots of a ply hold the two most recent distinct killers,
    the most recent first: after three moves on pairwise different squares
    have been stored, the slots hold the third and the second, and the
    first is no longer a killer. *)
Theorem killer_third_evicts_oldest (e : Engine Board TT) (a b c : Move) (ply : Z) :
  ply < MAX_PLY ->
  sameSquares a b = false ->
  sameSquares b c = false ->
  sameSquares a c = false ->
  let e3 := storeKillerMove (storeKillerMove (storeKillerMove e a ply) b ply) c ply in
  killersAt e3 ply = (c, b) /\ isKillerMove e3 a ply = false.
Proof.
  intros Hply Hab Hbc Hac e3.
  assert (Hfirst : sameSquares (fst (killersAt (storeKillerMove e a ply) ply)) a = true).
  { rewrite (killersAt_store e a ply Hply).
    destruct (sameSquares (fst (killersAt e ply)) a) eqn:Hsame; [exact Hsame|].
    apply sameSquares_refl. }
  assert (Hsecond : killersAt (storeKillerMove (storeKillerMove e a ply) b ply) ply
                    = (b, fst (killersAt (storeKillerMove e a ply) ply))).
  { rewrite (killersAt_store _ b ply Hply).
    destruct (sameSquares (fst (killersAt (storeKillerMove e a ply) ply)) b) eqn:Hsame;
      [|reflexivity].
    rewrite sameSquares_sym in Hfirst.
    rewrite (sameSquares_trans _ _ _ Hfirst Hsame) in Hab. discriminate. }
  assert (Hthird : killersAt e3 ply = (c, b)).
  { unfold e3. rewrite (killersAt_store _ c ply Hply), Hsecond. cbn [fst].
    now rewrite Hbc. }
  split; [exact Hthird|].
  unfold isKillerMove. destruct (Z.leb_spec MAX_PLY ply); [lia|].
  rewrite Hthird, (sameSquares_sym c a), (sameSquares_sym b a), Hac, Hab.
  reflexivity.
Qed.

(** X3.  Storing a killer at one ply leaves the slots of every other ply as
    they were, and at or above [MAX_PLY] nothing is stored and no move is a
    killer. *)
Theorem killer_store_leaves_other_plies (e : Engine Board TT) (move : Move)
    (ply ply' : Z) :
  ply' <> ply ->
  killersAt (storeKillerMove e move ply) ply' = killersAt e ply'
  /\ (forall other, isKillerMove (storeKillerMove e move ply) other ply'
                    = isKillerMove e other ply')
  /\ (MAX_PLY <= ply ->
      storeKillerMove e move ply = e /\ isKillerMove e move ply = false).
Proof.
  intros Hother.
  assert (Hslots : killersAt (storeKillerMove e move ply) ply' = killersAt e ply').
  { unfold storeKillerMove.
    destruct (MAX_PLY <=? ply); [reflexivity|].
    destruct (killersAt e ply) as [k0 k1].
    destruct (sameSquares k0 move); [reflexivity|].
    unfold killersAt, withKillers. cbn [killerMoves].
    now rewrite lookup_insert_ne by congruence. }
  split; [exact Hslots|]. split.
  - intros other. unfold isKillerMove. now rewrite Hslots.
  - intros Hceiling. unfold storeKillerMove, isKillerMove.
    destruct (Z.leb_spec MAX_PLY ply); [now split|lia].
Qed.

(** *** Counter moves *)

(** X4.  A counter move stored for an opponent move that lies inside the
    board, with a piece of the game board on its destination square, is the
    one returned for that opponent move afterwards. *)
Theorem counter_store_then_lookup (e : Engine Board TT) (lastMove counterMove : Move)
    (piece : Piece) :
  isValid (from lastMove) = true ->
  isValid (to lastMove) = true ->
  getPieceAt (gameBoard e) (to lastMove) = Some piece ->
  getCounterMove (storeCounterMove e lastMove counterMove) lastMove = counterMove.
Proof.
  intros Hfrom Hto Hpiece. unfold getCounterMove, storeCounterMove.
  rewrite Hfrom, Hto. cbn [negb orb]. rewrite Hpiece.
  unfold withCounters. cbn [gameBoard counterMoves]. rewrite Hpiece.
  now rewrite lookup_insert_eq.
Qed.

(** X5.  Storing a counter move for one opponent move changes the answer
    for no opponent move on other squares; and for an opponent move that
    lies outside the board or ends on an empty square of the game board
    nothing is stored and the answer is the unset move. *)
Theorem counter_store_leaves_other_moves (e : Engine Board TT)
    (lastMove counterMove other : Move) :
  isValid (from other) = true ->
  isValid (to other) = true ->
  sameSquares lastMove other = false ->
  getCounterMove (storeCounterMove e lastMove counterMove) other
  = getCounterMove e other
  /\ (isValid (from lastMove) && isValid (to lastMove) = false
      \/ getPieceAt (gameBoard e) (to lastMove) = None ->
      storeCounterMove e lastMove counterMove = e
      /\ getCounterMove e lastMove = noMove).
Proof.
  intros Hfrom Hto Hdiff. split.
  - unfold storeCounterMove.
    destruct (isValid (from lastMove)) eqn:Hlfrom; [|reflexivity].
    destruct (isValid (to lastMove)) eqn:Hlto; [|reflexivity].
    cbn [negb orb].
    destruct (getPieceAt (gameBoard e) (to lastMove)) as [piece|]; [|reflexivity].
    unfold getCounterMove, withCounters. cbn [gameBoard counterMoves].
    rewrite Hfrom, Hto. cbn [negb orb].
    destruct (getPieceAt (gameBoard e) (to other)) as [piece'|]; [|reflexivity].
    rewrite lookup_insert_ne; [reflexivity|].
    unfold counterKey. intros Hkey. injection Hkey as _ _ Hf Ht.
    apply squareIndex_injective in Hf, Ht; try assumption.
    assert (sameSquares lastMove other = true) by (apply sameSquares_spec; now split).
    congruence.
  - intros Hnone. unfold storeCounterMove, getCounterMove.
    destruct Hnone as [Hinvalid|Hempty].
    + apply andb_false_iff in Hinvalid as [-> | ->]; cbn [negb orb];
        rewrite ?orb_true_r; now split.
    + rewrite Hempty. destruct (negb _ || negb _); now split.
Qed.

(** *** History scores *)

(** The invariant on the table itself. *)
Lemma updateHistoryTable_bounded (h : gmap (Z * Z * Z) Z) (move : Move) (depth : Z)
    (color : Color) :
  (forall k, 0 <= histAt h k <= 10000) ->
  depth * depth <= 10000 ->
  forall k, 0 <= histAt (updateHistoryTable h move depth color) k <= 10000.
Proof.
  intros Hbound Hbonus k.
  assert (Hbumped : forall k', 0 <= histAt (bumpHistory h move depth color) k' <= 20000).
  { intros k'. unfold bumpHistory, histAt.
    destruct (decide (k' = historyKey move color)) as [->|Hne].
    - rewrite lookup_insert_eq. simpl.
      pose proof (Hbound (historyKey move color)) as Hold.
      pose proof (Z.square_nonneg depth). unfold histAt in Hold. lia.
    - rewrite lookup_insert_ne by congruence.
      pose proof (Hbound k'). unfold histAt in *. lia. }
  unfold updateHistoryTable.
  destruct (Z.ltb_spec 10000 (histAt (bumpHistory h move depth color)
                                (historyKey move color))) as [Hover|Hfits].
  - rewrite histAt_halveHistory. pose proof (Hbumped k) as Hk.
    rewrite Z.quot_div_nonneg by lia.
    split; [apply Z.div_pos; lia|].
    apply Z.div_le_upper_bound; lia.
  - destruct (decide (k = historyKey move color)) as [->|Hne].
    + pose proof (Hbumped (historyKey move color)). lia.
    + unfold bumpHistory, histAt. rewrite lookup_insert_ne by congruence.
      apply Hbound.
Qed.

(** X6.  The table of history scores stays inside [0, 10000]: when every
    cell is in that range and the bonus [depth * depth] is at most 10000,
    every cell is in that range after [updateHistoryScore], whether or not
    the halving was triggered. *)
Theorem history_stays_bounded (e : Engine Board TT) (move : Move) (depth : Z)
    (color : Color) :
  (forall k, 0 <= histAt (historyTable e) k <= 10000) ->
  depth * depth <= 10000 ->
  forall k, 0 <= histAt (historyTable (updateHistoryScore e move depth color)) k <= 10000.
Proof.
  intros Hbound Hbonus k.
  unfold updateHistoryScore, withHistory. cbn [historyTable].
  now apply updateHistoryTable_bounded.
Qed.

(** X7.  What [getHistoryScore] reads after [updateHistoryScore], on a
    table whose cells are in [0, 10000] and for a bonus [depth * depth] of
    at most 10000 (so that the sum stays far inside the machine integers):
    the cell of the move holds its old score plus [depth * depth], every
    other cell its old score; and when the move's cell has passed 10000,
    each cell holds half of that, rounded toward zero. *)
Theorem history_update_reads_back (e : Engine Board TT) (move : Move) (depth : Z)
    (color : Color) :
  (forall k, 0 <= histAt (historyTable e) k <= 10000) ->
  depth * depth <= 10000 ->
  let raised := getHistoryScore e move color + depth * depth in
  let scaled (score : Z) := if 10000 <? raised then Z.quot score 2 else score in
  getHistoryScore (updateHistoryScore e move depth color) move color = scaled raised
  /\ (forall move' color',
         historyKey move' color' <> historyKey move color ->
         getHistoryScore (updateHistoryScore e move depth color) move' color'
         = scaled (getHistoryScore e move' color')).
Proof.
  intros _ _ raised scaled.
  assert (Hcell : histAt (bumpHistory (historyTable e) move depth color)
                    (historyKey move color) = raised).
  { unfold bumpHistory, histAt at 1. now rewrite lookup_insert_eq. }
  unfold getHistoryScore, updateHistoryScore, withHistory. cbn [historyTable].
  unfold updateHistoryTable. rewrite Hcell. unfold scaled.
  split.
  - destruct (10000 <? raised); [rewrite histAt_halveHistory|]; now rewrite Hcell.
  - intros move' color' Hne.
    assert (Hother : histAt (bumpHistory (historyTable e) move depth color)
                       (historyKey move' color')
                     = histAt (historyTable e) (historyKey move' color')).
    { unfold bumpHistory, histAt at 1. now rewrite lookup_insert_ne by congruence. }
    destruct (10000 <? raised); [rewrite histAt_halveHistory|]; now rewrite Hother.
Qed.

End TableFacts.

(** The tables on an engine at work: [hangingQueen] is the game board, the
    black queen has just arrived on (3,4) from (2,4). *)

Lemma killer_store_then_lookup_witness :
  isKillerMove (storeKillerMove (freshEngine hangingQueen) (mv 7 6 7 5) 3)
    (mv 7 6 7 5) 3 = true.
Proof.
  apply (killer_store_then_lookup (freshEngine hangingQueen) (mv 7 6 7 5) 3).
  reflexivity.
Defined.

Lemma killer_third_evicts_oldest_witness :
  killersAt
    (storeKillerMove
       (storeKillerMove (storeKillerMove (freshEngine hangingQueen) (mv 7 6 7 5) 2)
          (mv 7 6 7 7) 2)
       (mv 4 3 3 3) 2) 2
  = (mv 4 3 3 3, mv 7 6 7 7)
  /\ isKillerMove
       (storeKillerMove
          (storeKillerMove (storeKillerMove (freshEngine hangingQueen) (mv 7 6 7 5) 2)
             (mv 7 6 7 7) 2)
          (mv 4 3 3 3) 2) (mv 7 6 7 5) 2
     = false.
Proof.
  apply (killer_third_evicts_oldest (freshEngine hangingQueen)
           (mv 7 6 7 5) (mv 7 6 7 7) (mv 4 3 3 3) 2); reflexivity.
Defined.

Lemma killer_store_leaves_other_plies_witness :
  killersAt (storeKillerMove
               (storeKillerMove (freshEngine hangingQueen) (mv 7 6 7 5) 1)
               (mv 7 6 7 7) 2) 1
  = killersAt (storeKillerMove (freshEngine hangingQueen) (mv 7 6 7 5) 1) 1
  /\ (forall other,
         isKillerMove (storeKillerMove
                         (storeKillerMove (freshEngine hangingQueen) (mv 7 6 7 5) 1)
                         (mv 7 6 7 7) 2) other 1
         = isKillerMove (storeKillerMove (freshEngine hangingQueen) (mv 7 6 7 5) 1)
             other 1)
  /\ (MAX_PLY <= 2 ->
      storeKillerMove (storeKillerMove (freshEngine hangingQueen) (mv 7 6 7 5) 1)
        (mv 7 6 7 7) 2
      = storeKillerMove (freshEngine hangingQueen) (mv 7 6 7 5) 1
      /\ isKillerMove (storeKillerMove (freshEngine hangingQueen) (mv 7 6 7 5) 1)
           (mv 7 6 7 7) 2 = false).
Proof.
  apply (killer_store_leaves_other_plies
           (storeKillerMove (freshEngine hangingQueen) (mv 7 6 7 5) 1) (mv 7 6 7 7) 2 1).
  discriminate.
Defined.

Lemma counter_store_then_lookup_witness :
  getCounterMove (storeCounterMove (freshEngine hangingQueen) (mv 2 4 3 4) (mv 4 3 3 4))
    (mv 2 4 3 4)
  = mv 4 3 3 4.
Proof.
  apply (counter_store_then_lookup (freshEngine hangingQueen) (mv 2 4 3 4) (mv 4 3 3 4)
           (mkPiece QUEEN BLACK)); reflexivity.
Defined.

Lemma counter_store_leaves_other_moves_witness :
  getCounterMove (storeCounterMove (freshEngine hangingQueen) (mv 2 4 3 4) (mv 4 3 3 4))
    (mv 1 6 0 6)
  = getCounterMove (freshEngine hangingQueen) (mv 1 6 0 6)
  /\ (isValid (from (mv 2 4 3 4)) && isValid (to (mv 2 4 3 4)) = false
      \/ getPieceAt (gameBoard (freshEngine hangingQueen)) (to (mv 2 4 3 4)) = None ->
      storeCounterMove (freshEngine hangingQueen) (mv 2 4 3 4) (mv 4 3 3 4)
      = freshEngine hangingQueen
      /\ getCounterMove (freshEngine hangingQueen) (mv 2 4 3 4) = noMove).
Proof.
  apply (counter_store_leaves_other_moves (freshEngine hangingQueen)
           (mv 2 4 3 4) (mv 4 3 3 4) (mv 1 6 0 6)); reflexivity.
Defined.

Lemma crowdedHistory_bounded (k : Z * Z * Z) : 0 <= histAt crowdedHistory k <= 10000.
Proof.
  unfold histAt, crowdedHistory.
  destruct (decide (k = (0, 1, 2))) as [->|H1];
    [rewrite lookup_insert_eq; simpl; lia|rewrite lookup_insert_ne by congruence].
  destruct (decide (k = (0, 8, 16))) as [->|H2];
    [rewrite lookup_insert_eq; simpl; lia|rewrite lookup_insert_ne by congruence].
  destruct (decide (k = (0, 9, 17))) as [->|H3];
    [rewrite lookup_insert_eq; simpl; lia|rewrite lookup_insert_ne by congruence].
  rewrite lookup_empty. simpl. lia.
Qed.

Lemma history_stays_bounded_witness :
  0 <= histAt (historyTable
                 (updateHistoryScore
                    (withHistory (freshEngine hangingQueen) crowdedHistory)
                    (mv 0 1 0 2) 1 WHITE)) (0, 1, 2)
    <= 10000.
Proof.
  apply (history_stays_bounded (withHistory (freshEngine hangingQueen) crowdedHistory)
           (mv 0 1 0 2) 1 WHITE).
  - exact crowdedHistory_bounded.
  - vm_compute. discriminate.
Defined.

Lemma history_update_reads_back_witness :
  getHistoryScore
    (updateHistoryScore (withHistory (freshEngine hangingQueen) crowdedHistory)
       (mv 0 1 0 2) 1 WHITE) (mv 0 1 0 2) WHITE
  = 5000
  /\ getHistoryScore
       (updateHistoryScore (withHistory (freshEngine hangingQueen) crowdedHistory)
          (mv 0 1 0 2) 1 WHITE) (mv 1 0 2 0) WHITE
     = 1.
Proof.
  destruct (history_update_reads_back
              (withHistory (freshEngine hangingQueen) crowdedHistory)
              (mv 0 1 0 2) 1 WHITE crowdedHistory_bounded ltac:(vm_compute; discriminate))
    as [Hcell Hothers].
  split.
  - exact Hcell.
  - apply (Hothers (mv 1 0 2 0) WHITE). vm_compute. discriminate.
Defined.

(* ===================================================================== *)
(** * Further properties of the capture ordering and the exchange value *)
(* ===================================================================== *)

(** The 6x6 matrix of [getMVVLVAScore] in closed form. *)
Lemma getMVVLVAScore_formula (attacker victim : PieceType) :
  isNoneType attacker = false ->
  isNoneType victim = false ->
  getMVVLVAScore attacker victim
  = 100 * (Z.of_nat (typeIndex victim) + 1) + (5 - Z.of_nat (typeIndex attacker)).
Proof. destruct attacker, victim; intros Ha Hv; try discriminate; reflexivity. Qed.

Lemma typeIndex_bound (t : PieceType) : isNoneType t = false -> (typeIndex t <= 5)%nat.
Proof. destruct t; intros Ht; try discriminate; simpl; lia. Qed.


(** X8.  Most valuable victim first, least valuable attacker second: among
    real piece types a capture of a more valuable victim scores higher
    whatever the two attackers are, and of two captures of the same victim
    the one by the less valuable attacker scores higher. *)
Theorem mvvlva_victim_then_attacker (attacker attacker' victim victim' : PieceType) :
  isNoneType attacker = false ->
  isNoneType attacker' = false ->
  isNoneType victim = false ->
  isNoneType victim' = false ->
  ((typeIndex victim < typeIndex victim')%nat ->
   getMVVLVAScore attacker victim < getMVVLVAScore attacker' victim')
  /\ ((typeIndex attacker < typeIndex attacker')%nat ->
      getMVVLVAScore attacker' victim < getMVVLVAScore attacker victim)
  /\ 100 <= getMVVLVAScore attacker victim <= 605.
Proof.
  intros Ha Ha' Hv Hv'.
  rewrite !getMVVLVAScore_formula by assumption.
  pose proof (typeIndex_bound attacker Ha).
  pose proof (typeIndex_bound attacker' Ha').
  pose proof (typeIndex_bound victim Hv).
  pose proof (typeIndex_bound victim' Hv').
  split; [intros Hlt; lia|split; [intros Hlt; lia|lia]].
Qed.

Lemma mvvlva_victim_then_attacker_witness :
  ((typeIndex ROOK < typeIndex QUEEN)%nat ->
   getMVVLVAScore PAWN ROOK < getMVVLVAScore KING QUEEN)
  /\ ((typeIndex PAWN < typeIndex KING)%nat ->
      getMVVLVAScore KING ROOK < getMVVLVAScore PAWN ROOK)
  /\ 100 <= getMVVLVAScore PAWN ROOK <= 605.
Proof.
  apply (mvvlva_victim_then_attacker PAWN KING ROOK QUEEN); reflexivity.
Defined.

Section ExchangeBounds.
Context {Board : Type} `{BoardOps Board} `{EngineConsts}.

Lemma see_nonnegative (board : Board) fuel :
  forall square side captureValue r,
    see fuel board square side captureValue = Some r -> 0 <= r.
Proof.
  induction fuel as [|fuel IH]; intros square side captureValue r Hrun; [discriminate|].
  rewrite see_step in Hrun.
  destruct (leastAttacker board square side) as [[lva lvaValue] lvaType].
  destruct (isNoneType lvaType).
  - injection Hrun as <-. lia.
  - destruct (see fuel board square (opposite side) lvaValue) as [r0|]; [|discriminate].
    injection Hrun as <-. lia.
Qed.

(** X9.  The exchange value of a capture never exceeds the value of the
    captured piece, and it is 0 for a move to an empty square or from one:
    the recursive part [see] only ever takes something away, since each of
    its levels returns at least 0. *)
Theorem seeCapture_at_most_victim (board : Board) (fuel : nat) (move : Move) (s : Z) :
  seeCapture fuel board move = Some s ->
  match getPieceAt board (to move), getPieceAt board (from move) with
  | Some victim, Some _ => s <= getPieceValue (getType victim)
  | _, _ => s = 0
  end.
Proof.
  unfold seeCapture. intros Hrun.
  destruct (getPieceAt board (to move)) as [victim|]; [|now injection Hrun as <-].
  destruct (getPieceAt board (from move)) as [mover|]; [|now injection Hrun as <-].
  destruct (see fuel board (to move) (getColor mover) (getPieceValue (getType mover)))
    as [r|] eqn:Hsee; [|discriminate].
  injection Hrun as <-. apply see_nonnegative in Hsee. lia.
Qed.

(** X10.  On a board whose move lists obey [noOwnCapture], the exchange
    value of a capture of an enemy piece is the value of that piece, for
    every attacker and every defender: the first level of [see] looks for
    attackers of the victim's own colour and finds none.  So, with piece
    values that are not negative, [getDepthAdjustment] never takes its
    losing-capture return and gives the index-based reduction. *)
Theorem exchange_value_is_victim_value (board : Board) (fuel : nat) (move : Move)
    (victim mover : Piece) (moveIndex : Z) :
  noOwnCapture board ->
  getPieceAt board (to move) = Some victim ->
  getPieceAt board (from move) = Some mover ->
  getColor mover = opposite (getColor victim) ->
  0 <= getPieceValue (getType victim) ->
  seeCapture (S fuel) board move = Some (getPieceValue (getType victim))
  /\ getDepthAdjustment (S fuel) move board false moveIndex
     = Some (lateMoveReduction moveIndex).
Proof.
  intros Hrule Hvictim Hmover Hcol Hvalue.
  assert (Hsee : seeCapture (S fuel) board move = Some (getPieceValue (getType victim))).
  { unfold seeCapture. rewrite Hvictim, Hmover, Hcol.
    rewrite (see_own_colour board (to move) victim fuel _ Hrule Hvictim).
    f_equal. lia. }
  split; [exact Hsee|].
  unfold getDepthAdjustment. rewrite Hvictim, Hsee.
  destruct (Z.ltb_spec (getPieceValue (getType victim)) 0); [lia|reflexivity].
Qed.

(** X11.  [getDepthAdjustment] never extends and never takes off more than
    two plies; a principal-variation move gets 0, and a move to an empty
    square that is not a principal-variation move gets 0 below index 3,
    -1 below index 6 and -2 from there on. *)
Theorem getDepthAdjustment_range (fuel : nat) (move : Move) (board : Board)
    (isPV : bool) (moveIndex adjustment : Z) :
  getDepthAdjustment fuel move board isPV moveIndex = Some adjustment ->
  -2 <= adjustment <= 0
  /\ (isPV = true -> adjustment = 0)
  /\ (isPV = false -> getPieceAt board (to move) = None ->
      adjustment = if moveIndex <? 3 then 0 else if moveIndex <? 6 then -1 else -2).
Proof.
  assert (Htable : lateMoveReduction moveIndex
                   = if moveIndex <? 3 then 0 else if moveIndex <? 6 then -1 else -2).
  { unfold lateMoveReduction.
    destruct (Z.ltb_spec moveIndex 3); [reflexivity|].
    destruct (Z.leb_spec 3 moveIndex); [|lia].
    destruct (Z.ltb_spec moveIndex 6), (Z.leb_spec 6 moveIndex); try lia;
      destruct (Z.leb_spec 12 moveIndex); try lia; reflexivity. }
  assert (Hrange : -2 <= lateMoveReduction moveIndex <= 0).
  { rewrite Htable. destruct (moveIndex <? 3), (moveIndex <? 6); lia. }
  unfold getDepthAdjustment. intros Hrun.
  destruct isPV.
  - injection Hrun as <-. repeat split; try lia; discriminate.
  - destruct (getPieceAt board (to move)) as [victim|].
    + destruct (seeCapture fuel board move) as [s|]; [|discriminate].
      destruct (s <? 0); injection Hrun as <-;
        (split; [lia|split; [discriminate|intros _ Hnone; discriminate]]).
    + injection Hrun as <-.
      split; [exact Hrange|split; [discriminate|intros _ _; exact Htable]].
Qed.

End ExchangeBounds.

Lemma seeCapture_at_most_victim_witness :
  match getPieceAt hangingQueen (to (mv 4 3 3 4)),
        getPieceAt hangingQueen (from (mv 4 3 3 4)) with
  | Some victim, Some _ => 900 <= getPieceValue (getType victim)
  | _, _ => 900 = 0
  end.
Proof.
  apply (seeCapture_at_most_victim hangingQueen 2 (mv 4 3 3 4) 900).
  vm_compute. reflexivity.
Defined.

Lemma exchange_value_is_victim_value_witness :
  seeCapture 1 hangingQueen (mv 4 3 3 4) = Some (getPieceValue QUEEN)
  /\ getDepthAdjustment 1 (mv 4 3 3 4) hangingQueen false 7
     = Some (lateMoveReduction 7).
Proof.
  apply (exchange_value_is_victim_value hangingQueen 0 (mv 4 3 3 4)
           (mkPiece QUEEN BLACK) (mkPiece PAWN WHITE) 7).
  - exact hangingQueen_rule.
  - reflexivity.
  - reflexivity.
  - reflexivity.
  - vm_compute. discriminate.
Defined.

Lemma getDepthAdjustment_range_witness :
  -2 <= -1 <= 0
  /\ (false = true -> -1 = 0)
  /\ (false = false -> getPieceAt hangingQueen (to (mv 7 6 7 5)) = None ->
      -1 = if 4 <? 3 then 0 else if 4 <? 6 then -1 else -2).
Proof.
  apply (getDepthAdjustment_range 2 (mv 7 6 7 5) hangingQueen false 4 (-1)).
  vm_compute. reflexivity.
Defined.

Section BandFacts.
Context {Board TT : Type} `{BoardOps Board} `{TableOps TT} `{EngineConsts}.


End BandFacts.

Lemma freshEngine_history (b : GameNode) (k : Z * Z * Z) :
  histAt (historyTable (freshEngine b)) k <= 10000.
Proof. unfold histAt. cbn [freshEngine historyTable]. rewrite lookup_empty. simpl. lia. Qed.


(* ===================================================================== *)
(** * Further properties of the static evaluation *)
(* ===================================================================== *)

Lemma nth_within (l : list Z) (lo hi : Z) :
  forallb (fun x => (lo <=? x) && (x <=? hi)) l = true ->
  lo <= 0 <= hi ->
  forall n, lo <= nth n l 0 <= hi.
Proof.
  intros Hall Hzero n.
  destruct (Nat.lt_ge_cases n (length l)) as [Hin|Hout].
  - rewrite forallb_forall in Hall.
    specialize (Hall (nth n l 0) (nth_In l 0 Hin)).
    apply andb_prop in Hall as [Hlo Hhi]. lia.
  - now rewrite nth_overflow.
Qed.

Lemma allSquares_length : length allSquares = 64%nat.
Proof. reflexivity. Qed.

Section EvaluationFacts.
Context {Board : Type} `{BoardOps Board} `{EngineConsts}.

Lemma pieceTerm_within (V : Z) (phase : bool) (t : PieceType) (idx : Z) :
  (forall t', 0 <= getPieceValue t' <= V) ->
  -50 <= pieceTerm phase t idx <= V + 50.
Proof.
  intros Hvalues.
  assert (Htable : forall table,
             forallb (fun x => (-50 <=? x) && (x <=? 50)) table = true ->
             -50 <= at_index table idx <= 50).
  { intros table Hall. unfold at_index. apply nth_within; [exact Hall|lia]. }
  pose proof (Htable pawnTable eq_refl).
  pose proof (Htable knightTable eq_refl).
  pose proof (Htable bishopTable eq_refl).
  pose proof (Htable rookTable eq_refl).
  pose proof (Htable queenTable eq_refl).
  pose proof (Htable kingMiddleGameTable eq_refl).
  pose proof (Htable kingEndGameTable eq_refl).
  pose proof (Hvalues t) as Ht.
  destruct t; cbn [pieceTerm getPieceValue] in *; try lia.
  destruct phase; lia.
Qed.

Lemma evalFold_within (V : Z) (phase : bool) (board : Board) (squares : list Position) :
  (forall t, 0 <= getPieceValue t <= V) ->
  forall acc n,
    - ((V + 50) * n) <= fst acc - snd acc <= (V + 50) * n ->
    0 <= n ->
    let result := fold_left (evalStep phase board) squares acc in
    - ((V + 50) * (n + Z.of_nat (length squares)))
    <= fst result - snd result
    <= (V + 50) * (n + Z.of_nat (length squares)).
Proof.
  intros Hvalues.
  pose proof (Hvalues PAWN) as HV.
  induction squares as [|pos rest IH]; intros acc n Hacc Hn; cbn [fold_left length].
  - cbv zeta. rewrite Z.add_0_r. exact Hacc.
  - cbv zeta in *.
    replace (n + Z.of_nat (S (length rest))) with ((n + 1) + Z.of_nat (length rest))
      by lia.
    apply IH; [|lia].
    destruct acc as [whiteScore blackScore]. unfold evalStep. cbn [fst snd] in *.
    destruct (getPieceAt board pos) as [piece|]; [|cbn [fst snd]; nia].
    pose proof (pieceTerm_within V phase (getType piece) (row pos * 8 + col pos)
                  Hvalues).
    pose proof (pieceTerm_within V phase (getType piece) ((7 - row pos) * 8 + col pos)
                  Hvalues).
    destruct (getColor piece); cbn [fst snd]; nia.
Qed.

(** X13.  The static evaluation is bounded: with piece values between 0
    and [V], the score of any position lies within 64 * (V + 50) of zero,
    or is one of the mate scores -100000 and 100000.  (Every entry of the
    piece-square tables lies between -50 and 50, and there are 64
    squares.) *)
Theorem evaluatePosition_bounded (board : Board) (V : Z) :
  (forall t, 0 <= getPieceValue t <= V) ->
  - Z.max 100000 (64 * (V + 50)) <= evaluatePosition board
  <= Z.max 100000 (64 * (V + 50)).
Proof.
  intros Hvalues.
  pose proof (evalFold_within V (isEndgame board) board allSquares Hvalues (0, 0) 0
                ltac:(cbn [fst snd]; lia) ltac:(lia)) as Hfold.
  cbv zeta in Hfold. rewrite allSquares_length in Hfold.
  unfold evaluatePosition.
  destruct (fold_left (evalStep (isEndgame board) board) allSquares (0, 0))
    as [whiteScore blackScore].
  cbn [fst snd] in Hfold.
  destruct (isCheckmate board); [destruct (getSideToMove board); lia|].
  destruct (isStalemate board); [pose proof (Hvalues PAWN); lia|].
  destruct (getSideToMove board); lia.
Qed.

Lemma endgameFold_no_queen (board : Board) (squares : list Position) :
  (forall pos p, getPieceAt board pos = Some p -> getType p <> QUEEN) ->
  forall count,
    exists count',
      fold_left (endgameStep board) squares (count, false, false)
      = (count', false, false).
Proof.
  intros Hnone.
  induction squares as [|pos rest IH]; intros count; cbn [fold_left].
  - now eexists.
  - unfold endgameStep at 2.
    destruct (getPieceAt board pos) as [piece|] eqn:Hpiece; [|apply IH].
    pose proof (Hnone pos piece Hpiece) as Hq.
    destruct (getType piece); try apply IH. congruence.
Qed.

(** X14.  A position without queens is an endgame, whatever else is on the
    board: the king then gets the endgame table. *)
Theorem isEndgame_without_queens (board : Board) :
  (forall pos p, getPieceAt board pos = Some p -> getType p <> QUEEN) ->
  isEndgame board = true.
Proof.
  intros Hnone. unfold isEndgame.
  destruct (endgameFold_no_queen board allSquares Hnone 0) as [count ->].
  reflexivity.
Qed.

Lemma fold_left_same_steps {A B : Type} (f g : A -> B -> A) (l : list B) :
  (forall a x, f a x = g a x) -> forall a, fold_left f l a = fold_left g l a.
Proof.
  intros Hsame. induction l as [|x l IH]; intros a; cbn [fold_left].
  - reflexivity.
  - now rewrite Hsame, IH.
Qed.

(** X15.  The score is the mover's: two positions with the same pieces on
    the same squares and different sides to move, neither of them a
    checkmate, and either both of them stalemates or neither, get scores
    that are the negation of each other (0 and 0 for two stalemates).
    When only one of the two is a stalemate its score is 0 and the other's
    is the material balance, so the condition on stalemate is needed. *)
Theorem evaluatePosition_other_side (b b' : Board) :
  (forall pos, getPieceAt b' pos = getPieceAt b pos) ->
  getSideToMove b' = opposite (getSideToMove b) ->
  isCheckmate b = false ->
  isCheckmate b' = false ->
  isStalemate b' = isStalemate b ->
  evaluatePosition b' = - evaluatePosition b.
Proof.
  intros Hpieces Hside Hmate Hmate' Hstale.
  assert (Hphase : isEndgame b' = isEndgame b).
  { unfold isEndgame.
    rewrite (fold_left_same_steps (endgameStep b') (endgameStep b)); [reflexivity|].
    intros acc pos. unfold endgameStep. now rewrite Hpieces. }
  unfold evaluatePosition.
  rewrite Hphase, Hmate, Hmate', Hstale, Hside.
  rewrite (fold_left_same_steps (evalStep (isEndgame b) b') (evalStep (isEndgame b) b));
    [|intros acc pos; unfold evalStep; now rewrite Hpieces].
  destruct (fold_left (evalStep (isEndgame b) b) allSquares (0, 0))
    as [whiteScore blackScore].
  destruct (isStalemate b); [reflexivity|].
  destruct (getSideToMove b); cbn [opposite]; lia.
Qed.

End EvaluationFacts.

Lemma usualConsts_values (t : PieceType) : 0 <= getPieceValue t <= 20000.
Proof. destruct t; vm_compute; split; discriminate. Qed.

Lemma evaluatePosition_bounded_witness :
  - Z.max 100000 (64 * (20000 + 50)) <= evaluatePosition hangingQueen
  <= Z.max 100000 (64 * (20000 + 50)).
Proof.
  apply (evaluatePosition_bounded hangingQueen 20000).
  exact usualConsts_values.
Defined.

Lemma queenTaken_no_queen (pos : Position) (p : Piece) :
  getPieceAt queenTaken pos = Some p -> getType p <> QUEEN.
Proof.
  cbn [getPieceAt GameNodeOps]. unfold nodePieceAt, queenTaken. cbn [pieces find fst snd].
  repeat (match goal with
          | |- context [if ?c then _ else _] => destruct c
          end; [intros Heq; injection Heq as <-; discriminate|]).
  discriminate.
Qed.

Lemma isEndgame_without_queens_witness : isEndgame queenTaken = true.
Proof.
  apply (isEndgame_without_queens queenTaken).
  exact queenTaken_no_queen.
Defined.

Lemma evaluatePosition_other_side_witness :
  evaluatePosition queenUpBlackToMove = - evaluatePosition queenUp.
Proof.
  apply (evaluatePosition_other_side queenUp queenUpBlackToMove); reflexivity.
Defined.

(* ===================================================================== *)
(** * Further properties of the quiescence search *)
(* ===================================================================== *)

Lemma withNodes_same {Board TT : Type} (e : Engine Board TT) :
  withNodes e (nodesSearched e) = e.
Proof. now destruct e. Qed.

Section QuiescenceFrame.
Context {Board TT : Type} `{BoardOps Board} `{TableOps TT} `{EngineConsts}.

Lemma quiescenceLoop_only_counts
    (search : Board -> Z -> Z -> Z -> Z -> Search Board TT Z)
    (board : Board) beta hashKey ply moves :
  (forall board' a b h p (e : Engine Board TT) r e',
      search board' a b h p e = Some (r, e') ->
      e' = withNodes e (nodesSearched e') /\ nodesSearched e < nodesSearched e') ->
  forall alpha e v e',
    quiescenceLoop search board beta hashKey ply moves alpha e = Some (v, e') ->
    e' = withNodes e (nodesSearched e') /\ nodesSearched e <= nodesSearched e'.
Proof.
  intros Hsearch.
  induction moves as [|[s move] rest IH]; intros alpha e v e' Hrun; simpl in Hrun.
  - injection Hrun as _ <-. split; [symmetry; apply withNodes_same|lia].
  - destruct (makeMove board move) as [board'|]; [|now apply IH in Hrun].
    unfold bind in Hrun.
    destruct (search board' (- beta) (- alpha) _ (ply + 1) e) as [[r e1]|] eqn:Hcall;
      [|discriminate].
    apply Hsearch in Hcall as [Hsame Hmore].
    destruct (beta <=? - r).
    + injection Hrun as _ <-. split; [exact Hsame|lia].
    + apply IH in Hrun as [Hsame' Hmore'].
      split; [|lia]. rewrite Hsame'. rewrite Hsame at 1. reflexivity.
Qed.

Lemma quiescenceSearch_only_counts (fuel : nat) :
  forall (board : Board) alpha beta hashKey ply (e : Engine Board TT) v e',
    quiescenceSearch fuel board alpha beta hashKey ply e = Some (v, e') ->
    e' = withNodes e (nodesSearched e') /\ nodesSearched e < nodesSearched e'.
Proof.
  induction fuel as [|fuel IH]; intros board alpha beta hashKey ply e v e' Hrun;
    [discriminate|].
  rewrite quiescenceSearch_step in Hrun. cbv zeta in Hrun.
  destruct (MAX_PLY - 1 <=? ply);
    [injection Hrun as _ <-; cbn [withNodes nodesSearched]; split; [reflexivity|lia]|].
  destruct (beta <=? evaluatePosition board);
    [injection Hrun as _ <-; cbn [withNodes nodesSearched]; split; [reflexivity|lia]|].
  destruct (scoreCaptures (S fuel) board ply _) as [scored|]; [|discriminate].
  apply (quiescenceLoop_only_counts (quiescenceSearch fuel)) in Hrun.
  - destruct Hrun as [Hsame Hmore]. cbn [withNodes nodesSearched] in Hmore.
    split; [|lia]. rewrite Hsame. reflexivity.
  - intros board' a b h p e0 r e0' Hcall. now apply IH in Hcall.
Qed.

(** X16.  A quiescence search changes nothing in the engine but the node
    counter, which it raises by at least one: the transposition table, the
    killer, counter-move and history tables and the principal variation
    are those it was called with. *)
Theorem quiescence_only_counts_nodes (fuel : nat) (board : Board)
    (alpha beta hashKey ply : Z) (e : Engine Board TT) (v : Z) (e' : Engine Board TT) :
  quiescenceSearch fuel board alpha beta hashKey ply e = Some (v, e') ->
  e' = withNodes e (nodesSearched e') /\ nodesSearched e < nodesSearched e'.
Proof.
  intros Hrun.
  exact (quiescenceSearch_only_counts fuel board alpha beta hashKey ply e v e' Hrun).
Qed.

(** X17.  Below the ply ceiling, on boards that obey [noOwnCapture] and
    whose moves start on pieces, here and on every position reached
    ([lawfulDownTo]), a quiescence search with a window
    [INT_MIN < alpha < beta <= INT_MAX] returns its window-free value
    clamped into the window: [alpha] when the value is at most [alpha],
    [beta] when it is at least [beta], the value itself in between.  The
    window-free value is never below the static evaluation (stand pat). *)
Theorem quiescence_is_clamped_value (fuel : nat) (board : Board)
    (alpha beta hashKey ply : Z) (e : Engine Board TT) :
  ply < MAX_PLY - 1 ->
  INT_MIN < alpha ->
  alpha < beta ->
  beta <= INT_MAX ->
  lawfulDownTo fuel board ->
  (Z.to_nat (MAX_PLY - 1 - ply) + 1 <= fuel)%nat ->
  exists q v e',
    quiesceValue fuel board ply = Some q
    /\ quiescenceSearch fuel board alpha beta hashKey ply e = Some (v, e')
    /\ v = Z.max alpha (Z.min beta q)
    /\ evaluatePosition board <= q.
Proof.
  intros Hply _ Hwin _ Hlaw Hfuel.
  pose proof (lawfulDownTo_rule fuel board Hlaw) as Hrule.
  destruct (quiesceValue_returns fuel board ply Hrule Hfuel) as [q Hq].
  destruct (quiescenceSearch_returns fuel board alpha beta hashKey ply e Hrule Hfuel)
    as (v & e' & Hrun).
  exists q, v, e'. split; [exact Hq|]. split; [exact Hrun|].
  pose proof (quiescence_value_in_window fuel board alpha beta hashKey ply e v e'
                Hply Hwin Hrun) as Hin.
  destruct (quiescence_approximates fuel board alpha beta hashKey ply e v e' q
              Hwin Hrun Hq) as (Hlow & Hhigh & Hexact).
  split.
  - destruct (Z.le_gt_cases q alpha) as [Hle|Hgt]; [specialize (Hlow Hle); lia|].
    destruct (Z.le_gt_cases beta q) as [Hge|Hlt]; [specialize (Hhigh Hge); lia|].
    rewrite (Hexact (conj Hgt Hlt)). lia.
  - destruct fuel as [|fuel]; [discriminate|].
    rewrite quiesceValue_step in Hq.
    destruct (Z.leb_spec (MAX_PLY - 1) ply); [lia|].
    destruct (scoreCaptures (S fuel) board ply _) as [scored|]; [|discriminate].
    now apply quiesceBest_at_least in Hq.
Qed.

End QuiescenceFrame.

Lemma quiescence_only_counts_nodes_witness :
  withNodes (freshEngine hangingQueen) 2
  = withNodes (freshEngine hangingQueen)
      (nodesSearched (withNodes (freshEngine hangingQueen) 2))
  /\ nodesSearched (freshEngine hangingQueen)
     < nodesSearched (withNodes (freshEngine hangingQueen) 2).
Proof.
  apply (quiescence_only_counts_nodes 64 hangingQueen (-100000) 100000 0 0
           (freshEngine hangingQueen) 125 (withNodes (freshEngine hangingQueen) 2)).
  vm_compute. reflexivity.
Defined.

Lemma quiescence_is_clamped_value_witness :
  exists q v e',
    quiesceValue 64 hangingQueen 0 = Some q
    /\ quiescenceSearch 64 hangingQueen 200 300 0 0 (freshEngine hangingQueen)
       = Some (v, e')
    /\ v = Z.max 200 (Z.min 300 q)
    /\ evaluatePosition hangingQueen <= q.
Proof.
  apply (quiescence_is_clamped_value 64 hangingQueen 200 300 0 0
           (freshEngine hangingQueen)).
  - reflexivity.
  - reflexivity.
  - reflexivity.
  - vm_compute. discriminate.
  - exact hangingQueen_lawful.
  - vm_compute. apply le_n.
Defined.

(* ===================================================================== *)
(** * Further properties of the principal variation search *)
(* ===================================================================== *)

Section NodeStep.
Context {Board TT : Type} `{BoardOps Board} `{TableOps TT} `{EngineConsts}.

(** One call of [pvSearch], written out. *)
Lemma pvSearch_step fuel (board : Board) depth alpha beta maximizingPlayer hashKey ply
    lastMove (e : Engine Board TT) :
  pvSearch (S fuel) board depth alpha beta maximizingPlayer hashKey ply lastMove e
  = let e1 := withNodes e (nodesSearched e + 1) in
    let probed := if 0 <? ply then probe (transpositionTable e) hashKey depth alpha beta
                  else (false, 0, noMove) in
    if fst (fst probed) then Some (snd (fst probed), [], e1)
    else if MAX_PLY - 1 <=? ply then Some (evaluatePosition board, [], e1)
    else if depth <=? 0 then
      match quiescenceSearch (S fuel) board alpha beta hashKey ply e1 with
      | Some (r, e2) => Some (r, [], e2)
      | None => None
      end
    else if isCheckmate board || isStalemate board
    then Some (evaluatePosition board, [], e1)
    else
      match generateLegalMoves board with
      | [] =>
          Some (if isInCheck board
                then (if maximizingPlayer then -100000 + ply else 100000 - ply)
                else 0, [], e1)
      | firstMove :: _ =>
          let extension :=
            if (Z.of_nat (length (generateLegalMoves board)) =? 1) && (2 <=? depth)
            then Z.max (if isInCheck board then 1 else 0) 1
            else if isInCheck board then 1 else 0 in
          match scoreMoves (S fuel) e1 board depth (snd probed) ply lastMove
                  (generateLegalMoves board) with
          | None => None
          | Some scored =>
              let start := mkVars alpha beta
                             (if maximizingPlayer then INT_MIN else INT_MAX)
                             firstMove [] false ALPHA in
              match (if maximizingPlayer
                     then maxLoop (pvSearch fuel) (S fuel) board depth hashKey ply
                            lastMove extension (sortScored scored) 0 start e1
                     else minLoop (pvSearch fuel) board depth hashKey ply lastMove
                            extension (sortScored scored) start e1) with
              | None => None
              | Some (v, e2) =>
                  Some (v_eval v, v_pv v,
                        withTable e2
                          (store (transpositionTable e2) hashKey depth (v_eval v)
                             (finalNodeType alpha (v_beta v) (v_eval v) (v_nodeType v))
                             (v_bestMove v)))
              end
          end
      end.
Proof.
  cbn [pvSearch]. unfold pvSearchNode, bind, modify, gets, ret.
  cbn [transpositionTable withNodes]. cbv zeta.
  destruct (fst (fst (if 0 <? ply then _ else _))); [reflexivity|].
  destruct (MAX_PLY - 1 <=? ply); [reflexivity|].
  destruct (depth <=? 0).
  { now destruct (quiescenceSearch (S fuel) board alpha beta hashKey ply _)
      as [[r e2]|]. }
  destruct (isCheckmate board || isStalemate board); [reflexivity|].
  destruct (generateLegalMoves board) as [|firstMove others] eqn:Hmoves.
  { now destruct (isInCheck board). }
  unfold liftOption.
  destruct (scoreMoves (S fuel) _ board depth _ ply lastMove (firstMove :: others))
    as [scored|]; [|reflexivity].
  unfold storeResult, bind, modify, ret.
  destruct maximizingPlayer.
  - now destruct (maxLoop _ _ _ _ _ _ _ _ _ _ _ _) as [[v e2]|].
  - now destruct (minLoop _ _ _ _ _ _ _ _ _ _) as [[v e2]|].
Qed.

Lemma moveExtensionOf_bound (board : Board) extension lastMove move :
  moveExtensionOf board extension lastMove move <= Z.max extension 1.
Proof.
  unfold moveExtensionOf.
  destruct (isValid (to lastMove) && pos_eqb (to move) (to lastMove));
    destruct (getPieceAt board (from move)) as [piece|]; try lia;
    destruct (isPawn (getType piece)); try lia;
    destruct (row (to move) =? _); lia.
Qed.

Lemma scoreMoves_listed fuel (e : Engine Board TT) (board : Board) depth ttMove ply
    lastMove moves :
  forall scored,
    scoreMoves fuel e board depth ttMove ply lastMove moves = Some scored ->
    forall sm, In sm scored -> In (snd sm) moves.
Proof.
  induction moves as [|move rest IH]; intros scored Hrun sm Hin; simpl in Hrun.
  - injection Hrun as <-. contradiction.
  - destruct (getMoveScore fuel e move board ttMove _ ply _ lastMove) as [moveScore|];
      [|discriminate].
    destruct (scoreMoves fuel e board depth ttMove ply lastMove rest) as [l|].
    + destruct (if 3 <=? depth then _ else _) as [[|]|]; try discriminate;
        injection Hrun as <-.
      * right. now apply (IH l).
      * destruct Hin as [<-|Hin]; [now left|right; now apply (IH l)].
    + destruct (if 3 <=? depth then _ else _) as [[|]|]; discriminate.
Qed.

End NodeStep.

(** ** What a search call leaves alone *)

Section Related.
Context {Board TT : Type} `{BoardOps Board} `{TableOps TT} `{EngineConsts}.

(** A relation between the engine before and after, kept by every update
    that the search makes as long as the depth is at most [D]. *)
Variable R : Engine Board TT -> Engine Board TT -> Prop.
Variable D : Z.
Hypothesis R_refl : forall e, R e e.
Hypothesis R_trans : forall e1 e2 e3, R e1 e2 -> R e2 e3 -> R e1 e3.
Hypothesis R_nodes : forall e n, nodesSearched e <= n -> R e (withNodes e n).
Hypothesis R_table : forall e t, R e (withTable e t).
Hypothesis R_killer : forall e move ply, R e (storeKillerMove e move ply).
Hypothesis R_counter : forall e lastMove move, R e (storeCounterMove e lastMove move).
Hypothesis R_history :
  forall e move depth color, 0 < depth <= D -> R e (updateHistoryScore e move depth color).

Lemma recordCutoff_related (board : Board) move depth ply lastMove
    (e : Engine Board TT) u e' :
  0 < depth <= D ->
  recordCutoff board move depth ply lastMove e = Some (u, e') ->
  R e e'.
Proof.
  intros Hdepth. unfold recordCutoff, ret, modify.
  destruct (getPieceAt board (to move)); intros Hrun; injection Hrun as _ <-.
  - apply R_refl.
  - apply (R_trans _ (storeKillerMove e move ply)); [apply R_killer|].
    destruct (isValid (from lastMove) && isValid (to lastMove)).
    + eapply R_trans; [apply R_history; exact Hdepth|apply R_counter].
    + apply R_history; exact Hdepth.
Qed.

Lemma searchChild_related (self : SearchFn) (board' : Board) depth ext alpha beta
    childMax newHashKey ply move foundPV (e : Engine Board TT) r e' :
  (forall a b (e0 : Engine Board TT) r0 e0',
      self board' (depth - 1 + ext) a b childMax newHashKey (ply + 1) move e0
      = Some (r0, e0') -> R e0 e0') ->
  searchChild self board' depth ext alpha beta childMax newHashKey ply move foundPV e
  = Some (r, e') ->
  R e e'.
Proof.
  intros Hself. destruct foundPV.
  - rewrite searchChild_later.
    destruct (self board' _ (- alpha - 1) _ _ _ _ _ e) as [[r1 e1]|] eqn:Hfirst;
      [|discriminate].
    apply Hself in Hfirst.
    destruct ((alpha <? - fst r1) && (- fst r1 <? beta)).
    + destruct (self board' _ (- beta) _ _ _ _ _ e1) as [[r2 e2]|] eqn:Hsecond;
        [|discriminate].
      apply Hself in Hsecond. intros Hrun. injection Hrun as _ <-.
      now apply (R_trans _ e1).
    + intros Hrun. now injection Hrun as _ <-.
  - rewrite searchChild_first.
    destruct (self board' _ (- beta) _ _ _ _ _ e) as [[r1 e1]|] eqn:Hfirst;
      [|discriminate].
    apply Hself in Hfirst. intros Hrun. now injection Hrun as _ <-.
Qed.

Lemma maxLoop_related (self : SearchFn) fuel (board : Board) depth hashKey ply lastMove
    extension moves :
  0 < depth <= D ->
  (forall board' d a b mx h p m (e0 : Engine Board TT) r0 e0',
      d <= depth - 1 + Z.max extension 1 ->
      self board' d a b mx h p m e0 = Some (r0, e0') -> R e0 e0') ->
  forall i v (e : Engine Board TT) v' e',
    maxLoop self fuel board depth hashKey ply lastMove extension moves i v e
    = Some (v', e') ->
    R e e'.
Proof.
  intros Hdepth Hself.
  induction moves as [|[s move] rest IH]; intros i v e v' e' Hrun.
  - injection Hrun as _ <-. apply R_refl.
  - rewrite maxLoop_step in Hrun.
    destruct (if negb (v_foundPV v) && (0 <? i) then _ else _); [|discriminate].
    destruct (makeMove board move) as [board'|]; [|now apply IH in Hrun].
    destruct (searchChild self board' depth _ _ _ _ _ _ _ _ e) as [[r e1]|] eqn:Hchild;
      [|discriminate].
    apply searchChild_related in Hchild;
      [|intros a b e0 r0 e0'; apply Hself;
        pose proof (moveExtensionOf_bound board extension lastMove move); lia].
    cbv zeta in Hrun.
    destruct (_ <=? _).
    + destruct (recordCutoff board move depth ply lastMove e1) as [[u e2]|] eqn:Hcut;
        [|discriminate].
      injection Hrun as _ <-.
      apply (R_trans _ e1); [exact Hchild|].
      now apply (recordCutoff_related board move depth ply lastMove e1 u e2).
    + apply IH in Hrun. now apply (R_trans _ e1).
Qed.

Lemma minLoop_related (self : SearchFn) (board : Board) depth hashKey ply lastMove
    extension moves :
  0 < depth <= D ->
  (forall board' d a b mx h p m (e0 : Engine Board TT) r0 e0',
      d <= depth - 1 + Z.max extension 1 ->
      self board' d a b mx h p m e0 = Some (r0, e0') -> R e0 e0') ->
  forall v (e : Engine Board TT) v' e',
    minLoop self board depth hashKey ply lastMove extension moves v e = Some (v', e') ->
    R e e'.
Proof.
  intros Hdepth Hself.
  induction moves as [|[s move] rest IH]; intros v e v' e' Hrun; simpl in Hrun.
  - injection Hrun as _ <-. apply R_refl.
  - destruct (makeMove board move) as [board'|]; [|now apply IH in Hrun].
    unfold bind in Hrun.
    destruct (searchChild self board' depth _ _ _ _ _ _ _ _ e) as [[r e1]|] eqn:Hchild;
      [|discriminate].
    apply searchChild_related in Hchild;
      [|intros a b e0 r0 e0'; apply Hself;
        pose proof (moveExtensionOf_bound board extension lastMove move); lia].
    destruct (_ <=? _).
    + destruct (recordCutoff board move depth ply lastMove e1) as [[u e2]|] eqn:Hcut;
        [|discriminate].
      unfold ret in Hrun. injection Hrun as _ <-.
      apply (R_trans _ e1); [exact Hchild|].
      now apply (recordCutoff_related board move depth ply lastMove e1 u e2).
    + apply IH in Hrun. now apply (R_trans _ e1).
Qed.

Lemma pvSearch_related_counted fuel :
  forall (board : Board) depth alpha beta maximizingPlayer hashKey ply lastMove
         (e : Engine Board TT) r e',
    depth <= D ->
    pvSearch fuel board depth alpha beta maximizingPlayer hashKey ply lastMove e
    = Some (r, e') ->
    R (withNodes e (nodesSearched e + 1)) e'.
Proof.
  induction fuel as [|fuel IH];
    intros board depth alpha beta maximizingPlayer hashKey ply lastMove e r e'
      Hdepth Hrun; [discriminate|].
  rewrite pvSearch_step in Hrun. cbv zeta in Hrun.
  destruct (fst (fst (if 0 <? ply then _ else _)));
    [injection Hrun as _ <-; apply R_refl|].
  destruct (MAX_PLY - 1 <=? ply); [injection Hrun as _ <-; apply R_refl|].
  destruct (Z.leb_spec depth 0) as [Hleaf|Hinner].
  { destruct (quiescenceSearch (S fuel) board alpha beta hashKey ply _)
      as [[q e2]|] eqn:Hq; [|discriminate].
    injection Hrun as _ <-.
    apply quiescenceSearch_only_counts in Hq as [Hsame Hmore].
    rewrite Hsame. apply R_nodes. lia. }
  destruct (isCheckmate board || isStalemate board);
    [injection Hrun as _ <-; apply R_refl|].
  destruct (generateLegalMoves board) as [|firstMove others];
    [injection Hrun as _ <-; apply R_refl|].
  destruct (scoreMoves (S fuel) _ board depth _ ply lastMove _) as [scored|];
    [|discriminate].
  assert (Hextension :
            (if (Z.of_nat (length (firstMove :: others)) =? 1) && (2 <=? depth)
             then Z.max (if isInCheck board then 1 else 0) 1
             else if isInCheck board then 1 else 0) <= 1)
    by (destruct (_ && _), (isInCheck board); lia).
  assert (Hself : forall board' d a b mx h p m (e0 : Engine Board TT) r0 e0',
             d <= depth - 1
                  + Z.max (if (Z.of_nat (length (firstMove :: others)) =? 1)
                              && (2 <=? depth)
                           then Z.max (if isInCheck board then 1 else 0) 1
                           else if isInCheck board then 1 else 0) 1 ->
             pvSearch fuel board' d a b mx h p m e0 = Some (r0, e0') -> R e0 e0').
  { intros board' d a b mx h p m e0 r0 e0' Hd Hcall.
    apply (R_trans _ (withNodes e0 (nodesSearched e0 + 1))); [apply R_nodes; lia|].
    apply (IH board' d a b mx h p m e0 r0 e0'); [lia|exact Hcall]. }
  destruct maximizingPlayer.
  - destruct (maxLoop _ _ _ _ _ _ _ _ _ _ _ _) as [[v e2]|] eqn:Hloop; [|discriminate].
    injection Hrun as _ <-.
    apply maxLoop_related in Hloop; [|lia|exact Hself].
    apply (R_trans _ _ _ Hloop). apply R_table.
  - destruct (minLoop _ _ _ _ _ _ _ _ _ _) as [[v e2]|] eqn:Hloop; [|discriminate].
    injection Hrun as _ <-.
    apply minLoop_related in Hloop; [|lia|exact Hself].
    apply (R_trans _ _ _ Hloop). apply R_table.
Qed.

Lemma pvSearch_related fuel (board : Board) depth alpha beta maximizingPlayer hashKey
    ply lastMove (e : Engine Board TT) r e' :
  depth <= D ->
  pvSearch fuel board depth alpha beta maximizingPlayer hashKey ply lastMove e
  = Some (r, e') ->
  R e e'.
Proof.
  intros Hdepth Hrun.
  apply (R_trans _ (withNodes e (nodesSearched e + 1))); [apply R_nodes; lia|].
  now apply (pvSearch_related_counted fuel board depth alpha beta maximizingPlayer
               hashKey ply lastMove e r e').
Qed.

End Related.

Section SearchFrame.
Context {Board TT : Type} `{BoardOps Board} `{TableOps TT} `{EngineConsts}.

Lemma searchFrame_refl (e : Engine Board TT) : searchFrame e e.
Proof. unfold searchFrame. repeat split; lia. Qed.

Lemma searchFrame_trans (e1 e2 e3 : Engine Board TT) :
  searchFrame e1 e2 -> searchFrame e2 e3 -> searchFrame e1 e3.
Proof.
  unfold searchFrame.
  intros (Hb & Hpv & Ht & Hd & Hn) (Hb' & Hpv' & Ht' & Hd' & Hn').
  repeat split; try congruence. lia.
Qed.

Lemma searchFrame_killer (e : Engine Board TT) move ply :
  searchFrame e (storeKillerMove e move ply).
Proof.
  unfold storeKillerMove.
  destruct (MAX_PLY <=? ply); [apply searchFrame_refl|].
  destruct (killersAt e ply) as [k0 k1].
  destruct (sameSquares k0 move); [apply searchFrame_refl|].
  unfold searchFrame. cbn. repeat split; lia.
Qed.

Lemma searchFrame_counter (e : Engine Board TT) lastMove move :
  searchFrame e (storeCounterMove e lastMove move).
Proof.
  unfold storeCounterMove.
  destruct (negb _ || negb _); [apply searchFrame_refl|].
  destruct (getPieceAt (gameBoard e) (to lastMove)); [|apply searchFrame_refl].
  unfold searchFrame. cbn. repeat split; lia.
Qed.

Lemma searchFrame_nodes (e : Engine Board TT) n :
  nodesSearched e <= n -> searchFrame e (withNodes e n).
Proof. intros Hn. unfold searchFrame. cbn. repeat split; lia. Qed.

Lemma pvSearch_counted_frame fuel (board : Board) depth alpha beta maximizingPlayer
    hashKey ply lastMove (e : Engine Board TT) r e' :
  pvSearch fuel board depth alpha beta maximizingPlayer hashKey ply lastMove e
  = Some (r, e') ->
  searchFrame (withNodes e (nodesSearched e + 1)) e'.
Proof.
  intros Hrun.
  apply (pvSearch_related_counted searchFrame depth searchFrame_refl
           searchFrame_trans) in Hrun; try assumption; try lia.
  - exact searchFrame_nodes.
  - intros e0 t. unfold searchFrame. cbn. repeat split; lia.
  - exact searchFrame_killer.
  - exact searchFrame_counter.
  - intros e0 move d color _. unfold searchFrame. cbn. repeat split; lia.
Qed.

(** X18.  A call of [pvSearch] counts at least one node and leaves the
    game board, the principal variation, the per-depth lines and the depth
    member of the engine as they were: the line of the previous iteration
    is the one that [isPVMove] is asked about throughout the search. *)
Theorem pvSearch_frame (fuel : nat) (board : Board) (depth alpha beta : Z)
    (maximizingPlayer : bool) (hashKey ply : Z) (lastMove : Move)
    (e : Engine Board TT) (r : Z * list Move) (e' : Engine Board TT) :
  pvSearch fuel board depth alpha beta maximizingPlayer hashKey ply lastMove e
  = Some (r, e') ->
  searchFrame e e' /\ nodesSearched e < nodesSearched e'.
Proof.
  intros Hrun.
  destruct (pvSearch_counted_frame _ _ _ _ _ _ _ _ _ _ _ _ Hrun)
    as (Hb & Hpv & Ht & Hd & Hn).
  cbn [withNodes gameBoard principalVariation pvTable curDepth nodesSearched] in *.
  unfold searchFrame. repeat split; try assumption; lia.
Qed.

(** X19.  A search to a depth of at most 100 keeps the history scores in
    [0, 10000]: every bonus it adds on a cutoff is the square of a depth
    between 1 and the depth of the call, since no extension raises the
    depth of a child above that of its parent. *)
Theorem pvSearch_keeps_history_bounded (fuel : nat) (board : Board)
    (depth alpha beta : Z) (maximizingPlayer : bool) (hashKey ply : Z) (lastMove : Move)
    (e : Engine Board TT) (r : Z * list Move) (e' : Engine Board TT) :
  depth <= 100 ->
  historyBounded e ->
  pvSearch fuel board depth alpha beta maximizingPlayer hashKey ply lastMove e
  = Some (r, e') ->
  historyBounded e'.
Proof.
  intros Hdepth Hbound Hrun.
  apply (pvSearch_related (fun e0 e1 => historyBounded e0 -> historyBounded e1) 100)
    in Hrun; try assumption; try (now auto).
  - intros e0 move ply0. unfold storeKillerMove.
    destruct (MAX_PLY <=? ply0); [now auto|].
    destruct (killersAt e0 ply0) as [k0 k1].
    destruct (sameSquares k0 move); now auto.
  - intros e0 last move. unfold storeCounterMove.
    destruct (negb _ || negb _); [now auto|].
    destruct (getPieceAt (gameBoard e0) (to last)); now auto.
  - intros e0 move d color Hd Hb k.
    unfold updateHistoryScore, withHistory. cbn [historyTable].
    apply updateHistoryTable_bounded; [exact Hb|nia].
Qed.

End SearchFrame.

(** ** The line that a search returns *)

Section LineFacts.
Context {Board TT : Type} `{BoardOps Board} `{TableOps TT} `{EngineConsts}.

Lemma searchChild_line (self : SearchFn) (board' : Board) depth ext alpha beta
    childMax newHashKey ply move foundPV (e : Engine Board TT) r e' :
  (forall a b (e0 : Engine Board TT) r0 e0',
      self board' (depth - 1 + ext) a b childMax newHashKey (ply + 1) move e0
      = Some (r0, e0') -> legalLine board' (snd r0)) ->
  searchChild self board' depth ext alpha beta childMax newHashKey ply move foundPV e
  = Some (r, e') ->
  legalLine board' (snd r).
Proof.
  intros Hself. destruct foundPV.
  - rewrite searchChild_later.
    destruct (self board' _ (- alpha - 1) _ _ _ _ _ e) as [[r1 e1]|] eqn:Hfirst;
      [|discriminate].
    apply Hself in Hfirst.
    destruct ((alpha <? - fst r1) && (- fst r1 <? beta)).
    + destruct (self board' _ (- beta) _ _ _ _ _ e1) as [[r2 e2]|] eqn:Hsecond;
        [|discriminate].
      apply Hself in Hsecond. intros Hrun. now injection Hrun as <- _.
    + intros Hrun. now injection Hrun as <- _.
  - rewrite searchChild_first.
    destruct (self board' _ (- beta) _ _ _ _ _ e) as [[r1 e1]|] eqn:Hfirst;
      [|discriminate].
    apply Hself in Hfirst. intros Hrun. now injection Hrun as <- _.
Qed.

Lemma maxLoop_line (self : SearchFn) fuel (board : Board) depth hashKey ply lastMove
    extension moves :
  (forall board' d a b mx h p m (e0 : Engine Board TT) r0 e0',
      self board' d a b mx h p m e0 = Some (r0, e0') -> legalLine board' (snd r0)) ->
  (forall sm, In sm moves -> In (snd sm) (generateLegalMoves board)) ->
  forall i v (e : Engine Board TT) v' e',
    legalLine board (v_pv v) ->
    maxLoop self fuel board depth hashKey ply lastMove extension moves i v e
    = Some (v', e') ->
    legalLine board (v_pv v').
Proof.
  intros Hself.
  induction moves as [|[s move] rest IH]; intros Hlisted i v e v' e' Hline Hrun.
  - now injection Hrun as <- _.
  - assert (Hrest : forall sm, In sm rest -> In (snd sm) (generateLegalMoves board))
      by (intros sm Hin; apply Hlisted; now right).
    rewrite maxLoop_step in Hrun.
    destruct (if negb (v_foundPV v) && (0 <? i) then _ else _); [|discriminate].
    destruct (makeMove board move) as [board'|] eqn:Hmade;
      [|now apply (IH Hrest) in Hrun].
    destruct (searchChild self board' depth _ _ _ _ _ _ _ _ e) as [[r e1]|] eqn:Hchild;
      [|discriminate].
    apply searchChild_line in Hchild; [|intros a b e0 r0 e0'; apply Hself].
    assert (Hnew : legalLine board (move :: snd r)).
    { split; [apply (Hlisted (s, move)); now left|]. now exists board'. }
    cbv zeta in Hrun.
    destruct (v_eval v <? fst r);
      cbn [v_alpha v_beta v_eval v_bestMove v_pv v_foundPV v_nodeType] in Hrun;
      destruct (_ <=? _);
      try (destruct (recordCutoff board move depth ply lastMove e1) as [[u e2]|];
           [|discriminate]; now injection Hrun as <- _);
      now apply (IH Hrest) in Hrun.
Qed.

Lemma minLoop_line (self : SearchFn) (board : Board) depth hashKey ply lastMove
    extension moves :
  (forall board' d a b mx h p m (e0 : Engine Board TT) r0 e0',
      self board' d a b mx h p m e0 = Some (r0, e0') -> legalLine board' (snd r0)) ->
  (forall sm, In sm moves -> In (snd sm) (generateLegalMoves board)) ->
  forall v (e : Engine Board TT) v' e',
    legalLine board (v_pv v) ->
    minLoop self board depth hashKey ply lastMove extension moves v e = Some (v', e') ->
    legalLine board (v_pv v').
Proof.
  intros Hself.
  induction moves as [|[s move] rest IH]; intros Hlisted v e v' e' Hline Hrun;
    simpl in Hrun.
  - now injection Hrun as <- _.
  - assert (Hrest : forall sm, In sm rest -> In (snd sm) (generateLegalMoves board))
      by (intros sm Hin; apply Hlisted; now right).
    destruct (makeMove board move) as [board'|] eqn:Hmade;
      [|now apply (IH Hrest) in Hrun].
    unfold bind in Hrun.
    destruct (searchChild self board' depth _ _ _ _ _ _ _ _ e) as [[r e1]|] eqn:Hchild;
      [|discriminate].
    apply searchChild_line in Hchild; [|intros a b e0 r0 e0'; apply Hself].
    assert (Hnew : legalLine board (move :: snd r)).
    { split; [apply (Hlisted (s, move)); now left|]. now exists board'. }
    destruct (fst r <? v_eval v);
      cbn [v_alpha v_beta v_eval v_bestMove v_pv v_foundPV v_nodeType] in Hrun;
      destruct (_ <=? _);
      try (destruct (recordCutoff board move depth ply lastMove e1) as [[u e2]|];
           [|discriminate]; unfold ret in Hrun; now injection Hrun as <- _);
      now apply (IH Hrest) in Hrun.
Qed.

Lemma pvSearch_line (fuel : nat) :
  forall (board : Board) (depth alpha beta : Z) (maximizingPlayer : bool)
         (hashKey ply : Z) (lastMove : Move) (e : Engine Board TT)
         (r : Z * list Move) (e' : Engine Board TT),
    pvSearch fuel board depth alpha beta maximizingPlayer hashKey ply lastMove e
    = Some (r, e') ->
    legalLine board (snd r).
Proof.
  induction fuel as [|fuel IH];
    intros board depth alpha beta maximizingPlayer hashKey ply lastMove e r e' Hrun;
    [discriminate|].
  rewrite pvSearch_step in Hrun. cbv zeta in Hrun.
  destruct (fst (fst (if 0 <? ply then _ else _)));
    [injection Hrun as <- _; exact I|].
  destruct (MAX_PLY - 1 <=? ply); [injection Hrun as <- _; exact I|].
  destruct (depth <=? 0).
  { destruct (quiescenceSearch (S fuel) board alpha beta hashKey ply _)
      as [[q e2]|]; [|discriminate].
    injection Hrun as <- _. exact I. }
  destruct (isCheckmate board || isStalemate board);
    [injection Hrun as <- _; exact I|].
  destruct (generateLegalMoves board) as [|firstMove others] eqn:Hmoves;
    [injection Hrun as <- _; exact I|].
  destruct (scoreMoves (S fuel) _ board depth _ ply lastMove _) as [scored|] eqn:Hscored;
    [|discriminate].
  assert (Hlisted : forall sm, In sm (sortScored scored) ->
                               In (snd sm) (generateLegalMoves board)).
  { intros sm Hin. apply (proj1 (sortScored_In sm scored)) in Hin.
    rewrite Hmoves. now apply (scoreMoves_listed _ _ _ _ _ _ _ _ _ Hscored). }
  destruct maximizingPlayer.
  - destruct (maxLoop _ _ _ _ _ _ _ _ _ _ _ _) as [[v e2]|] eqn:Hloop; [|discriminate].
    injection Hrun as <- _. cbn [snd].
    apply maxLoop_line in Hloop; [exact Hloop| |exact Hlisted|exact I].
    intros board' d a b mx h p m e0 r0 e0' Hcall. now apply IH in Hcall.
  - destruct (minLoop _ _ _ _ _ _ _ _ _ _) as [[v e2]|] eqn:Hloop; [|discriminate].
    injection Hrun as <- _. cbn [snd].
    apply minLoop_line in Hloop; [exact Hloop| |exact Hlisted|exact I].
    intros board' d a b mx h p m e0 r0 e0' Hcall. now apply IH in Hcall.
Qed.

(** X20.  The line that [pvSearch] returns can be played: its first move
    is a legal move of the searched position that the board accepts, and
    each following move is one of the position reached by the moves before
    it.  (The line may be empty or shorter than the depth: a table hit, a
    leaf and a terminal position return an empty line.) *)
Theorem pvSearch_line_is_playable (fuel : nat) (board : Board) (depth alpha beta : Z)
    (maximizingPlayer : bool) (hashKey ply : Z) (lastMove : Move)
    (e : Engine Board TT) (score : Z) (line : list Move) (e' : Engine Board TT) :
  pvSearch fuel board depth alpha beta maximizingPlayer hashKey ply lastMove e
  = Some (score, line, e') ->
  legalLine board line.
Proof.
  intros Hrun.
  exact (pvSearch_line fuel board depth alpha beta maximizingPlayer hashKey ply lastMove
           e (score, line) e' Hrun).
Qed.

End LineFacts.

(** ** The search returns *)

Section Termination.
Context {Board TT : Type} `{BoardOps Board} `{TableOps TT} `{EngineConsts}.

Lemma scoreMoves_returns fuel (e : Engine Board TT) (board : Board) depth ttMove ply
    lastMove moves :
  noOwnCapture board ->
  (forall move, In move moves -> exists p, getPieceAt board (from move) = Some p) ->
  exists scored,
    scoreMoves (S (S fuel)) e board depth ttMove ply lastMove moves = Some scored.
Proof.
  intros Hrule.
  induction moves as [|move rest IH]; intros Hfrom; simpl.
  - now eexists.
  - destruct (Hfrom move (or_introl eq_refl)) as [p Hp].
    destruct (getMoveScore_returns fuel e move board ttMove (principalVariation e) ply
                (getSideToMove board) lastMove p Hrule Hp) as [s ->].
    destruct IH as [scored ->]; [intros m Hin; apply Hfrom; now right|].
    destruct (3 <=? depth); [|now eexists].
    destruct (getPieceAt board (to move)); [|now eexists].
    destruct (seeCapture_returns board fuel move Hrule) as [seeScore ->].
    destruct (seeScore <? - PAWN_VALUE * 2); now eexists.
Qed.

Lemma recordCutoff_returns (board : Board) move depth ply lastMove
    (e : Engine Board TT) :
  exists u e', recordCutoff board move depth ply lastMove e = Some (u, e').
Proof.
  unfold recordCutoff, ret, modify.
  destruct (getPieceAt board (to move)); now do 2 eexists.
Qed.

Lemma searchChild_returns (self : SearchFn) (board' : Board) depth ext alpha beta
    childMax newHashKey ply move foundPV (e : Engine Board TT) :
  (forall d a b mx h m (e0 : Engine Board TT),
      exists r0 e0', self board' d a b mx h (ply + 1) m e0 = Some (r0, e0')) ->
  exists r e',
    searchChild self board' depth ext alpha beta childMax newHashKey ply move foundPV e
    = Some (r, e').
Proof.
  intros Hself. destruct foundPV.
  - rewrite searchChild_later.
    destruct (Hself (depth - 1 + ext) (- alpha - 1) (- alpha) childMax newHashKey
                move e) as (r1 & e1 & ->).
    destruct ((alpha <? - fst r1) && (- fst r1 <? beta)); [|now do 2 eexists].
    destruct (Hself (depth - 1 + ext) (- beta) (- alpha) childMax newHashKey
                move e1) as (r2 & e2 & ->).
    now do 2 eexists.
  - rewrite searchChild_first.
    destruct (Hself (depth - 1 + ext) (- beta) (- alpha) childMax newHashKey
                move e) as (r1 & e1 & ->).
    now do 2 eexists.
Qed.

Lemma maxLoop_returns (self : SearchFn) fuel (board : Board) depth hashKey ply lastMove
    extension moves :
  noOwnCapture board ->
  (forall move board' d a b mx h m (e0 : Engine Board TT),
      makeMove board move = Some board' ->
      exists r0 e0', self board' d a b mx h (ply + 1) m e0 = Some (r0, e0')) ->
  forall i v (e : Engine Board TT),
    exists v' e',
      maxLoop self (S (S fuel)) board depth hashKey ply lastMove extension moves i v e
      = Some (v', e').
Proof.
  intros Hrule Hself.
  induction moves as [|[s move] rest IH]; intros i v e.
  - now do 2 eexists.
  - rewrite maxLoop_step.
    assert (Hadjust : exists a,
               (if negb (v_foundPV v) && (0 <? i)
                then getDepthAdjustment (S (S fuel)) move board
                       (isPVMove move (principalVariation e) ply) i
                else Some 0) = Some a).
    { destruct (negb (v_foundPV v) && (0 <? i)); [|now eexists].
      now apply getDepthAdjustment_returns. }
    destruct Hadjust as [a ->].
    destruct (makeMove board move) as [board'|] eqn:Hmade; [|apply IH].
    destruct (searchChild_returns self board' depth
                (moveExtensionOf board extension lastMove move) (v_alpha v) (v_beta v)
                false (updateHashKey hashKey move board') ply move (v_foundPV v) e)
      as (r & e1 & ->); [intros; now apply (Hself move)|].
    cbv zeta.
    destruct (_ <=? _); [|apply IH].
    destruct (recordCutoff_returns board move depth ply lastMove e1) as (u & e2 & ->).
    now do 2 eexists.
Qed.

Lemma minLoop_returns (self : SearchFn) (board : Board) depth hashKey ply lastMove
    extension moves :
  (forall move board' d a b mx h m (e0 : Engine Board TT),
      makeMove board move = Some board' ->
      exists r0 e0', self board' d a b mx h (ply + 1) m e0 = Some (r0, e0')) ->
  forall v (e : Engine Board TT),
    exists v' e',
      minLoop self board depth hashKey ply lastMove extension moves v e = Some (v', e').
Proof.
  intros Hself.
  induction moves as [|[s move] rest IH]; intros v e; simpl.
  - unfold ret. now do 2 eexists.
  - destruct (makeMove board move) as [board'|] eqn:Hmade; [|apply IH].
    unfold bind.
    destruct (searchChild_returns self board' depth
                (moveExtensionOf board extension lastMove move) (v_alpha v) (v_beta v)
                true (updateHashKey hashKey move board') ply move (v_foundPV v) e)
      as (r & e1 & ->); [intros; now apply (Hself move)|].
    destruct (_ <=? _); [|apply IH].
    destruct (recordCutoff_returns board move depth ply lastMove e1) as (u & e2 & ->).
    unfold ret. now do 2 eexists.
Qed.

Lemma pvSearch_returns_lawful (fuel : nat) :
  forall (board : Board) (depth alpha beta : Z) (maximizingPlayer : bool)
         (hashKey ply : Z) (lastMove : Move) (e : Engine Board TT),
    lawfulDownTo fuel board ->
    (Z.to_nat (MAX_PLY - 1 - ply) + 1 <= fuel)%nat ->
    exists r e',
      pvSearch fuel board depth alpha beta maximizingPlayer hashKey ply lastMove e
      = Some (r, e').
Proof.
  induction fuel as [|fuel IH];
    intros board depth alpha beta maximizingPlayer hashKey ply lastMove e Hlaw Hfuel;
    [lia|].
  rewrite pvSearch_step. cbv zeta.
  destruct (fst (fst (if 0 <? ply then _ else _))); [now do 2 eexists|].
  destruct (Z.leb_spec (MAX_PLY - 1) ply); [now do 2 eexists|].
  destruct (depth <=? 0).
  { destruct (quiescenceSearch_returns (S fuel) board alpha beta hashKey ply
                (withNodes e (nodesSearched e + 1))
                (lawfulDownTo_rule _ _ Hlaw) Hfuel) as (q & e2 & ->).
    now do 2 eexists. }
  destruct (isCheckmate board || isStalemate board); [now do 2 eexists|].
  destruct Hlaw as (Hrule & Hfrom & Hbelow).
  destruct (generateLegalMoves board) as [|firstMove others] eqn:Hmoves;
    [now do 2 eexists|].
  destruct fuel as [|fuel]; [lia|].
  destruct (scoreMoves_returns fuel (withNodes e (nodesSearched e + 1)) board depth
              (snd (if 0 <? ply
                    then probe (transpositionTable e) hashKey depth alpha beta
                    else (false, 0, noMove)))
              ply lastMove (firstMove :: others) Hrule)
    as [scored ->].
  { intros move Hin. apply Hfrom. now rewrite Hmoves. }
  assert (Hself : forall move board' d a b mx h m (e0 : Engine Board TT),
             makeMove board move = Some board' ->
             exists r0 e0',
               pvSearch (S fuel) board' d a b mx h (ply + 1) m e0 = Some (r0, e0')).
  { intros move board' d a b mx h m e0 Hmade.
    apply IH; [now apply (Hbelow move)|lia]. }
  destruct maximizingPlayer.
  - destruct (maxLoop_returns (pvSearch (S fuel)) fuel board depth hashKey ply lastMove
                (if (Z.of_nat (length (firstMove :: others)) =? 1) && (2 <=? depth)
                 then Z.max (if isInCheck board then 1 else 0) 1
                 else if isInCheck board then 1 else 0)
                (sortScored scored) Hrule Hself 0
                (mkVars alpha beta INT_MIN firstMove [] false ALPHA)
                (withNodes e (nodesSearched e + 1))) as (v & e2 & ->).
    now do 2 eexists.
  - destruct (minLoop_returns (pvSearch (S fuel)) board depth hashKey ply lastMove
                (if (Z.of_nat (length (firstMove :: others)) =? 1) && (2 <=? depth)
                 then Z.max (if isInCheck board then 1 else 0) 1
                 else if isInCheck board then 1 else 0)
                (sortScored scored) Hself
                (mkVars alpha beta INT_MAX firstMove [] false ALPHA)
                (withNodes e (nodesSearched e + 1))) as (v & e2 & ->).
    now do 2 eexists.
Qed.

(** X21.  The search returns at every depth: on positions that obey
    [noOwnCapture] and whose legal moves start on occupied squares,
    [pvSearch] returns a score and a line for any depth, window, role and
    transposition table, and the calls nest no deeper than the plies left
    below the ceiling [MAX_PLY - 1] plus one, however the extensions keep
    the depth from falling. *)
Theorem pvSearch_returns (fuel : nat) (board : Board) (depth alpha beta : Z)
    (maximizingPlayer : bool) (hashKey ply : Z) (lastMove : Move)
    (e : Engine Board TT) :
  lawfulDownTo fuel board ->
  (Z.to_nat (MAX_PLY - 1 - ply) + 1 <= fuel)%nat ->
  exists score line e',
    pvSearch fuel board depth alpha beta maximizingPlayer hashKey ply lastMove e
    = Some (score, line, e').
Proof.
  intros Hlaw Hfuel.
  destruct (pvSearch_returns_lawful fuel board depth alpha beta maximizingPlayer hashKey
              ply lastMove e Hlaw Hfuel) as ([score line] & e' & Hrun).
  now exists score, line, e'.
Qed.


End Termination.

(** The hypotheses on written-out positions. *)

Lemma fiveMoves_lawful : lawfulDownTo 65 fiveMoves.
Proof. apply obeysLawDownTo_sound. vm_compute. reflexivity. Qed.

Lemma freshEngine_historyBounded (b : GameNode) : historyBounded (freshEngine b).
Proof.
  intros k. unfold histAt. cbn [freshEngine historyTable].
  rewrite lookup_empty. simpl. lia.
Qed.

Lemma pvSearch_frame_witness :
  exists r e',
    pvSearch 65 fiveMoves 2 (-1000000) 1000000 true 0 0 noMove (freshEngine fiveMoves)
    = Some (r, e')
    /\ searchFrame (freshEngine fiveMoves) e'
    /\ nodesSearched (freshEngine fiveMoves) < nodesSearched e'.
Proof.
  destruct (pvSearch 65 fiveMoves 2 (-1000000) 1000000 true 0 0 noMove
              (freshEngine fiveMoves)) as [[r e']|] eqn:Hrun.
  - exists r, e'. split; [reflexivity|].
    exact (pvSearch_frame 65 fiveMoves 2 (-1000000) 1000000 true 0 0 noMove
             (freshEngine fiveMoves) r e' Hrun).
  - vm_compute in Hrun. discriminate.
Defined.

Lemma pvSearch_keeps_history_bounded_witness :
  exists r e',
    pvSearch 65 fiveMoves 2 (-1000000) 1000000 true 0 0 noMove (freshEngine fiveMoves)
    = Some (r, e')
    /\ historyBounded e'.
Proof.
  destruct (pvSearch 65 fiveMoves 2 (-1000000) 1000000 true 0 0 noMove
              (freshEngine fiveMoves)) as [[r e']|] eqn:Hrun.
  - exists r, e'. split; [reflexivity|].
    apply (pvSearch_keeps_history_bounded 65 fiveMoves 2 (-1000000) 1000000 true 0 0
             noMove (freshEngine fiveMoves) r e').
    + lia.
    + exact (freshEngine_historyBounded fiveMoves).
    + exact Hrun.
  - vm_compute in Hrun. discriminate.
Defined.

Lemma pvSearch_line_is_playable_witness :
  exists score line e',
    pvSearch 65 fiveMoves 2 (-1000000) 1000000 true 0 0 noMove (freshEngine fiveMoves)
    = Some (score, line, e')
    /\ line <> []
    /\ legalLine fiveMoves line.
Proof.
  destruct (pvSearch 65 fiveMoves 2 (-1000000) 1000000 true 0 0 noMove
              (freshEngine fiveMoves)) as [[[score line] e']|] eqn:Hrun.
  - exists score, line, e'. split; [reflexivity|]. split.
    + vm_compute in Hrun. injection Hrun as _ <- _. discriminate.
    + exact (pvSearch_line_is_playable 65 fiveMoves 2 (-1000000) 1000000 true 0 0
               noMove (freshEngine fiveMoves) score line e' Hrun).
  - vm_compute in Hrun. discriminate.
Defined.

Lemma pvSearch_returns_witness :
  exists score line e',
    pvSearch 65 fiveMoves 3 (-1000000) 1000000 true 0 0 noMove (freshEngine fiveMoves)
    = Some (score, line, e').
Proof.
  apply (pvSearch_returns 65 fiveMoves 3 (-1000000) 1000000 true 0 0 noMove
           (freshEngine fiveMoves)).
  - exact fiveMoves_lawful.
  - vm_compute. lia.
Defined.


(* ===================================================================== *)
(** * The iterative-deepening driver *)
(* ===================================================================== *)

Section DriverFacts.
Context {Board TT : Type} `{BoardOps Board} `{TableOps TT} `{EngineConsts}.

Lemma deepen_step fuel (board : Board) alpha beta hashKey depth rest bestMove bestScore
    log (e : Engine Board TT) :
  deepen fuel board alpha beta hashKey (depth :: rest) bestMove bestScore log e
  = match pvSearch fuel board depth alpha beta (color_eqb (getSideToMove board) WHITE)
            hashKey 0 noMove e with
    | None => None
    | Some (r, e1) =>
        match snd r with
        | [] =>
            deepen fuel board alpha beta hashKey rest bestMove bestScore
              (mkLog (nodesSearched e) bestMove bestScore) e1
        | first :: _ =>
            deepen fuel board alpha beta hashKey rest first (fst r)
              (mkLog (nodesSearched e) bestMove bestScore)
              (storePV (withPV e1 (snd r)) depth (snd r))
        end
    end.
Proof.
  cbn [deepen]. unfold bind, gets, modify.
  destruct (pvSearch fuel board depth alpha beta _ hashKey 0 noMove e) as [[r e1]|];
    [|reflexivity].
  now destruct (snd r).
Qed.

Lemma deepen_line fuel (board : Board) alpha beta hashKey depths :
  forall bestMove bestScore log (e : Engine Board TT) move log' e',
    (bestMove = noMove /\ principalVariation e = []
     \/ exists rest, principalVariation e = bestMove :: rest
                     /\ legalLine board (bestMove :: rest)) ->
    deepen fuel board alpha beta hashKey depths bestMove bestScore log e
    = Some (move, log', e') ->
    move = noMove /\ principalVariation e' = []
    \/ exists rest, principalVariation e' = move :: rest
                    /\ legalLine board (move :: rest).
Proof.
  induction depths as [|depth rest IH];
    intros bestMove bestScore log e move log' e' Hinv Hrun.
  - injection Hrun as <- _ <-. exact Hinv.
  - rewrite deepen_step in Hrun.
    destruct (pvSearch fuel board depth alpha beta _ hashKey 0 noMove e)
      as [[r e1]|] eqn:Hsearch; [|discriminate].
    pose proof (pvSearch_line _ _ _ _ _ _ _ _ _ _ _ _ Hsearch) as Hline.
    destruct (pvSearch_counted_frame _ _ _ _ _ _ _ _ _ _ _ _ Hsearch)
      as (_ & Hpv & _).
    cbn [withNodes principalVariation] in Hpv.
    destruct (snd r) as [|first others] eqn:Hr.
    + apply IH in Hrun; [exact Hrun|]. now rewrite Hpv.
    + apply IH in Hrun; [exact Hrun|].
      right. exists others. split; [reflexivity|exact Hline].
Qed.

(** The loop over two lists of depths is the loop over the first followed
    by the loop over the second, entered with the move and the score that
    the first has reached. *)
Lemma deepen_app fuel (board : Board) alpha beta hashKey depths later :
  forall bestMove bestScore log (e : Engine Board TT) move log' e',
    deepen fuel board alpha beta hashKey (depths ++ later) bestMove bestScore log e
    = Some (move, log', e') ->
    exists moveMid scoreMid logMid eMid,
      deepen fuel board alpha beta hashKey depths bestMove bestScore log e
      = Some (moveMid, logMid, eMid)
      /\ deepen fuel board alpha beta hashKey later moveMid scoreMid logMid eMid
         = Some (move, log', e').
Proof.
  induction depths as [|depth rest IH];
    intros bestMove bestScore log e move log' e' Hrun.
  - exists bestMove, bestScore, log, e. split; [reflexivity|exact Hrun].
  - rewrite <- app_comm_cons, deepen_step in Hrun.
    destruct (pvSearch fuel board depth alpha beta _ hashKey 0 noMove e)
      as [[r e1]|] eqn:Hsearch; [|discriminate].
    destruct (snd r) as [|first others] eqn:Hr;
      apply IH in Hrun as (moveMid & scoreMid & logMid & eMid & Hfirst & Hrest);
      exists moveMid, scoreMid, logMid, eMid;
      (split; [rewrite deepen_step, Hsearch, Hr; exact Hfirst|exact Hrest]).
Qed.

Lemma depthsUpTo_last (maxDepth : Z) :
  1 <= maxDepth -> depthsUpTo maxDepth = depthsUpTo (maxDepth - 1) ++ [maxDepth].
Proof.
  intros Hdepth. unfold depthsUpTo.
  replace (Z.to_nat maxDepth) with (S (Z.to_nat (maxDepth - 1))) by lia.
  rewrite List.seq_S, List.map_app. cbn [map]. f_equal. f_equal. lia.
Qed.

(** X23.  The move that the driver returns is the first move of the line
    it leaves as principal variation, and that line can be played from the
    root: the move is a legal move of the root position that the board
    accepts; with no line left, the move is the unset one.  Which line
    that is: for [maxDepth] of 1 or more, the driver has done what it does
    for [maxDepth - 1] and then searched to depth [maxDepth]; when that
    search gives a line that is not empty, the driver returns the first
    move of it and leaves it as principal variation; when it gives the
    empty line, the driver returns the move and leaves the principal
    variation that it has for [maxDepth - 1]. *)
Theorem iterativeDeepening_move_is_playable (fuel : nat) (board : Board)
    (maxDepth hashKey alpha beta : Z) (log : IterationLog) (e : Engine Board TT)
    (move : Move) (log' : IterationLog) (e' : Engine Board TT) :
  iterativeDeepeningSearch fuel board maxDepth hashKey alpha beta log e
  = Some (move, log', e') ->
  (move = noMove /\ principalVariation e' = []
   \/ exists rest, principalVariation e' = move :: rest
                   /\ legalLine board (move :: rest))
  /\ (1 <= maxDepth ->
      exists movePrev logPrev ePrev score line eSearched,
        iterativeDeepeningSearch fuel board (maxDepth - 1) hashKey alpha beta log e
        = Some (movePrev, logPrev, ePrev)
        /\ pvSearch fuel board maxDepth alpha beta
             (color_eqb (getSideToMove board) WHITE) hashKey 0 noMove ePrev
           = Some (score, line, eSearched)
        /\ match line with
           | [] =>
               move = movePrev
               /\ e' = eSearched
               /\ principalVariation e' = principalVariation ePrev
           | first :: _ =>
               move = first
               /\ e' = storePV (withPV eSearched line) maxDepth line
               /\ principalVariation e' = line
           end).
Proof.
  unfold iterativeDeepeningSearch, bind, modify. intros Hrun. split.
  - apply deepen_line in Hrun; [exact Hrun|].
    left. now split.
  - intros Hdepth. rewrite (depthsUpTo_last maxDepth Hdepth) in Hrun.
    apply deepen_app in Hrun as (movePrev & scorePrev & logPrev & ePrev & Hprev & Hlast).
    rewrite deepen_step in Hlast.
    destruct (pvSearch fuel board maxDepth alpha beta _ hashKey 0 noMove ePrev)
      as [[[score line] eSearched]|] eqn:Hsearch; [|discriminate].
    exists movePrev, logPrev, ePrev, score, line, eSearched.
    split; [exact Hprev|]. split; [exact Hsearch|].
    destruct (pvSearch_counted_frame _ _ _ _ _ _ _ _ _ _ _ _ Hsearch) as (_ & Hpv & _).
    cbn [withNodes principalVariation] in Hpv.
    cbn [snd fst] in Hlast. destruct line as [|first others]; cbn [deepen] in Hlast;
      unfold ret in Hlast; injection Hlast as <- _ <-.
    + repeat split. exact Hpv.
    + repeat split.
Qed.

Lemma deepen_returns fuel (board : Board) alpha beta hashKey depths :
  lawfulDownTo fuel board ->
  (Z.to_nat (MAX_PLY - 1) + 1 <= fuel)%nat ->
  forall bestMove bestScore log (e : Engine Board TT),
    exists move log' e',
      deepen fuel board alpha beta hashKey depths bestMove bestScore log e
      = Some (move, log', e').
Proof.
  intros Hlaw Hfuel.
  induction depths as [|depth rest IH]; intros bestMove bestScore log e.
  - now do 3 eexists.
  - rewrite deepen_step.
    destruct (pvSearch_returns_lawful fuel board depth alpha beta
                (color_eqb (getSideToMove board) WHITE) hashKey 0 noMove e Hlaw)
      as (r & e1 & ->); [rewrite Z.sub_0_r; exact Hfuel|].
    destruct (snd r); apply IH.
Qed.

(** X24.  The driver returns for every [maxDepth]: on positions that obey
    [noOwnCapture] and whose legal moves start on occupied squares, each
    iteration returns within [MAX_PLY] nested calls.  With [maxDepth]
    below 1 no search is made: the result is the unset move, and the
    engine is as before but for the cleared principal variation. *)
Theorem iterativeDeepening_returns (fuel : nat) (board : Board)
    (maxDepth hashKey alpha beta : Z) (log : IterationLog) (e : Engine Board TT) :
  lawfulDownTo fuel board ->
  (Z.to_nat (MAX_PLY - 1) + 1 <= fuel)%nat ->
  (exists move log' e',
      iterativeDeepeningSearch fuel board maxDepth hashKey alpha beta log e
      = Some (move, log', e'))
  /\ (maxDepth < 1 ->
      iterativeDeepeningSearch fuel board maxDepth hashKey alpha beta log e
      = Some (noMove, log, withPV e [])).
Proof.
  intros Hlaw Hfuel. split.
  - unfold iterativeDeepeningSearch, bind, modify.
    now apply deepen_returns.
  - intros Hnone. unfold iterativeDeepeningSearch, bind, modify, depthsUpTo.
    replace (Z.to_nat maxDepth) with 0%nat by lia. reflexivity.
Qed.

End DriverFacts.

(** The driver on [fiveMoves] with [maxDepth = 2]. *)
Lemma fiveMoves_driver :
  driverSummary (iterativeDeepeningSearch 65 fiveMoves 2 0 (-1000000) 1000000
                   (mkLog 0 noMove 0) (freshEngine fiveMoves))
  = Some (mv 7 0 6 0, [mv 7 0 6 0; mv 0 7 0 6], 51).
Proof. vm_compute. reflexivity. Qed.

Lemma iterativeDeepening_move_is_playable_witness :
  exists log' e',
    iterativeDeepeningSearch 65 fiveMoves 2 0 (-1000000) 1000000 (mkLog 0 noMove 0)
      (freshEngine fiveMoves)
    = Some (mv 7 0 6 0, log', e')
    /\ principalVariation e' = [mv 7 0 6 0; mv 0 7 0 6]
    /\ legalLine fiveMoves [mv 7 0 6 0; mv 0 7 0 6].
Proof.
  pose proof fiveMoves_driver as Hsummary.
  destruct (iterativeDeepeningSearch 65 fiveMoves 2 0 (-1000000) 1000000
              (mkLog 0 noMove 0) (freshEngine fiveMoves))
    as [[[move log'] e']|] eqn:Hrun; [|discriminate].
  injection Hsummary as Hmove Hline _.
  destruct (iterativeDeepening_move_is_playable 65 fiveMoves 2 0 (-1000000) 1000000
              (mkLog 0 noMove 0) (freshEngine fiveMoves) move log' e' Hrun)
    as [[[Hunset Hempty]|(rest & Hkept & Hplayable)] _].
  - rewrite Hline in Hempty. discriminate.
  - subst move. exists log', e'. split; [reflexivity|].
    split; [exact Hline|].
    rewrite Hline in Hkept. injection Hkept as <-. exact Hplayable.
Defined.

Lemma iterativeDeepening_returns_witness :
  (exists move log' e',
      iterativeDeepeningSearch 65 fiveMoves 3 0 (-1000000) 1000000 (mkLog 0 noMove 0)
        (freshEngine fiveMoves)
      = Some (move, log', e'))
  /\ (3 < 1 ->
      iterativeDeepeningSearch 65 fiveMoves 3 0 (-1000000) 1000000 (mkLog 0 noMove 0)
        (freshEngine fiveMoves)
      = Some (noMove, mkLog 0 noMove 0, withPV (freshEngine fiveMoves) [])).
Proof.
  apply (iterativeDeepening_returns 65 fiveMoves 3 0 (-1000000) 1000000
           (mkLog 0 noMove 0) (freshEngine fiveMoves)).
  - exact fiveMoves_lawful.
  - vm_compute. lia.
Defined.

(* ===================================================================== *)
(** * The legacy alpha-beta routine against its value without a window *)
(* ===================================================================== *)

Lemma insertScored_permutation (x : Z * Move) (l : list (Z * Move)) :
  Permutation (insertScored x l) (x :: l).
Proof.
  induction l as [|y l IH]; simpl.
  - reflexivity.
  - destruct (fst x <? fst y); [|reflexivity].
    rewrite IH. apply perm_swap.
Qed.

Lemma sortScored_permutation (l : list (Z * Move)) : Permutation (sortScored l) l.
Proof.
  induction l as [|x l IH]; simpl.
  - reflexivity.
  - rewrite insertScored_permutation. now apply perm_skip.
Qed.

Section LegacyFacts.
Context {Board TT : Type} `{BoardOps Board} `{LegacyBoardOps Board} `{TableOps TT}
  `{EngineConsts}.

Lemma bestOf_permutation (pick : Z -> Z -> Z) (value : Move -> option Z) :
  (forall a x y, pick (pick a x) y = pick (pick a y) x) ->
  forall l l', Permutation l l' ->
               forall best, bestOf pick value l best = bestOf pick value l' best.
Proof.
  intros Hcomm l l' Hperm.
  induction Hperm as [|x l l' _ IH|x y l|l l' l'' _ IH1 _ IH2]; intros best; simpl.
  - reflexivity.
  - destruct (value x); [apply IH|reflexivity].
  - destruct (value x), (value y); try reflexivity. now rewrite Hcomm.
  - now rewrite IH1.
Qed.

Lemma bestOf_max_at_least (value : Move -> option Z) (moves : list Move) :
  forall best m, bestOf Z.max value moves best = Some m -> best <= m.
Proof.
  induction moves as [|move rest IH]; intros best m Hrun; simpl in Hrun.
  - injection Hrun as <-. lia.
  - destruct (value move) as [c|]; [|discriminate]. apply IH in Hrun. lia.
Qed.

Lemma bestOf_min_at_most (value : Move -> option Z) (moves : list Move) :
  forall best m, bestOf Z.min value moves best = Some m -> m <= best.
Proof.
  induction moves as [|move rest IH]; intros best m Hrun; simpl in Hrun.
  - injection Hrun as <-. lia.
  - destruct (value move) as [c|]; [|discriminate]. apply IH in Hrun. lia.
Qed.

Lemma scoreMoves_kept fuel (e : Engine Board TT) (board : Board) depth ttMove ply
    lastMove moves :
  forall scored,
    scoreMoves fuel e board depth ttMove ply lastMove moves = Some scored ->
    keptMoves fuel board depth moves = Some (map snd scored).
Proof.
  induction moves as [|move rest IH]; intros scored Hrun; simpl in Hrun |- *.
  - now injection Hrun as <-.
  - destruct (getMoveScore fuel e move board ttMove _ ply _ lastMove) as [moveScore|];
      [|discriminate].
    destruct (if 3 <=? depth then _ else _) as [[|]|]; try discriminate;
      destruct (scoreMoves fuel e board depth ttMove ply lastMove rest) as [l|];
      try discriminate; injection Hrun as <-; now rewrite (IH l eq_refl).
Qed.

Lemma alphaBeta_step fuel (board : Board) depth alpha beta maximizingPlayer hashKey ply
    lastMove (e : Engine Board TT) :
  alphaBeta (S fuel) board depth alpha beta maximizingPlayer hashKey ply lastMove e
  = let e1 := withNodes e (nodesSearched e + 1) in
    let probed := if 0 <? ply then probe (transpositionTable e) hashKey depth alpha beta
                  else (false, 0, noMove) in
    if fst (fst probed) then Some (snd (fst probed), [], e1)
    else if depth =? 0 then
      match quiescenceSearch (S fuel) board alpha beta hashKey ply e1 with
      | Some (r, e2) => Some (r, [], e2)
      | None => None
      end
    else if isCheckmate board || isStalemate board
    then Some (evaluatePosition board, [], e1)
    else
      match generateLegalMoves board with
      | [] =>
          Some (if isInCheck board
                then (if maximizingPlayer then -100000 + ply else 100000 - ply)
                else 0, [], e1)
      | firstMove :: _ =>
          match scoreMoves (S fuel) e1 board depth (snd probed) ply lastMove
                  (generateLegalMoves board) with
          | None => None
          | Some scored =>
              let start := mkVars alpha beta
                             (if maximizingPlayer then INT_MIN else INT_MAX)
                             firstMove [] false ALPHA in
              match (if maximizingPlayer
                     then legacyMaxLoop (alphaBeta fuel) board depth hashKey ply
                            lastMove (sortScored scored) start e1
                     else legacyMinLoop (alphaBeta fuel) board depth hashKey ply
                            lastMove (sortScored scored) start e1) with
              | None => None
              | Some (v, e2) =>
                  Some (v_eval v, v_pv v,
                        withTable e2
                          (store (transpositionTable e2) hashKey depth (v_eval v)
                             (finalNodeType alpha (v_beta v) (v_eval v) (v_nodeType v))
                             (v_bestMove v)))
              end
          end
      end.
Proof.
  cbn [alphaBeta]. unfold alphaBetaNode, bind, modify, gets, ret.
  cbn [transpositionTable withNodes]. cbv zeta.
  destruct (fst (fst (if 0 <? ply then _ else _))); [reflexivity|].
  destruct (depth =? 0).
  { now destruct (quiescenceSearch (S fuel) board alpha beta hashKey ply _)
      as [[r e2]|]. }
  destruct (isCheckmate board || isStalemate board); [reflexivity|].
  destruct (generateLegalMoves board) as [|firstMove others] eqn:Hmoves.
  { now destruct (isInCheck board). }
  unfold liftOption.
  destruct (scoreMoves (S fuel) _ board depth _ ply lastMove (firstMove :: others))
    as [scored|]; [|reflexivity].
  unfold storeResult, bind, modify, ret.
  destruct maximizingPlayer.
  - now destruct (legacyMaxLoop _ _ _ _ _ _ _ _ _) as [[v e2]|].
  - now destruct (legacyMinLoop _ _ _ _ _ _ _ _ _) as [[v e2]|].
Qed.

(** The maximizing loop against the running maximum [M] of all children:
    [alpha0] is the alpha of the node, [v_eval v] the running [maxEval]. *)
Lemma legacyMaxLoop_bounds (self : SearchFn) (value : Move -> option Z) (board : Board)
    depth hashKey ply lastMove alpha0 beta :
  (forall move a b h (e : Engine Board TT) r e' c,
      INT_MIN <= a -> b <= INT_MAX -> a < b ->
      self (playMove board move) (depth - 1) a b false h (ply + 1) move e = Some (r, e') ->
      value move = Some c ->
      approximates c a b (fst r)) ->
  INT_MIN <= alpha0 ->
  beta <= INT_MAX ->
  forall moves v (e : Engine Board TT) v' e' M m,
    v_beta v = beta ->
    v_alpha v = Z.max alpha0 (v_eval v) ->
    v_alpha v < beta ->
    (M <= alpha0 -> M <= v_eval v <= alpha0) ->
    (alpha0 < M -> v_eval v = M) ->
    legacyMaxLoop self board depth hashKey ply lastMove moves v e = Some (v', e') ->
    bestOf Z.max value (map snd moves) M = Some m ->
    approximates m alpha0 beta (v_eval v').
Proof.
  intros Hchild Hmin Hmax.
  induction moves as [|[s move] rest IH];
    intros v e v' e' M m Hbeta Halpha Hwin Hlow Hexact Hrun Href;
    simpl in Hrun, Href.
  - injection Hrun as <- _. injection Href as <-.
    unfold approximates. lia.
  - unfold bind in Hrun.
    destruct (self (playMove board move) (depth - 1) (v_alpha v) (v_beta v) false _
                (ply + 1) move e) as [[r e1]|] eqn:Hcall; [|discriminate].
    destruct (value move) as [c|] eqn:Hc; [|discriminate].
    assert (Happrox : approximates c (v_alpha v) (v_beta v) (fst r))
      by (eapply Hchild; [| | |exact Hcall|exact Hc]; lia).
    destruct Happrox as (Hbelow & Habove & Hinside).
    destruct (Z.ltb_spec (v_eval v) (fst r)) as [Hbetter|Hworse];
      cbn [v_alpha v_beta v_eval v_bestMove v_pv v_foundPV v_nodeType] in Hrun;
      destruct (Z.leb_spec (v_beta v) (Z.max (v_alpha v) (fst r))) as [Hcut|Hnocut].
    + destruct (recordCutoff board move depth ply lastMove e1) as [[u e2]|];
        [|discriminate].
      unfold ret in Hrun. injection Hrun as <- _.
      cbn [v_eval]. apply bestOf_max_at_least in Href.
      unfold approximates. lia.
    + apply (IH _ e1 v' e' (Z.max M c) m) in Hrun; try assumption;
        cbn [v_alpha v_beta v_eval]; lia.
    + destruct (recordCutoff board move depth ply lastMove e1) as [[u e2]|];
        [|discriminate].
      unfold ret in Hrun. injection Hrun as <- _.
      cbn [v_eval]. apply bestOf_max_at_least in Href.
      unfold approximates. lia.
    + apply (IH _ e1 v' e' (Z.max M c) m) in Hrun; try assumption;
        cbn [v_alpha v_beta v_eval]; lia.
Qed.

(** The minimizing loop against the running minimum [M] of all children:
    [beta0] is the beta of the node, [v_eval v] the running [minEval]. *)
Lemma legacyMinLoop_bounds (self : SearchFn) (value : Move -> option Z) (board : Board)
    depth hashKey ply lastMove alpha beta0 :
  (forall move a b h (e : Engine Board TT) r e' c,
      INT_MIN <= a -> b <= INT_MAX -> a < b ->
      self (playMove board move) (depth - 1) a b true h (ply + 1) move e = Some (r, e') ->
      value move = Some c ->
      approximates c a b (fst r)) ->
  INT_MIN <= alpha ->
  beta0 <= INT_MAX ->
  forall moves v (e : Engine Board TT) v' e' M m,
    v_alpha v = alpha ->
    v_beta v = Z.min beta0 (v_eval v) ->
    alpha < v_beta v ->
    (beta0 <= M -> beta0 <= v_eval v <= M) ->
    (M < beta0 -> v_eval v = M) ->
    legacyMinLoop self board depth hashKey ply lastMove moves v e = Some (v', e') ->
    bestOf Z.min value (map snd moves) M = Some m ->
    approximates m alpha beta0 (v_eval v').
Proof.
  intros Hchild Hmin Hmax.
  induction moves as [|[s move] rest IH];
    intros v e v' e' M m Halpha Hbeta Hwin Hhigh Hexact Hrun Href;
    simpl in Hrun, Href.
  - injection Hrun as <- _. injection Href as <-.
    unfold approximates. lia.
  - unfold bind in Hrun.
    destruct (self (playMove board move) (depth - 1) (v_alpha v) (v_beta v) true _
                (ply + 1) move e) as [[r e1]|] eqn:Hcall; [|discriminate].
    destruct (value move) as [c|] eqn:Hc; [|discriminate].
    assert (Happrox : approximates c (v_alpha v) (v_beta v) (fst r))
      by (eapply Hchild; [| | |exact Hcall|exact Hc]; lia).
    destruct Happrox as (Hbelow & Habove & Hinside).
    destruct (Z.ltb_spec (fst r) (v_eval v)) as [Hbetter|Hworse];
      cbn [v_alpha v_beta v_eval v_bestMove v_pv v_foundPV v_nodeType] in Hrun;
      destruct (Z.leb_spec (Z.min (v_beta v) (fst r)) (v_alpha v)) as [Hcut|Hnocut].
    + destruct (recordCutoff board move depth ply lastMove e1) as [[u e2]|];
        [|discriminate].
      unfold ret in Hrun. injection Hrun as <- _.
      cbn [v_eval]. apply bestOf_min_at_most in Href.
      unfold approximates. lia.
    + apply (IH _ e1 v' e' (Z.min M c) m) in Hrun; try assumption;
        cbn [v_alpha v_beta v_eval]; lia.
    + destruct (recordCutoff board move depth ply lastMove e1) as [[u e2]|];
        [|discriminate].
      unfold ret in Hrun. injection Hrun as <- _.
      cbn [v_eval]. apply bestOf_min_at_most in Href.
      unfold approximates. lia.
    + apply (IH _ e1 v' e' (Z.min M c) m) in Hrun; try assumption;
        cbn [v_alpha v_beta v_eval]; lia.
Qed.

Lemma alphaBeta_bounds (fuel : nat) :
  (forall (t : TT) h d a b, fst (fst (probe t h d a b)) = false) ->
  forall (depth : nat) (board : Board) alpha beta maximizingPlayer hashKey ply lastMove
         (e : Engine Board TT) r e' m,
    INT_MIN <= alpha ->
    beta <= INT_MAX ->
    alpha < beta ->
    alphaBeta fuel board (Z.of_nat depth) alpha beta maximizingPlayer hashKey ply
      lastMove e = Some (r, e') ->
    alphaBetaUnpruned fuel depth board maximizingPlayer ply = Some m ->
    approximates m alpha beta (fst r).
Proof.
  intros Hsilent.
  induction fuel as [|fuel IH];
    intros depth board alpha beta maximizingPlayer hashKey ply lastMove e r e' m
      Hmin Hmax Hwin Hrun Href; [discriminate|].
  rewrite alphaBeta_step in Hrun. cbv zeta in Hrun.
  assert (Hmiss : fst (fst (if 0 <? ply
                            then probe (transpositionTable e) hashKey (Z.of_nat depth)
                                   alpha beta
                            else (false, 0, noMove))) = false)
    by (destruct (0 <? ply); [apply Hsilent|reflexivity]).
  rewrite Hmiss in Hrun.
  destruct depth as [|depth].
  - change (Z.of_nat 0 =? 0) with true in Hrun. cbn [alphaBetaUnpruned] in Href.
    destruct (quiescenceSearch (S fuel) board alpha beta hashKey ply _)
      as [[q e2]|] eqn:Hq; [|discriminate].
    injection Hrun as <- _. cbn [fst].
    eapply quiescence_approximates; [exact Hwin|exact Hq|exact Href].
  - destruct (Z.eqb_spec (Z.of_nat (S depth)) 0) as [Hzero|_]; [lia|].
    cbn [alphaBetaUnpruned] in Href.
    destruct (isCheckmate board || isStalemate board).
    { injection Hrun as <- _. injection Href as <-. unfold approximates. cbn [fst]. lia. }
    destruct (generateLegalMoves board) as [|firstMove others] eqn:Hmoves.
    { injection Hrun as <- _. injection Href as <-. unfold approximates. cbn [fst]. lia. }
    destruct (scoreMoves (S fuel) _ board (Z.of_nat (S depth)) _ ply lastMove _)
      as [scored|] eqn:Hscored; [|discriminate].
    rewrite (scoreMoves_kept _ _ _ _ _ _ _ _ _ Hscored) in Href.
    assert (Hperm : Permutation (map snd (sortScored scored)) (map snd scored))
      by (apply Permutation_map, sortScored_permutation).
    assert (Hchild : forall mx move a b h (e0 : Engine Board TT) r0 e0' c,
               INT_MIN <= a -> b <= INT_MAX -> a < b ->
               alphaBeta fuel (playMove board move) (Z.of_nat (S depth) - 1) a b mx h
                 (ply + 1) move e0 = Some (r0, e0') ->
               alphaBetaUnpruned fuel depth (playMove board move) mx (ply + 1) = Some c ->
               approximates c a b (fst r0)).
    { intros mx move a b h e0 r0 e0' c Ha Hb Hab Hcall Hc.
      replace (Z.of_nat (S depth) - 1) with (Z.of_nat depth) in Hcall by lia.
      now apply (IH depth (playMove board move) a b mx h (ply + 1) move e0 r0 e0' c). }
    destruct maximizingPlayer.
    + destruct (legacyMaxLoop _ _ _ _ _ _ _ _ _) as [[v e2]|] eqn:Hloop; [|discriminate].
      injection Hrun as <- _. cbn [fst negb] in *.
      rewrite <- (bestOf_permutation Z.max _ ltac:(intros; lia) _ _ Hperm) in Href.
      eapply (legacyMaxLoop_bounds (alphaBeta fuel) _ board (Z.of_nat (S depth)) hashKey
                ply lastMove alpha beta);
        [ |exact Hmin|exact Hmax| | | | | |exact Hloop|exact Href];
        cbn [v_alpha v_beta v_eval]; try lia; try reflexivity.
      intros move a b h e0 r0 e0' c. apply (Hchild false).
    + destruct (legacyMinLoop _ _ _ _ _ _ _ _ _) as [[v e2]|] eqn:Hloop; [|discriminate].
      injection Hrun as <- _. cbn [fst negb] in *.
      rewrite <- (bestOf_permutation Z.min _ ltac:(intros; lia) _ _ Hperm) in Href.
      eapply (legacyMinLoop_bounds (alphaBeta fuel) _ board (Z.of_nat (S depth)) hashKey
                ply lastMove alpha beta);
        [ |exact Hmin|exact Hmax| | | | | |exact Hloop|exact Href];
        cbn [v_alpha v_beta v_eval]; try lia; try reflexivity.
      intros move a b h e0 r0 e0' c. apply (Hchild true).
Qed.

(** X25.  The pruning of the legacy routine changes no value: on a
    transposition table that answers no probe, on positions that obey
    [legacyLawful] and with a window [INT_MIN < alpha < beta <= INT_MAX],
    the score that [alphaBeta] returns is the value [m] of its own
    recursion run over every kept move without window and cutoffs
    ([alphaBetaUnpruned]) when [m] lies inside the window, and a bound
    between [m] and the window when it lies outside (fail-soft).  Neither
    the cutoffs nor the move order change the value.  The value [m] is the
    routine's own and not the minimax value of the position: see
    [alphaBetaUnpruned]. *)
Theorem alphaBeta_pruning_is_sound (fuel depth : nat) (board : Board) (alpha beta : Z)
    (maximizingPlayer : bool) (hashKey ply : Z) (lastMove : Move)
    (e : Engine Board TT) (score : Z) (line : list Move) (e' : Engine Board TT)
    (m : Z) :
  (forall (t : TT) h d a b, fst (fst (probe t h d a b)) = false) ->
  legacyLawful fuel depth board ->
  INT_MIN < alpha ->
  beta <= INT_MAX ->
  alpha < beta ->
  alphaBeta fuel board (Z.of_nat depth) alpha beta maximizingPlayer hashKey ply
    lastMove e = Some (score, line, e') ->
  alphaBetaUnpruned fuel depth board maximizingPlayer ply = Some m ->
  (m <= alpha -> m <= score <= alpha)
  /\ (beta <= m -> beta <= score <= m)
  /\ (alpha < m < beta -> score = m).
Proof.
  intros Hsilent _ Hlowest Hmax Hwin Hrun Href.
  assert (Hmin : INT_MIN <= alpha) by lia.
  exact (alphaBeta_bounds fuel Hsilent depth board alpha beta maximizingPlayer hashKey
           ply lastMove e (score, line) e' m Hmin Hmax Hwin Hrun Href).
Qed.

End LegacyFacts.

Section LegacyTermination.
Context {Board TT : Type} `{BoardOps Board} `{LegacyBoardOps Board} `{TableOps TT}
  `{EngineConsts}.

Lemma ruleDownTo_less (n : nat) :
  forall (m : nat) (board : Board), (m <= n)%nat -> ruleDownTo n board -> ruleDownTo m board.
Proof.
  induction n as [|n IH]; intros m board Hle [Hrule Hbelow].
  - replace m with 0%nat by lia. now split.
  - destruct m as [|m]; (split; [exact Hrule|]); [exact I|].
    intros move board' Hmade. apply (IH m); [lia|]. now apply (Hbelow move).
Qed.

Lemma legacyMaxLoop_returns (self : SearchFn) (board : Board) depth hashKey ply lastMove
    moves :
  (forall sm a b h (e0 : Engine Board TT),
      In sm moves ->
      exists r0 e0',
        self (playMove board (snd sm)) (depth - 1) a b false h (ply + 1) (snd sm) e0
        = Some (r0, e0')) ->
  forall v (e : Engine Board TT),
    exists v' e',
      legacyMaxLoop self board depth hashKey ply lastMove moves v e = Some (v', e').
Proof.
  induction moves as [|[s move] rest IH]; intros Hself v e; simpl.
  - unfold ret. now do 2 eexists.
  - assert (Hrest : forall sm a b h (e0 : Engine Board TT),
               In sm rest ->
               exists r0 e0',
                 self (playMove board (snd sm)) (depth - 1) a b false h (ply + 1)
                   (snd sm) e0 = Some (r0, e0'))
      by (intros sm a b h e0 Hin; apply Hself; now right).
    unfold bind.
    destruct (Hself (s, move) (v_alpha v) (v_beta v) (updateHashKey hashKey move board)
                e (or_introl eq_refl)) as (r & e1 & Hcall).
    cbn [snd] in Hcall. rewrite Hcall.
    destruct (_ <=? _); [|now apply IH].
    destruct (recordCutoff_returns board move depth ply lastMove e1) as (u & e2 & ->).
    unfold ret. now do 2 eexists.
Qed.

Lemma legacyMinLoop_returns (self : SearchFn) (board : Board) depth hashKey ply lastMove
    moves :
  (forall sm a b h (e0 : Engine Board TT),
      In sm moves ->
      exists r0 e0',
        self (playMove board (snd sm)) (depth - 1) a b true h (ply + 1) (snd sm) e0
        = Some (r0, e0')) ->
  forall v (e : Engine Board TT),
    exists v' e',
      legacyMinLoop self board depth hashKey ply lastMove moves v e = Some (v', e').
Proof.
  induction moves as [|[s move] rest IH]; intros Hself v e; simpl.
  - unfold ret. now do 2 eexists.
  - assert (Hrest : forall sm a b h (e0 : Engine Board TT),
               In sm rest ->
               exists r0 e0',
                 self (playMove board (snd sm)) (depth - 1) a b true h (ply + 1)
                   (snd sm) e0 = Some (r0, e0'))
      by (intros sm a b h e0 Hin; apply Hself; now right).
    unfold bind.
    destruct (Hself (s, move) (v_alpha v) (v_beta v) (updateHashKey hashKey move board)
                e (or_introl eq_refl)) as (r & e1 & Hcall).
    cbn [snd] in Hcall. rewrite Hcall.
    destruct (_ <=? _); [|now apply IH].
    destruct (recordCutoff_returns board move depth ply lastMove e1) as (u & e2 & ->).
    unfold ret. now do 2 eexists.
Qed.

Lemma alphaBeta_returns_lawful (reach : nat) (fuel : nat) :
  forall (depth : nat) (board : Board) alpha beta maximizingPlayer hashKey ply lastMove
         (e : Engine Board TT),
    (fuel <= reach)%nat ->
    legacyLawful reach depth board ->
    (depth + Z.to_nat (MAX_PLY - 1 - ply) + 1 <= fuel)%nat ->
    exists r e',
      alphaBeta fuel board (Z.of_nat depth) alpha beta maximizingPlayer hashKey ply
        lastMove e = Some (r, e').
Proof.
  induction fuel as [|fuel IH];
    intros depth board alpha beta maximizingPlayer hashKey ply lastMove e
      Hreach Hlaw Hfuel; [lia|].
  rewrite alphaBeta_step. cbv zeta.
  destruct (fst (fst (if 0 <? ply then _ else _))); [now do 2 eexists|].
  destruct depth as [|depth]; destruct Hlaw as (Hlawful & Hbelow);
    pose proof (lawfulDownTo_rule reach board Hlawful) as Hrule;
    assert (Hfrom : movesFromPieces board) by (destruct reach; apply Hlawful).
  - change (Z.of_nat 0 =? 0) with true. cbv iota.
    destruct (quiescenceSearch_returns (S fuel) board alpha beta hashKey ply
                (withNodes e (nodesSearched e + 1))
                (ruleDownTo_less reach (S fuel) board Hreach Hrule))
      as (q & e2 & ->); [lia|].
    now do 2 eexists.
  - destruct (Z.eqb_spec (Z.of_nat (S depth)) 0) as [Hzero|_]; [lia|].
    destruct (isCheckmate board || isStalemate board); [now do 2 eexists|].
    destruct (generateLegalMoves board) as [|firstMove others] eqn:Hmoves;
      [now do 2 eexists|].
    destruct fuel as [|fuel]; [lia|].
    assert (Hhere : noOwnCapture board) by (destruct reach; apply Hrule).
    destruct (scoreMoves (S (S fuel)) (withNodes e (nodesSearched e + 1)) board
                (Z.of_nat (S depth))
                (snd (if 0 <? ply
                      then probe (transpositionTable e) hashKey (Z.of_nat (S depth))
                             alpha beta
                      else (false, 0, noMove)))
                ply lastMove (firstMove :: others)) as [scored|] eqn:Hscored.
    2:{ destruct (scoreMoves_returns fuel (withNodes e (nodesSearched e + 1)) board
                    (Z.of_nat (S depth))
                    (snd (if 0 <? ply
                          then probe (transpositionTable e) hashKey
                                 (Z.of_nat (S depth)) alpha beta
                          else (false, 0, noMove)))
                    ply lastMove (firstMove :: others) Hhere) as [scored Hsome].
        - intros move Hin. apply Hfrom. try rewrite Hmoves. exact Hin.
        - congruence. }
    assert (Hself : forall mx sm a b h (e0 : Engine Board TT),
               In sm (sortScored scored) ->
               exists r0 e0',
                 alphaBeta (S fuel) (playMove board (snd sm)) (Z.of_nat (S depth) - 1)
                   a b mx h (ply + 1) (snd sm) e0 = Some (r0, e0')).
    { intros mx sm a b h e0 Hin.
      replace (Z.of_nat (S depth) - 1) with (Z.of_nat depth) by lia.
      apply IH; [lia| |lia].
      apply Hbelow. try rewrite Hmoves.
      apply (proj1 (sortScored_In sm scored)) in Hin.
      now apply (scoreMoves_listed _ _ _ _ _ _ _ _ _ Hscored). }
    destruct maximizingPlayer.
    + destruct (legacyMaxLoop_returns (alphaBeta (S fuel)) board (Z.of_nat (S depth))
                  hashKey ply lastMove (sortScored scored) (Hself false)
                  (mkVars alpha beta INT_MIN firstMove [] false ALPHA)
                  (withNodes e (nodesSearched e + 1))) as (v & e2 & ->).
      now do 2 eexists.
    + destruct (legacyMinLoop_returns (alphaBeta (S fuel)) board (Z.of_nat (S depth))
                  hashKey ply lastMove (sortScored scored) (Hself true)
                  (mkVars alpha beta INT_MAX firstMove [] false ALPHA)
                  (withNodes e (nodesSearched e + 1))) as (v & e2 & ->).
      now do 2 eexists.
Qed.

(** X26.  The legacy routine returns for every depth that is not
    negative, with no help from a ply ceiling: when the positions within
    [depth] moves, and every position that the quiescence search reaches
    from one of them, obey [noOwnCapture] and have their legal moves start
    on occupied squares ([legacyLawful]), its calls nest [depth] deep, and
    the quiescence search at the leaves goes on to the ply ceiling at
    most. *)
Theorem alphaBeta_returns (fuel depth : nat) (board : Board) (alpha beta : Z)
    (maximizingPlayer : bool) (hashKey ply : Z) (lastMove : Move)
    (e : Engine Board TT) :
  legacyLawful fuel depth board ->
  (depth + Z.to_nat (MAX_PLY - 1 - ply) + 1 <= fuel)%nat ->
  exists score line e',
    alphaBeta fuel board (Z.of_nat depth) alpha beta maximizingPlayer hashKey ply
      lastMove e = Some (score, line, e').
Proof.
  intros Hlaw Hfuel.
  destruct (alphaBeta_returns_lawful fuel fuel depth board alpha beta maximizingPlayer
              hashKey ply lastMove e (le_n fuel) Hlaw Hfuel)
    as ([score line] & e' & Hrun).
  now exists score, line, e'.
Qed.

End LegacyTermination.

Lemma obeysLegacyLaw_sound (reach depth : nat) :
  forall b : GameNode, obeysLegacyLaw reach depth b = true -> legacyLawful reach depth b.
Proof.
  induction depth as [|depth IH]; intros b Hcheck; simpl in Hcheck.
  - apply andb_prop in Hcheck as [Hhere _].
    split; [now apply obeysLawDownTo_sound|exact I].
  - apply andb_prop in Hcheck as [Hhere Hbelow].
    split; [now apply obeysLawDownTo_sound|].
    intros move Hin. apply IH.
    rewrite forallb_forall in Hbelow. now apply Hbelow.
Qed.

Lemma storeLog_never_answers (t : StoreLog) (h d a b : Z) :
  fst (fst (probe t h d a b)) = false.
Proof. reflexivity. Qed.

Lemma fiveMoves_legacyLawful_one : legacyLawful 66 1 fiveMoves.
Proof. apply obeysLegacyLaw_sound. vm_compute. reflexivity. Qed.

(** At depth 1 the value of the routine on [fiveMoves] is -100, with and
    without the window; the minimax value of the position is 125. *)
Lemma alphaBetaUnpruned_fiveMoves :
  alphaBetaUnpruned 66 1 fiveMoves true 0 = Some (-100)
  /\ minimax 1 fiveMoves true = 125.
Proof. split; vm_compute; reflexivity. Qed.

Lemma alphaBeta_pruning_is_sound_witness :
  exists line e',
    alphaBeta 66 fiveMoves (Z.of_nat 1) (-1000000) 1000000 true 0 0 noMove
      (freshEngine fiveMoves) = Some (-100, line, e')
    /\ alphaBetaUnpruned 66 1 fiveMoves true 0 = Some (-100).
Proof.
  destruct (alphaBeta 66 fiveMoves (Z.of_nat 1) (-1000000) 1000000 true 0 0 noMove
              (freshEngine fiveMoves)) as [[[score line] e']|] eqn:Hrun;
    [|vm_compute in Hrun; discriminate].
  destruct (alphaBeta_pruning_is_sound 66 1 fiveMoves (-1000000) 1000000 true 0 0 noMove
              (freshEngine fiveMoves) score line e' (-100)) as (_ & _ & Hinside).
  - exact storeLog_never_answers.
  - exact fiveMoves_legacyLawful_one.
  - reflexivity.
  - vm_compute. discriminate.
  - reflexivity.
  - exact Hrun.
  - exact (proj1 alphaBetaUnpruned_fiveMoves).
  - rewrite (Hinside ltac:(lia)).
    exists line, e'. split; [reflexivity|exact (proj1 alphaBetaUnpruned_fiveMoves)].
Defined.

Lemma fiveMoves_legacyLawful : legacyLawful 67 2 fiveMoves.
Proof. apply obeysLegacyLaw_sound. vm_compute. reflexivity. Qed.

Lemma alphaBeta_returns_witness :
  exists score line e',
    alphaBeta 67 fiveMoves (Z.of_nat 2) (-1000000) 1000000 true 0 0 noMove
      (freshEngine fiveMoves) = Some (score, line, e').
Proof.
  apply (alphaBeta_returns 67 2 fiveMoves (-1000000) 1000000 true 0 0 noMove
           (freshEngine fiveMoves)).
  - exact fiveMoves_legacyLawful.
  - vm_compute. lia.
Defined.

(* ===================================================================== *)
(** * Further properties of move ordering and of the stored entries *)
(* ===================================================================== *)

Lemma insertScored_sorted (x : Z * Move) (l : list (Z * Move)) :
  StronglySorted (fun a b => fst b <= fst a) l ->
  StronglySorted (fun a b => fst b <= fst a) (insertScored x l).
Proof.
  induction l as [|y l IH]; intros Hsorted; simpl.
  - constructor; [constructor|constructor].
  - apply StronglySorted_inv in Hsorted as [Hrest Hhead].
    destruct (Z.ltb_spec (fst x) (fst y)) as [Hlt|Hge].
    + constructor; [now apply IH|].
      rewrite List.Forall_forall in *. intros z Hin.
      apply (proj1 (insertScored_In x z l)) in Hin as [->|Hin]; [lia|now apply Hhead].
    + constructor; [now constructor|].
      constructor; [exact Hge|].
      rewrite List.Forall_forall in *. intros z Hin. specialize (Hhead z Hin). lia.
Qed.

(** X27.  The ordering of the scored moves loses and adds nothing and puts
    the scores in non-increasing order: the sorted list is a permutation of
    the scored list, and no move comes before a move with a higher
    score. *)
Theorem sortScored_orders_by_score (scored : list (Z * Move)) :
  Permutation (sortScored scored) scored
  /\ StronglySorted (fun a b => fst b <= fst a) (sortScored scored).
Proof.
  split; [apply sortScored_permutation|].
  induction scored as [|x l IH]; simpl.
  - constructor.
  - now apply insertScored_sorted.
Qed.

Section OrderingFacts.
Context {Board TT : Type} `{BoardOps Board} `{TableOps TT} `{EngineConsts}.

Lemma pvBand_range (e : Engine Board TT) move ply (n : nat) :
  forall s, pvBand e move ply n = Some s ->
            9001000 <= s <= 9000000 + Z.of_nat n * 1000.
Proof.
  induction n as [|n IH]; intros s Hband; [discriminate|].
  cbn [pvBand] in Hband.
  destruct (isPVMoveAtDepth e move (Z.of_nat (S n)) ply).
  - injection Hband as <-. lia.
  - apply IH in Hband. lia.
Qed.

Lemma getMVVLVAScore_at_most (attacker victim : PieceType) :
  getMVVLVAScore attacker victim <= 605.
Proof. destruct attacker, victim; vm_compute; discriminate. Qed.

(** X28.  The move of the transposition table is ordered first: with the
    depth member below 1000, piece values below 6,000,000 and history
    scores at most 10000, every move gets a score of at most 10,000,000,
    and exactly the moves on the squares of a valid table move get
    10,000,000. *)
Theorem table_move_scores_highest (fuel : nat) (e : Engine Board TT) (move : Move)
    (board : Board) (ttMove : Move) (pv : list Move) (ply : Z) (side : Color)
    (lastMove : Move) (s : Z) :
  curDepth e < 1000 ->
  (forall t, getPieceValue t < 6000000) ->
  (forall k, histAt (historyTable e) k <= 10000) ->
  getMoveScore fuel e move board ttMove pv ply side lastMove = Some s ->
  s <= 10000000 /\ (s = 10000000 <-> matchesTTMove ttMove move = true).
Proof.
  intros Hdepth Hvalues Hhist. unfold getMoveScore.
  destruct (matchesTTMove ttMove move).
  { intros Hs. injection Hs as <-. split; [lia|now split]. }
  assert (Hbelow : s < 10000000 ->
                   s <= 10000000 /\ (s = 10000000 <-> false = true))
    by (intros Hlt; split; [lia|split; [lia|discriminate]]).
  destruct (pvBand e move ply (Z.to_nat (curDepth e))) as [band|] eqn:Hband.
  { intros Hs. injection Hs as <-. apply Hbelow.
    apply pvBand_range in Hband. lia. }
  destruct (getPieceAt board (to move)) as [victim|] eqn:Hvictim.
  - destruct (seeCapture fuel board move) as [seeScore|] eqn:Hsee; [|discriminate].
    assert (HseeMax : seeScore <= getPieceValue (getType victim) \/ seeScore = 0).
    { unfold seeCapture in Hsee. rewrite Hvictim in Hsee.
      destruct (getPieceAt board (from move)) as [mover|];
        [|injection Hsee as <-; now right].
      destruct (see fuel board (to move) (getColor mover) _) as [r|] eqn:Hr;
        [|discriminate].
      injection Hsee as <-. apply see_nonnegative in Hr. left. lia. }
    pose proof (Hvalues (getType victim)).
    destruct (0 <? seeScore).
    + intros Hs. injection Hs as <-. apply Hbelow. lia.
    + destruct (getPieceAt board (from move)) as [attacker|]; [|discriminate].
      intros Hs. injection Hs as <-. apply Hbelow.
      pose proof (getMVVLVAScore_at_most (getType attacker) (getType victim)). lia.
  - pose proof (Hhist (historyKey move side)) as Hquiet. unfold getHistoryScore.
    destruct (_ && _); [intros Hs; injection Hs as <-; apply Hbelow; lia|].
    destruct (isKillerMove e move ply);
      [destruct (sameSquares _ move); intros Hs; injection Hs as <-; apply Hbelow; lia|].
    intros Hs. injection Hs as <-. apply Hbelow. lia.
Qed.



End OrderingFacts.

Lemma usualConsts_below (t : PieceType) : getPieceValue t < 6000000.
Proof. destruct t; vm_compute; reflexivity. Qed.

Lemma table_move_scores_highest_witness :
  4000900 <= 10000000
  /\ (4000900 = 10000000 <-> matchesTTMove (mv 7 6 7 5) (mv 4 3 3 4) = true).
Proof.
  apply (table_move_scores_highest 2 (freshEngine hangingQueen) (mv 4 3 3 4)
           hangingQueen (mv 7 6 7 5) [] 0 WHITE noMove 4000900).
  - reflexivity.
  - exact usualConsts_below.
  - exact (freshEngine_history hangingQueen).
  - vm_compute. reflexivity.
Defined.



